(** * FlipFile: file validation, image-to-PDF conversion and memory monitor

    A shallow embedding of [file-validator.js], the [XSSProtection] class of
    [security-headers.js], [convertImagesToPdf] of [tools.js] and the
    [MemoryMonitor] class, with the properties of the specification stated
    and proved (or refuted) over it.

    Conventions.
    - A JavaScript string is the list of its UTF-16 code units ([jsstring]).
    - A JavaScript number is a binary64 float ([PrimFloat.float]); byte
      counts and pixel counts, which the platform keeps integral, are [N].
    - A promise that resolves is the value it resolves to; a promise that
      rejects is [None].  The [FileReader] loads of the validator are taken
      to complete, so that its promises resolve.
    - The scripts are loaded together: [XSSProtection] is in scope where
      [FileValidator] calls it. *)

From Stdlib Require Import Ascii String DecimalString.
From Stdlib.Strings Require Import Byte.
From Stdlib Require Import NArith ZArith QArith Qminmax Bool Lia Floats List.
From Stdlib Require Reals Lra Psatz.
Import ListNotations.

Set Implicit Arguments.
Local Open Scope list_scope.

(* ================================================================== *)
(** ** JavaScript strings *)

Module JS.

Definition codeunit := N.
Definition jsstring := list codeunit.

(** An ASCII literal of the source as a [jsstring]. *)
Definition lit (s : string) : jsstring :=
  List.map N_of_ascii (list_ascii_of_string s).
Arguments lit s%_string.

Fixpoint str_eqb (a b : jsstring) : bool :=
  match a, b with
  | [], [] => true
  | x :: a', y :: b' => (x =? y)%N && str_eqb a' b'
  | _, _ => false
  end.

(** [String.prototype.startsWith] *)
Fixpoint startsWith (s p : jsstring) : bool :=
  match p, s with
  | [], _ => true
  | y :: p', x :: s' => (x =? y)%N && startsWith s' p'
  | _ :: _, [] => false
  end.

(** [String.prototype.endsWith]: the last [length p] code units are [p]. *)
Definition endsWith (s p : jsstring) : bool :=
  if (length p <=? length s)%nat
  then str_eqb (skipn (length s - length p) s) p
  else false.

(** [String.prototype.includes]: [p] occurs at some position of [s]. *)
Fixpoint includes (s p : jsstring) : bool :=
  startsWith s p ||
  match s with
  | [] => false
  | _ :: s' => includes s' p
  end.

(** [String.prototype.split] with a one-code-unit separator.  The result
    always has at least one segment. *)
Fixpoint split (sep : codeunit) (s : jsstring) : list jsstring :=
  match s with
  | [] => [[]]
  | c :: s' =>
      if (c =? sep)%N then [] :: split sep s'
      else match split sep s' with
           | seg :: segs => (c :: seg) :: segs
           | [] => [[c]]
           end
  end.

(** [Array.prototype.pop]'s return value: the last element, [undefined]
    ([None]) for the empty array. *)
Fixpoint pop (A : Type) (l : list A) : option A :=
  match l with
  | [] => None
  | [x] => Some x
  | _ :: l' => pop l'
  end.

(** [Array.prototype.includes] on an array of strings. *)
Definition arr_includes (l : list jsstring) (x : jsstring) : bool :=
  existsb (fun y => str_eqb y x) l.

(** [Array.prototype.join('')] *)
Definition join (l : list jsstring) : jsstring := List.concat l.

(** [String.prototype.padStart] with a one-code-unit filler. *)
Definition padStart (s : jsstring) (len : nat) (fill : codeunit) : jsstring :=
  List.repeat fill (len - length s) ++ s.

Definition hexDigit (d : N) : codeunit :=
  if (d <? 10)%N then (48 + d)%N else (87 + d)%N.

(** [Number.prototype.toString(16)] of a byte value. *)
Definition toString16 (b : byte) : jsstring :=
  let n := Byte.to_N b in
  if (n <? 16)%N then [hexDigit n]
  else [hexDigit (n / 16)%N; hexDigit (n mod 16)%N].

(** The decimal rendering of a non-negative integral number. *)
Definition toStringN (n : N) : jsstring :=
  lit (NilEmpty.string_of_uint (N.to_uint n)).

(** *** ASCII case mapping

    The case mappings of the platform restricted to the ASCII range; code
    units outside [A-Z] (resp. [a-z]) are left as they are. *)
Definition asciiLower (c : codeunit) : codeunit :=
  if ((65 <=? c) && (c <=? 90))%N then (c + 32)%N else c.

Definition asciiUpper (c : codeunit) : codeunit :=
  if ((97 <=? c) && (c <=? 122))%N then (c - 32)%N else c.

Definition isAscii (c : codeunit) : Prop := (c < 128)%N.

End JS.
Import JS.

(* ================================================================== *)
(** ** The host platform

    What the browser supplies and the repository only calls: the Unicode
    case mappings of [String.prototype] and the text decoding of
    [FileReader.readAsText] (UTF-8 with byte-order-mark sniffing).  The
    validator is defined over an arbitrary host. *)

Class Host := {
  toLowerCase : jsstring -> jsstring;
  toUpperCase : jsstring -> jsstring;
  readAsText : list byte -> jsstring
}.

Definition dot : codeunit := 46%N.

(** [p] occurs in [l] as a block of consecutive elements. *)
Definition infix (A : Type) (p l : list A) : Prop :=
  exists pre post, l = pre ++ p ++ post.

(** A byte sequence that starts with a UTF-16 byte-order mark is decoded
    as UTF-16 by [readAsText], anything else as UTF-8. *)
Definition hasUtf16BOM (bs : list byte) : bool :=
  match bs with
  | xfe :: xff :: _ => true
  | xff :: xfe :: _ => true
  | _ => false
  end.

Definition bytesToUnits (bs : list byte) : jsstring := List.map Byte.to_N bs.

(** The facts about the platform that some of the properties rely on.
    - On ASCII-only strings the case mappings are the ASCII ones.
    - No code unit is lower-cased to a full stop ['.'] other than the full
      stop itself, and a trailing full stop stays a trailing full stop.
    - UTF-8 decoding keeps ASCII bytes as they are and never produces an
      ASCII code unit from a non-ASCII byte, so an ASCII pattern found in
      the decoded text occurs in the bytes. *)
Class HostLawful (H : Host) : Prop := {
  toLowerCase_ascii :
    forall s, Forall isAscii s -> toLowerCase s = List.map asciiLower s;
  toUpperCase_ascii :
    forall s, Forall isAscii s -> toUpperCase s = List.map asciiUpper s;
  toLowerCase_dot :
    forall s, In dot (toLowerCase s) -> In dot s;
  toLowerCase_trailing_dot :
    forall s, exists t, toLowerCase (s ++ [dot]) = t ++ [dot];
  readAsText_ascii :
    forall bs p, hasUtf16BOM bs = false -> Forall isAscii p ->
      infix p (readAsText bs) ->
      exists q, bytesToUnits q = p /\ infix q bs
}.

(* ================================================================== *)
(** ** Files *)

(** A [File] (a [Blob] with a name): declared name and MIME type, byte
    length [size], and the byte at each offset below the length.  What
    [byteAt] gives at or beyond [size] is never read. *)
Record File := {
  name : jsstring;
  type : jsstring;
  size : N;
  byteAt : N -> byte
}.

(** [Blob.prototype.slice(start, end)] read as bytes, for
    [0 <= start <= end]: the bytes at offsets [start .. min(end, size) - 1]. *)
Definition slice (file : File) (start end_ : N) : list byte :=
  List.map (fun i => byteAt file (N.of_nat i))
    (List.seq (N.to_nat start) (N.to_nat (N.min end_ (size file)) - N.to_nat start)).

(** The whole content of a file. *)
Definition bytesOf (file : File) : list byte := slice file 0 (size file).

(** The file with the given name, type and content. *)
Definition mkFile (nm ty : string) (content : list byte) : File :=
  {| name := lit nm;
     type := lit ty;
     size := N.of_nat (length content);
     byteAt := fun i => nth (N.to_nat i) content x00 |}.

(* ================================================================== *)
(** ** Regular expressions

    The three patterns of [scanPDF] are regular in the strict sense
    (literals, [\s], [*], concatenation), so [RegExp.prototype.test] is
    membership of some substring in the language of the pattern; it is
    computed here with Brzozowski derivatives. *)

Module RegExp.

Inductive regex : Type :=
| Void : regex
| Eps : regex
| Chr : (codeunit -> bool) -> regex
| Seq : regex -> regex -> regex
| Alt : regex -> regex -> regex
| Star : regex -> regex.

Fixpoint nullable (r : regex) : bool :=
  match r with
  | Void => false
  | Eps => true
  | Chr _ => false
  | Seq r1 r2 => nullable r1 && nullable r2
  | Alt r1 r2 => nullable r1 || nullable r2
  | Star _ => true
  end.

Fixpoint deriv (c : codeunit) (r : regex) : regex :=
  match r with
  | Void => Void
  | Eps => Void
  | Chr p => if p c then Eps else Void
  | Seq r1 r2 =>
      if nullable r1 then Alt (Seq (deriv c r1) r2) (deriv c r2)
      else Seq (deriv c r1) r2
  | Alt r1 r2 => Alt (deriv c r1) (deriv c r2)
  | Star r1 => Seq (deriv c r1) (Star r1)
  end.

(** Some prefix of [s] matches [r]. *)
Fixpoint matchesPrefix (r : regex) (s : jsstring) : bool :=
  nullable r ||
  match s with
  | [] => false
  | c :: s' => matchesPrefix (deriv c r) s'
  end.

(** [RegExp.prototype.test] of a pattern without the [g] and [y] flags:
    the pattern matches at some position of [s]. *)
Fixpoint test (r : regex) (s : jsstring) : bool :=
  matchesPrefix r s ||
  match s with
  | [] => false
  | _ :: s' => test r s'
  end.

(** The language of a pattern. *)
Inductive lang : regex -> jsstring -> Prop :=
| L_Eps : lang Eps []
| L_Chr : forall (p : codeunit -> bool) c, p c = true -> lang (Chr p) [c]
| L_Seq : forall r1 r2 s1 s2, lang r1 s1 -> lang r2 s2 -> lang (Seq r1 r2) (s1 ++ s2)
| L_AltL : forall r1 r2 s, lang r1 s -> lang (Alt r1 r2) s
| L_AltR : forall r1 r2 s, lang r2 s -> lang (Alt r1 r2) s
| L_StarNil : forall r, lang (Star r) []
| L_StarApp : forall r s1 s2, lang r s1 -> lang (Star r) s2 -> lang (Star r) (s1 ++ s2).

(** [Canonicalize] of the [i] flag without the [u] flag, for comparison
    with an ASCII pattern character: a code unit is mapped to its upper
    case, except that a non-ASCII code unit is never mapped to an ASCII
    one.  The code units that canonicalize to an ASCII character are
    therefore that character and its ASCII other-case form. *)
Definition canonicalize (c : codeunit) : codeunit := asciiUpper c.

(** A pattern character under the [i] flag. *)
Definition chr_i (c : codeunit) : regex :=
  Chr (fun u => (canonicalize u =? canonicalize c)%N).

(** A literal under the [i] flag. *)
Fixpoint lit_i (s : jsstring) : regex :=
  match s with
  | [] => Eps
  | c :: s' => Seq (chr_i c) (lit_i s')
  end.

(** The class [\s]: WhiteSpace and LineTerminator code points. *)
Definition isWhiteSpace (c : codeunit) : bool :=
  ((9 <=? c) && (c <=? 13) || (c =? 32) || (c =? 160) || (c =? 5760)
   || (8192 <=? c) && (c <=? 8202) || (c =? 8232) || (c =? 8233)
   || (c =? 8239) || (c =? 8287) || (c =? 12288) || (c =? 65279))%N.

Definition whitespace : regex := Chr isWhiteSpace.

(** Two strings that differ at most in the case of ASCII letters. *)
Definition sameIgnoringCase (a b : jsstring) : Prop :=
  Forall2 (fun u v => canonicalize u = canonicalize v) a b.

End RegExp.

(* ================================================================== *)
(** ** security-headers.js: [XSSProtection] *)

Module XSSProtection.
Section Methods.
Context {H : Host}.

Definition dangerousExtensions : list jsstring :=
  List.map lit
    [".exe"; ".bat"; ".cmd"; ".sh"; ".php"; ".js"; ".html";
     ".htm"; ".vbs"; ".ps1"; ".jar"; ".py"]%string.

Definition validateFile (file : File) : bool :=
  let fileName := toLowerCase (name file) in
  negb (existsb (fun ext => endsWith fileName ext) dangerousExtensions).

End Methods.
End XSSProtection.

(* ================================================================== *)
(** ** file-validator.js: [FileValidator] *)

Module Config.
Record AllowedTypes := {
  pdf : list jsstring;
  images : list jsstring;
  office : list jsstring
}.

Record t := {
  maxSize : N;
  allowedTypes : AllowedTypes;
  scanForMalware : bool;
  validateMagicNumbers : bool
}.

(** [Object.values(allowedTypes)] *)
Definition values (a : AllowedTypes) : list (list jsstring) :=
  [pdf a; images a; office a].
End Config.

Record ValidationResult := {
  isValid : bool;
  errors : list jsstring;
  file : File
}.

Module FileValidator.

Record t := { config : Config.t }.

Definition constructor : t :=
  {| config :=
       {| Config.maxSize := 100 * 1024 * 1024;
          Config.allowedTypes :=
            {| Config.pdf := List.map lit ["application/pdf"]%string;
               Config.images :=
                 List.map lit
                   ["image/jpeg"; "image/jpg"; "image/png"; "image/svg+xml";
                    "image/tiff"]%string;
               Config.office :=
                 List.map lit
                   ["application/msword";
                    "application/vnd.openxmlformats-officedocument.wordprocessingml.document";
                    "application/vnd.ms-excel";
                    "application/vnd.openxmlformats-officedocument.spreadsheetml.sheet";
                    "application/vnd.ms-powerpoint";
                    "application/vnd.openxmlformats-officedocument.presentationml.presentation"
                   ]%string |};
          Config.scanForMalware := true;
          Config.validateMagicNumbers := true |} |}.

(** [errors.push(x)] *)
Definition push (errors : list jsstring) (x : jsstring) : list jsstring :=
  errors ++ [x].

Section Methods.
Context {H : Host}.
Variable this : t.

(** [formatBytes].  [Math.floor(Math.log(bytes) / Math.log(1024))] is
    taken as the exact integer logarithm [floor (log2 bytes / 10)];
    [Math.round] rounds half up; [sizes[i]] beyond the table
    is [undefined]. *)
Definition formatBytes (bytes : N) : jsstring :=
  let sizes := List.map lit ["Bytes"; "KB"; "MB"; "GB"]%string in
  if (bytes =? 0)%N then lit "0 Byte"
  else
    let i := (N.log2 bytes / 10)%N in
    let unit := (1024 ^ i)%N in
    toStringN ((2 * bytes + unit) / (2 * unit))%N ++ lit " " ++
    nth (N.to_nat i) sizes (lit "undefined").

(** The table [allowedExtensions] of [isAllowedExtension]. *)
Definition allowedExtensions : list jsstring :=
  List.map lit
    ["pdf"; "jpg"; "jpeg"; "png"; "svg"; "tiff";
     "doc"; "docx"; "xls"; "xlsx"; "ppt"; "pptx"]%string.

Definition isAllowedExtension (filename : jsstring) : bool :=
  let ext := pop (split dot (toLowerCase filename)) in
  match ext with
  | Some ext => arr_includes allowedExtensions ext
  | None => false
  end.

Definition isAllowedMimeType (mimeType : jsstring) : bool :=
  let allAllowedTypes :=
    List.concat (Config.values (Config.allowedTypes (config this))) in
  arr_includes allAllowedTypes mimeType.

(** The keys of the [magicNumbers] table. *)
Definition magicNumbers : list jsstring :=
  List.map lit
    ["25504446"; "FFD8FF"; "89504E47"; "3C737667"; "D0CF11E0"; "504B0304"]%string.

Definition validateMagicNumbers (file : File) : bool :=
  let arr := firstn 4 (slice file 0 8) in
  let header :=
    toUpperCase
      (join (List.map (fun b => padStart (toString16 b) 2 48%N) arr)) in
  existsb (fun magic => startsWith header magic) magicNumbers.

(** The regular expression literal [/kw\s*\//i], for the three [kw] of
    [scanPDF]. *)
Definition marker (kw : jsstring) : RegExp.regex :=
  RegExp.Seq (RegExp.lit_i kw)
    (RegExp.Seq (RegExp.Star RegExp.whitespace) (RegExp.lit_i (lit "/"))).

Definition scanPDF (file : File) : bool :=
  let content := readAsText (slice file 0 (1024 * 100)) in
  let hasPDFHeader := includes content (lit "%PDF") in
  let hasPDFFooter := includes content (lit "%%EOF") in
  let hasJS :=
    RegExp.test (marker (lit "/JavaScript")) content ||
    RegExp.test (marker (lit "/JS")) content ||
    RegExp.test (marker (lit "/AA")) content in
  hasPDFHeader && hasPDFFooter && negb hasJS.

Definition scanForMalware (file : File) : bool :=
  if str_eqb (type file) (lit "application/pdf") then scanPDF file
  else true.

Definition validateFile (file : File) : ValidationResult :=
  let errors : list jsstring := [] in
  (* 1. Size validation *)
  let errors :=
    if (Config.maxSize (config this) <? size file)%N
    then push errors
           (lit "File too large (max " ++
            formatBytes (Config.maxSize (config this)) ++ lit ")")
    else errors in
  (* 2. Extension validation *)
  let errors :=
    if negb (isAllowedExtension (name file))
    then push errors (lit "File type not allowed") else errors in
  (* 3. MIME type validation *)
  let errors :=
    if negb (isAllowedMimeType (type file))
    then push errors (lit "File MIME type not allowed") else errors in
  (* 4. Magic number validation *)
  let errors :=
    if Config.validateMagicNumbers (config this)
    then
      let isValidMagic := validateMagicNumbers file in
      if negb isValidMagic then push errors (lit "File signature mismatch")
      else errors
    else errors in
  (* 5. XSS validation *)
  let errors :=
    if negb (XSSProtection.validateFile file)
    then push errors (lit "File contains potentially dangerous content")
    else errors in
  (* 6. Malware scanning (basic) *)
  let errors :=
    if Config.scanForMalware (config this)
    then
      let isClean := scanForMalware file in
      if negb isClean then push errors (lit "File failed security scan")
      else errors
    else errors in
  {| isValid := (List.length errors =? 0)%nat;
     errors := errors;
     file := file |}.

End Methods.
End FileValidator.

(* ================================================================== *)
(** ** A host for ASCII data

    The case mappings and the decoding of the browser on ASCII strings and
    ASCII bytes; a byte outside ASCII is decoded to U+FFFD.  It is the
    host the examples are evaluated on. *)

#[global] Instance asciiHost : Host := {|
  toLowerCase := List.map asciiLower;
  toUpperCase := List.map asciiUpper;
  readAsText := List.map (fun b =>
    let n := Byte.to_N b in if (n <? 128)%N then n else 65533%N)
|}.

(* ================================================================== *)
(** ** Numbers

    The arithmetic of [convertImagesToPdf] is written over the operations
    it uses, and read in binary64, which is what the engine computes. *)

Class Number (T : Type) := {
  num : Q -> T;          (* a numeric literal or an integral value *)
  mul : T -> T -> T;     (* [a * b] *)
  div : T -> T -> T;     (* [a / b] *)
  min : T -> T -> T      (* [Math.min(a, b)] *)
}.

Module Binary64.

Definition ofZ (z : Z) : float :=
  match z with
  | Zneg p => PrimFloat.opp (PrimFloat.of_uint63 (Uint63.of_Z (Zpos p)))
  | _ => PrimFloat.of_uint63 (Uint63.of_Z z)
  end.

(** The value of a decimal literal: the binary64 number nearest to it.
    Numerator and denominator of the literals of the source are exact in
    binary64 and the division rounds to nearest. *)
Definition literal (q : Q) : float :=
  PrimFloat.div (ofZ (Qnum q)) (ofZ (Zpos (Qden q))).

(** [Math.min] of two numbers: NaN if either is NaN, and [-0] below [+0]. *)
Definition Math_min (a b : float) : float :=
  if PrimFloat.is_nan a || PrimFloat.is_nan b then PrimFloat.nan
  else if PrimFloat.ltb a b then a
  else if PrimFloat.ltb b a then b
  else if PrimFloat.is_zero a && PrimFloat.get_sign b then b
  else a.

#[global] Instance binary64 : Number float := {|
  num := literal;
  mul := PrimFloat.mul;
  div := PrimFloat.div;
  min := Math_min
|}.

End Binary64.

(* ================================================================== *)
(** ** The value of a binary64 number

    The result of [convertImagesToPdf] is related to the real numbers
    through the specification of binary64 arithmetic ([SpecFloat], which
    the primitive operations are specified against): a finite number
    [S754_finite s m e] stands for [m * 2 ^ e], and an operation returns
    the representable number nearest to the exact result, ties to even. *)

Module Rounding.
Import Reals.
Local Open Scope R_scope.

Definition SF2R (f : spec_float) : R :=
  match f with
  | S754_finite s m e => IZR (if s then Zneg m else Zpos m) * powerRZ 2 e
  | _ => 0
  end.

Definition SFexp (f : spec_float) : Z :=
  match f with S754_finite _ _ e => e | _ => 0%Z end.

(** A positive normal number: 53 significant bits, exponent in range. *)
Definition pnormal (f : spec_float) : Prop :=
  exists m e, f = S754_finite false m e /\
    (2 ^ 52 <= Zpos m < 2 ^ 53)%Z /\ (-1074 <= e <= 971)%Z.

Definition valueOf (x : float) : R := SF2R (Prim2SF x).

Definition normal (x : float) : Prop := pnormal (Prim2SF x).

(** [locates y m l]: the integer [m] and the location [l] describe the
    real [y], as [SpecFloat] uses them: [y] is [m], or lies strictly
    between [m] and [m + 1], below, at or above the midpoint. *)
Definition locates (y : R) (m : Z) (l : location) : Prop :=
  match l with
  | loc_Exact => y = IZR m
  | loc_Inexact c =>
      IZR m < y < IZR m + 1 /\
      match c with
      | Lt => y < IZR m + / 2
      | Eq => y = IZR m + / 2
      | Gt => IZR m + / 2 < y
      end
  end.

(** [rounds_to v f]: [f] is a positive normal number, a multiple
    [n * 2 ^ e] of the unit in the last place of [v], at most half that
    unit away from [v]. *)
Definition rounds_to (v : R) (f : spec_float) : Prop :=
  pnormal f /\
  exists n e : Z,
    SF2R f = IZR n * powerRZ 2 e /\
    IZR (2 ^ 52) * powerRZ 2 e <= v < IZR (2 ^ 53) * powerRZ 2 e /\
    IZR n * powerRZ 2 e - v <= powerRZ 2 e / 2 /\
    v - IZR n * powerRZ 2 e <= powerRZ 2 e / 2.

End Rounding.

(* ================================================================== *)
(** ** The jsPDF document

    The library is used through three calls: the constructor, [addPage]
    and [addImage].  A document is the sequence of calls made on it since
    it was constructed; [output] is what the library renders from them: a
    new document has one blank page, [addPage] appends a blank page and
    makes it the current one, [addImage] draws on the current page. *)

Module jsPDF.
Section Doc.
Variable T : Type.

Record Placement := {
  imageData : jsstring;
  format : jsstring;
  x : T;
  y : T;
  w : T;
  h : T
}.

Inductive call : Type :=
| AddPage : call
| AddImage : Placement -> call.

Definition t := list call.

Definition new : t := [].
Definition addPage (pdf : t) : t := pdf ++ [AddPage].
Definition addImage (pdf : t) (p : Placement) : t := pdf ++ [AddImage p].

Definition Page := list Placement.

(** Draw [p] on page number [cur] of [pages]. *)
Fixpoint drawOn (pages : list Page) (cur : nat) (p : Placement) : list Page :=
  match pages, cur with
  | [], _ => []
  | pg :: rest, O => (pg ++ [p]) :: rest
  | pg :: rest, S cur' => pg :: drawOn rest cur' p
  end.

Fixpoint render (calls : list call) (pages : list Page) (cur : nat) : list Page :=
  match calls with
  | [] => pages
  | AddPage :: calls' => render calls' (pages ++ [[]]) (List.length pages)
  | AddImage p :: calls' => render calls' (drawOn pages cur p) cur
  end.

(** The pages of the document that [output('blob')] serializes. *)
Definition output (pdf : t) : list Page := render pdf [[]] 0%nat.

Definition isAddPage (c : call) : bool :=
  match c with AddPage => true | AddImage _ => false end.

(** How many times [addPage] was called. *)
Definition addPageCalls (pdf : t) : nat :=
  List.length (List.filter isAddPage pdf).

End Doc.
End jsPDF.

(* ================================================================== *)
(** ** tools.js: [convertImagesToPdf] *)

(** What [loadImage] resolves to: the decoded image and its pixel size. *)
Record HTMLImageElement := {
  width : N;
  height : N
}.

Module Tools.
Section Convert.
Context {T : Type} {Num : Number T}.

(** [readFileAsDataURL] and [loadImage] resolve with what the browser's
    [FileReader] and [Image] produce, or reject ([None]). *)
Variable readFileAsDataURL : File -> option jsstring.
Variable loadImage : jsstring -> option HTMLImageElement.

Definition A4_WIDTH : T := mul (num 210) (num 2.83465).
Definition A4_HEIGHT : T := mul (num 297) (num 2.83465).

(** The pixel count of an image attribute as a number (exact in binary64
    below 2^53; the platform's counts are 32-bit). *)
Definition pixels (n : N) : T := num (inject_Z (Z.of_N n)).

(** Lines 16-22: the size at which an image of [imgWidth] x [imgHeight]
    pixels is placed. *)
Definition fitToA4 (imgWidth imgHeight : T) : T * T :=
  let width := imgWidth in
  let height := imgHeight in
  let scale := min (div A4_WIDTH width) (div A4_HEIGHT height) in
  let width := mul width scale in
  let height := mul height scale in
  (width, height).

(** One turn of the loop, for the image at index [i]. *)
Definition step (i : nat) (image : File) (pdf : jsPDF.t T) : option (jsPDF.t T) :=
  match readFileAsDataURL image with
  | None => None
  | Some dataUrl =>
      match loadImage dataUrl with
      | None => None
      | Some img =>
          let '(width, height) :=
            fitToA4 (pixels (width img)) (pixels (height img)) in
          let pdf := if (0 <? i)%nat then jsPDF.addPage pdf else pdf in
          Some (jsPDF.addImage pdf
                  {| jsPDF.imageData := dataUrl;
                     jsPDF.format := lit "JPEG";
                     jsPDF.x := num 0;
                     jsPDF.y := num 0;
                     jsPDF.w := width;
                     jsPDF.h := height |})
      end
  end.

(** The loop from index [i] over the remaining [images]. *)
Fixpoint loop (i : nat) (images : list File) (pdf : jsPDF.t T) : option (jsPDF.t T) :=
  match images with
  | [] => Some pdf
  | image :: rest =>
      match step i image pdf with
      | None => None
      | Some pdf' => loop (S i) rest pdf'
      end
  end.

Definition convertImagesToPdf (images : list File) : option (jsPDF.t T) :=
  loop 0 images (jsPDF.new T).

End Convert.
End Tools.

(* ================================================================== *)
(** ** main.js: the click handler of the process button

    The handler is described by how it ends: with an [alert], with the
    download section shown for the converted document (under the name
    [converted.pdf]), or with its promise rejected.  The page is taken to
    have the elements the handler looks up.  [URL.createObjectURL] throws
    when it is given [undefined], which is what [resultBlob] is for a tool
    the [switch] has no case for. *)

Module Main.
Section Handler.
Context {T : Type} {Num : Number T}.
Variable readFileAsDataURL : File -> option jsstring.
Variable loadImage : jsstring -> option HTMLImageElement.

Inductive outcome : Type :=
| Alert : jsstring -> outcome
| Download : jsPDF.t T -> jsstring -> outcome
| Rejected : outcome.

(** [!selectedTool]: [null], [undefined] and the empty string are falsy. *)
Definition falsy (selectedTool : option jsstring) : bool :=
  match selectedTool with
  | None => true
  | Some [] => true
  | Some (_ :: _) => false
  end.

Definition onProcessClick (selectedTool : option jsstring)
           (selectedFiles : list File) : outcome :=
  if falsy selectedTool then Alert (lit "Please select a tool")
  else if (List.length selectedFiles =? 0)%nat then Alert (lit "Please select files")
  else
    let resultBlob :=
      match selectedTool with
      | Some tool =>
          if str_eqb tool (lit "image-to-pdf")
          then match Tools.convertImagesToPdf readFileAsDataURL loadImage selectedFiles with
               | Some pdf => Some (Some pdf)
               | None => None                 (* the [await] throws *)
               end
          else Some None                      (* [resultBlob] stays undefined *)
      | None => Some None
      end in
    match resultBlob with
    | None => Rejected
    | Some None => Rejected                   (* [createObjectURL(undefined)] *)
    | Some (Some pdf) => Download pdf (lit "converted.pdf")
    end.

End Handler.
End Main.

(* ================================================================== *)
(** ** [MemoryMonitor] *)

Module MemoryMonitor.

Record t := {
  memoryLimit : float;
  criticalThreshold : float
}.

Definition constructor : t :=
  {| memoryLimit := PrimFloat.mul (PrimFloat.mul 500 1024) 1024;
     criticalThreshold := Binary64.literal 0.9 |}.

(** [performance.memory], where the browser has it. *)
Record MemoryInfo := { usedJSHeapSize : float }.

Definition isMemoryCritical (this : t) (performance_memory : option MemoryInfo) : bool :=
  match performance_memory with
  | Some memory =>
      PrimFloat.ltb (PrimFloat.mul (memoryLimit this) (criticalThreshold this))
                    (usedJSHeapSize memory)
  | None => false
  end.

End MemoryMonitor.

(* ================================================================== *)
(** ** [MemoryMonitor]: the monitoring interval

    The window's timers are the list of the handles of the intervals that
    are running.  [setInterval] returns a handle that is not in use (a
    positive integer, which is truthy); which one is the browser's
    choice. *)

Module Monitoring.
Section Timers.

(** The handle the browser gives to a new timer. *)
Variable fresh : list positive -> positive.

Definition setInterval (running : list positive) : positive * list positive :=
  (fresh running, fresh running :: running).

Definition clearInterval (running : list positive) (handle : positive) : list positive :=
  List.remove Pos.eq_dec handle running.

(** The [interval] field of a monitor: [null] or a handle. *)
Definition interval := option positive.

Definition constructor : interval := None.

(** [startMonitoring]: the new field and the timers afterwards. *)
Definition startMonitoring (this : interval) (running : list positive)
  : interval * list positive :=
  let '(handle, running') := setInterval running in
  (Some handle, running').

Definition stopMonitoring (this : interval) (running : list positive)
  : interval * list positive :=
  match this with
  | Some handle => (None, clearInterval running handle)
  | None => (this, running)
  end.

(** [n] calls of [startMonitoring] in a row. *)
Fixpoint startTimes (n : nat) (this : interval) (running : list positive)
  : interval * list positive :=
  match n with
  | O => (this, running)
  | S n' =>
      let '(this', running') := startMonitoring this running in
      startTimes n' this' running'
  end.

End Timers.

(** A browser that numbers its timers upwards. *)
Definition nextHandle (running : list positive) : positive :=
  Pos.succ (List.fold_right Pos.max 1%positive running).

End Monitoring.

(* ================================================================== *)
(** ** [EnhancedDropZone]

    A handler is described by the calls it makes, in order: on the event,
    on the class list of the drop zone, on the processor and on the
    methods of the drop zone that notify the user.  [processFile] is the
    processor's; it resolves with a result or rejects with an error. *)

Module EnhancedDropZone.
Section Handlers.
Variables Result Error : Type.
Variable processFile : File -> Result + Error.
Variable message : Error -> jsstring.          (* [error.message] *)

Inductive call : Type :=
| PreventDefault : call
| StopPropagation : call
| ClassListAdd : jsstring -> call
| ClassListRemove : jsstring -> call
| ShowMemoryWarning : jsstring -> call
| ProcessFile : File -> call
| RemoveProcessingModal : call               (* [if (modal) modal.remove()] *)
| ShowSuccess : jsstring -> call
| DownloadResult : Result -> File -> call
| ConsoleError : Error -> call
| ShowError : jsstring -> call.

Definition handleSuccess (result : Result) (file : File) : list call :=
  [RemoveProcessingModal;
   ShowSuccess (lit "Successfully processed " ++ name file);
   DownloadResult result file].

Definition handleError (error : Error) (file : File) : list call :=
  [ConsoleError error;
   RemoveProcessingModal;
   ShowError (lit "Failed to process " ++ name file ++ lit ": " ++ message error)].

Definition processFiles (files : list File) : list call :=
  match files with
  | [] => []
  | file :: _ =>
      ProcessFile file ::
      match processFile file with
      | inl result => handleSuccess result file
      | inr error => handleError error file
      end
  end.

(** The default argument of [showMemoryWarning]. *)
Definition defaultWarning : jsstring :=
  lit "Low memory detected. Processing large files may fail.".

Definition handleDragOver (memoryMonitor : MemoryMonitor.t)
           (performance_memory : option MemoryMonitor.MemoryInfo) : list call :=
  [PreventDefault; StopPropagation] ++
  if MemoryMonitor.isMemoryCritical memoryMonitor performance_memory
  then [ShowMemoryWarning defaultWarning]
  else [ClassListAdd (lit "active")].

Definition handleDragLeave : list call :=
  [PreventDefault; StopPropagation; ClassListRemove (lit "active")].

Definition handleDrop (memoryMonitor : MemoryMonitor.t)
           (performance_memory : option MemoryMonitor.MemoryInfo)
           (files : list File) : list call :=
  [PreventDefault; StopPropagation; ClassListRemove (lit "active")] ++
  if MemoryMonitor.isMemoryCritical memoryMonitor performance_memory
  then [ShowMemoryWarning (lit "Cannot process files - browser memory is too low")]
  else processFiles files.

Definition handleFileSelect (files : list File) : list call :=
  processFiles files.

Definition isProcessFile (c : call) : bool :=
  match c with ProcessFile _ => true | _ => false end.

Definition isDownload (c : call) : bool :=
  match c with DownloadResult _ _ => true | _ => false end.

End Handlers.
End EnhancedDropZone.

(* ================================================================== *)
(** ** Regular expressions with assertions

    The first pattern of [XSSProtection.scanContent] has a negative
    lookahead and a word boundary, which the derivatives above do not
    cover.  Its patterns are therefore run by a backtracking matcher that
    returns every position at which a match that starts at a given
    position can end; [test] asks whether, from some start, there is one.
    A position is the rest of the input together with the code unit just
    before it, which is all that [\b] looks at behind itself. *)

Module Backtrack.

Inductive pattern : Type :=
| Empty : pattern
| Char : (codeunit -> bool) -> pattern
| Cat : pattern -> pattern -> pattern
| Many : pattern -> pattern
| NotAhead : pattern -> pattern
| WordBoundary : pattern.

Definition position : Type := option codeunit * jsstring.

Definition before (p : position) : option codeunit := fst p.
Definition rest (p : position) : jsstring := snd p.

(** [\w] (and the word characters of [\b]): [A-Za-z0-9_]. *)
Definition isWordChar (c : codeunit) : bool :=
  ((97 <=? c) && (c <=? 122) || (65 <=? c) && (c <=? 90) ||
   (48 <=? c) && (c <=? 57) || (c =? 95))%N.

Definition wordBefore (p : position) : bool :=
  match before p with Some c => isWordChar c | None => false end.

Definition wordAfter (p : position) : bool :=
  match rest p with c :: _ => isWordChar c | [] => false end.

Definition shorter (q p : position) : bool :=
  (List.length (rest q) <? List.length (rest p))%nat.

(** The repetition of a pattern whose matches from a position end at
    [endsA]: as many iterations as possible first, none last; an iteration
    that consumes nothing is given up.  [fuel] bounds the number of
    iterations, and the length of the rest of the input is enough. *)
Fixpoint manyFrom (endsA : position -> list position) (fuel : nat) (p : position)
  : list position :=
  match fuel with
  | O => [p]
  | S fuel' =>
      List.flat_map
        (fun q => if shorter q p then manyFrom endsA fuel' q else [])
        (endsA p) ++ [p]
  end.

(** The ends of the matches of [r] that start at [p], in the order in
    which backtracking tries them. *)
Fixpoint ends (r : pattern) (p : position) : list position :=
  match r with
  | Empty => [p]
  | Char set =>
      match rest p with
      | c :: s => if set c then [(Some c, s)] else []
      | [] => []
      end
  | Cat a b => List.flat_map (ends b) (ends a p)
  | Many a => manyFrom (ends a) (List.length (rest p)) p
  | NotAhead a =>
      match ends a p with
      | [] => [p]
      | _ :: _ => []
      end
  | WordBoundary => if xorb (wordBefore p) (wordAfter p) then [p] else []
  end.

Definition matchesAt (r : pattern) (p : position) : bool :=
  match ends r p with
  | [] => false
  | _ :: _ => true
  end.

(** A match that starts at the position [(prev, s)] or later. *)
Fixpoint testFrom (r : pattern) (prev : option codeunit) (s : jsstring) : bool :=
  matchesAt r (prev, s) ||
  match s with
  | [] => false
  | c :: s' => testFrom r (Some c) s'
  end.

(** [RegExp.prototype.test] on a pattern whose [lastIndex] is 0. *)
Definition test (r : pattern) (s : jsstring) : bool := testFrom r None s.

(** A pattern character and a literal under the [i] flag. *)
Definition chr_i (c : codeunit) : pattern :=
  Char (fun u => (RegExp.canonicalize u =? RegExp.canonicalize c)%N).

Fixpoint lit_i (s : jsstring) : pattern :=
  match s with
  | [] => Empty
  | c :: s' => Cat (chr_i c) (lit_i s')
  end.

(** [r+] *)
Definition Some1 (r : pattern) : pattern := Cat r (Many r).

(** The code unit before the position reached from one whose
    predecessor is [prev] by consuming [cs]. *)
Definition lastOr (prev : option codeunit) (cs : jsstring) : option codeunit :=
  List.fold_left (fun _ c => Some c) cs prev.

(** [q] is reached from [p] by iterations of [a] that each consume
    something. *)
Inductive reach (a : pattern) : position -> position -> Prop :=
| reach_refl : forall p, reach a p p
| reach_step : forall p m q,
    In m (ends a p) -> shorter m p = true -> reach a m q -> reach a p q.

End Backtrack.

(* ================================================================== *)
(** ** security-headers.js: [XSSProtection.scanContent]

    The seven patterns are literals of the function body, so every call
    starts with fresh patterns whose [lastIndex] is 0. *)

Module ScanContent.
Import Backtrack.

Definition lessThan : codeunit := 60%N.

Definition notLessThan : pattern := Char (fun c => negb (c =? lessThan)%N).

(** The first pattern, flags [gi]: [<script], a word boundary, any run
    without [<], then any number of groups made of a [<] that does not
    begin [</script>] followed by a run without [<], then [</script>]. *)
Definition scriptElement : pattern :=
  Cat (lit_i (lit "<script"))
   (Cat WordBoundary
    (Cat (Many notLessThan)
     (Cat (Many (Cat (NotAhead (lit_i (lit "</script>")))
                     (Cat (chr_i lessThan) (Many notLessThan))))
          (lit_i (lit "</script>"))))).

(** The third pattern, flags [gi]: [on], one or more word characters,
    optional white space, [=]. *)
Definition handlerAttribute : pattern :=
  Cat (lit_i (lit "on"))
   (Cat (Some1 (Char isWordChar))
    (Cat (Many (Char RegExp.isWhiteSpace)) (lit_i (lit "=")))).

Definition xssPatterns : list pattern :=
  [ scriptElement;
    lit_i (lit "javascript:");
    handlerAttribute;
    lit_i (lit "eval(");
    lit_i (lit "document.");
    lit_i (lit "window.");
    lit_i (lit "alert(") ].

Definition scanContent (content type : jsstring) : bool :=
  if str_eqb type (lit "text")
  then negb (existsb (fun pattern => test pattern content) xssPatterns)
  else true.

End ScanContent.

(* ================================================================== *)
(** ** Vocabulary of the specification: [scanContent] *)

Module ScanContentSpec.
Import Backtrack ScanContent.

(** The patterns of [xssPatterns] that are plain literals. *)
Definition literalTriggers : list jsstring :=
  List.map lit ["javascript:"; "eval("; "document."; "window."; "alert("]%string.

(** The closing tag of the first pattern and the group it repeats. *)
Definition closing : pattern := lit_i (lit "</script>").

Definition group : pattern :=
  Cat (NotAhead closing) (Cat (chr_i lessThan) (Many notLessThan)).

(** [u] contains a closing tag, in some letter case. *)
Definition hasClose (u : jsstring) : Prop :=
  exists x cl post,
    u = x ++ cl ++ post /\ RegExp.sameIgnoringCase cl (lit "</script>").

(** What is left of the first pattern after its run without [<]: the
    groups and the closing tag can be matched from [p]. *)
Definition tailMatches (p : position) : Prop :=
  exists m q, reach group p m /\ In q (ends closing m).

(** [l] occurs in [content], in some letter case. *)
Definition containsIgnoringCase (content l : jsstring) : Prop :=
  exists pre m post,
    content = pre ++ m ++ post /\ RegExp.sameIgnoringCase m l.

(** The literal with which each of the seven patterns begins. *)
Definition markers : list jsstring :=
  List.map lit
    ["<script"; "javascript:"; "on"; "eval("; "document."; "window.";
     "alert("]%string.

End ScanContentSpec.

(* ================================================================== *)
(** ** Vocabulary of the specification: the validator *)

Module ValidatorSpec.
Import FileValidator.

(** The six reasons, in the order of the checks. *)
Definition sizeReason : jsstring := lit "File too large (max 100 MB)".
Definition extensionReason : jsstring := lit "File type not allowed".
Definition mimeReason : jsstring := lit "File MIME type not allowed".
Definition signatureReason : jsstring := lit "File signature mismatch".
Definition xssReason : jsstring := lit "File contains potentially dangerous content".
Definition scanReason : jsstring := lit "File failed security scan".

(** The validator as the application constructs it. *)
Definition validator : FileValidator.t := FileValidator.constructor.

Section Checks.
Context {H : Host}.

(** The outcome of each check on a file, with the reason it gives when it
    fails: the specification's reading of [validateFile]. *)
Definition checks (file : File) : list (bool * jsstring) :=
  [ (negb (100 * 1024 * 1024 <? size file)%N, sizeReason);
    (isAllowedExtension (name file), extensionReason);
    (isAllowedMimeType validator (type file), mimeReason);
    (validateMagicNumbers file, signatureReason);
    (XSSProtection.validateFile file, xssReason);
    (scanForMalware file, scanReason) ].

Definition failed (c : bool * jsstring) : bool := negb (fst c).

End Checks.

(** The file [f] with another declared MIME type. *)
Definition withType (f : File) (mimeType : jsstring) : File :=
  {| name := name f; type := mimeType; size := size f; byteAt := byteAt f |}.

(** An ASCII string without upper-case letters and without ['.']. *)
Definition lowerAsciiDotless (e : jsstring) : bool :=
  forallb (fun c => (c <? 128)%N) e &&
  str_eqb (List.map asciiLower e) e &&
  negb (existsb (fun c => (c =? dot)%N) e).

End ValidatorSpec.

(* ================================================================== *)
(** ** Vocabulary of the specification: the converter *)

Module ConverterSpec.
Import Tools.

Section Pages.
Context {T : Type} {Num : Number T}.
Variable readFileAsDataURL : File -> option jsstring.
Variable loadImage : jsstring -> option HTMLImageElement.

(** What is drawn for an image: its data URL, as JPEG, at the origin, at
    the fitted size. *)
Definition placementOf (image : File) : option (jsPDF.Placement T) :=
  match readFileAsDataURL image with
  | None => None
  | Some dataUrl =>
      match loadImage dataUrl with
      | None => None
      | Some img =>
          Some {| jsPDF.imageData := dataUrl;
                  jsPDF.format := lit "JPEG";
                  jsPDF.x := num 0;
                  jsPDF.y := num 0;
                  jsPDF.w := fst (fitToA4 (pixels (width img)) (pixels (height img)));
                  jsPDF.h := snd (fitToA4 (pixels (width img)) (pixels (height img))) |}
      end
  end.

(** The image can be read and decoded. *)
Definition decodes (image : File) : Prop :=
  exists dataUrl img,
    readFileAsDataURL image = Some dataUrl /\ loadImage dataUrl = Some img.

(** The calls made for the placements [pls], the first of which has index
    [i] in the batch. *)
Fixpoint callsFrom (i : nat) (pls : list (jsPDF.Placement T)) : jsPDF.t T :=
  match pls with
  | [] => []
  | pl :: rest =>
      (if (0 <? i)%nat then [jsPDF.AddPage T] else []) ++
      jsPDF.AddImage pl :: callsFrom (S i) rest
  end.

End Pages.
End ConverterSpec.

(* ================================================================== *)
(** ** Concrete inputs *)

Module Inputs.

(** A PDF header under a PNG content type, without footer. *)
Definition spoofed : File :=
  mkFile "a.pdf" "image/png" (list_byte_of_string "%PDF-1.4").

(** A declared PDF without footer. *)
Definition truncated : File :=
  mkFile "a.pdf" "application/pdf" (list_byte_of_string "%PDF-1.4 1 0 obj").

(** A declared PDF with a [/JS] action whose value is a string. *)
Definition scripted : File :=
  mkFile "a.pdf" "application/pdf"
    (list_byte_of_string "%PDF-1.4 /JS (app.alert(1)) %%EOF").

(** A declared PDF with an action dictionary [/S /javascript /JS ...]. *)
Definition flagged : File :=
  mkFile "a.pdf" "application/pdf"
    (list_byte_of_string "%PDF-1.4 /S /javascript /JS (app.alert(1)) %%EOF").

(** One byte over 100 MiB, and exactly 100 MiB. *)
Definition oversized : File :=
  {| name := lit "scan.png"; type := lit "image/png";
     size := 104857601; byteAt := fun _ => x00 |}.

Definition atLimit : File :=
  {| name := lit "scan.png"; type := lit "image/png";
     size := 104857600; byteAt := fun _ => x00 |}.

Definition textFile : File :=
  mkFile "notes.txt" "text/plain" (list_byte_of_string "hello").

Definition installer : File :=
  mkFile "setup.pdf.EXE" "application/pdf" (list_byte_of_string "MZ").

(** A declared PDF of 200 KiB: [%PDF] at the start, [%%EOF] as its last
    five bytes, blanks in between. *)
Definition longPdf : File :=
  {| name := lit "long.pdf"; type := lit "application/pdf";
     size := 204800;
     byteAt := fun i =>
       if (i <? 4)%N then nth (N.to_nat i) [x25; x50; x44; x46] x20
       else if (204795 <=? i)%N
            then nth (N.to_nat (i - 204795)) [x25; x25; x45; x4f; x46] x20
            else x20 |}.

(** A ZIP archive named as a PNG image and declared as a Word document. *)
Definition mismatched : File :=
  mkFile "Photo.PNG" "application/msword"
    [x50; x4b; x03; x04; x14; x00; x00; x00].

(** A TIFF image, little-endian. *)
Definition tiffImage : File :=
  mkFile "scan.tiff" "image/tiff" [x49; x49; x2a; x00; x08; x00; x00; x00].

(** A PNG image, and an empty file. *)
Definition pngImage : File :=
  mkFile "logo.png" "image/png" [x89; x50; x4e; x47; x0d; x0a; x1a; x0a].

Definition emptyFile : File := mkFile "empty.pdf" "application/pdf" [].

(** A reader that names the data URL after the file, and a decoder that
    finds a 1000 x 2000 image in every data URL. *)
Definition readByName (f : File) : option jsstring :=
  Some (lit "data:" ++ name f).

Definition decode1000x2000 (dataUrl : jsstring) : option HTMLImageElement :=
  Some {| width := 1000; height := 2000 |}.

Definition three : list File :=
  [mkFile "a.jpg" "image/jpeg" []; mkFile "b.jpg" "image/jpeg" [];
   mkFile "c.jpg" "image/jpeg" []].

End Inputs.

(* ================================================================== *)
(** ** Vocabulary of the specification: signatures and acceptance *)

Module SignatureSpec.

(** The byte sequences that the keys of [magicNumbers] spell in
    hexadecimal, in the order of the table. *)
Definition signatures : list (list byte) :=
  [ [x25; x50; x44; x46];
    [xff; xd8; xff];
    [x89; x50; x4e; x47];
    [x3c; x73; x76; x67];
    [xd0; xcf; x11; xe0];
    [x50; x4b; x03; x04] ].

(** The two upper-case hexadecimal digits of a byte. *)
Definition hexU (b : byte) : jsstring :=
  List.map asciiUpper (padStart (toString16 b) 2 48%N).

(** The header string of [validateMagicNumbers] for the bytes [bs]. *)
Definition hexAll (bs : list byte) : jsstring := List.concat (List.map hexU bs).

(** The value of an upper-case hexadecimal digit. *)
Definition unhexDigit (c : codeunit) : N :=
  if (c <? 58)%N then (c - 48)%N else (c - 55)%N.

(** The declared types on which the content scan is not run. *)
Definition unscannedTypes : list jsstring :=
  Config.images (Config.allowedTypes (FileValidator.config FileValidator.constructor)) ++
  Config.office (Config.allowedTypes (FileValidator.config FileValidator.constructor)).

(** Every dangerous extension is a ['.'] followed by a stem without ['.']
    that is not in the allow-list. *)
Definition dottedUnlisted (ext : jsstring) : bool :=
  match ext with
  | c :: stem =>
      (c =? dot)%N && negb (existsb (fun u => (u =? dot)%N) stem) &&
      negb (arr_includes FileValidator.allowedExtensions stem)
  | [] => false
  end.

End SignatureSpec.

(* ================================================================== *)
(** * Properties *)

Unset Implicit Arguments.

(** A closed goal settled by running the definitions. *)
Ltac evaluate := vm_compute; reflexivity.

(** ** Strings *)

Section StringFacts.

Lemma str_eqb_eq (a b : jsstring) : str_eqb a b = true <-> a = b.
Proof.
  revert b; induction a as [|x a IH]; intros [|y b]; simpl;
    try (split; [discriminate | intros E; discriminate E]).
  - split; reflexivity.
  - rewrite andb_true_iff, N.eqb_eq, IH.
    split; [intros [-> ->]; reflexivity | intros E; inversion E; auto].
Qed.

Lemma str_eqb_refl (a : jsstring) : str_eqb a a = true.
Proof. apply str_eqb_eq; reflexivity. Qed.

Lemma str_eqb_neq (a b : jsstring) : str_eqb a b = false <-> a <> b.
Proof.
  rewrite <- str_eqb_eq. destruct (str_eqb a b); split; intros E;
    try discriminate; try reflexivity; try (intro K; discriminate K).
  exfalso; apply E; reflexivity.
Qed.

Lemma startsWith_prefix (s p : jsstring) :
  startsWith s p = true <-> exists t, s = p ++ t.
Proof.
  revert s; induction p as [|y p IH]; intros s; simpl.
  - split; [intros _; exists s; reflexivity | intros _; destruct s; reflexivity].
  - destruct s as [|x s]; simpl.
    + split; [discriminate | intros [t E]; discriminate E].
    + rewrite andb_true_iff, N.eqb_eq, IH. split.
      * intros [-> [t ->]]; exists t; reflexivity.
      * intros [t E]; inversion E; subst; split; [reflexivity | exists t; reflexivity].
Qed.

Lemma includes_nil (p : jsstring) : includes [] p = startsWith [] p.
Proof. unfold includes. apply orb_false_r. Qed.

Lemma includes_cons (x : codeunit) (s p : jsstring) :
  includes (x :: s) p = startsWith (x :: s) p || includes s p.
Proof. reflexivity. Qed.

Lemma includes_infix (s p : jsstring) :
  includes s p = true <-> infix p s.
Proof.
  induction s as [|x s IH].
  - rewrite includes_nil, startsWith_prefix. split.
    + intros [t E]; exists [], t; exact E.
    + intros [pre [post E]]. destruct pre; simpl in E.
      * exists post; exact E.
      * discriminate E.
  - rewrite includes_cons, orb_true_iff, startsWith_prefix, IH. split.
    + intros [[t E] | [pre [post E]]].
      * exists [], t; exact E.
      * exists (x :: pre), post; simpl; rewrite E; reflexivity.
    + intros [pre [post E]]. destruct pre as [|c pre]; simpl in E.
      * left; exists post; exact E.
      * right; inversion E; subst. exists pre, post; reflexivity.
Qed.

Lemma arr_includes_In (l : list jsstring) (x : jsstring) :
  arr_includes l x = true <-> In x l.
Proof.
  unfold arr_includes. rewrite existsb_exists. split.
  - intros [y [Hy E]]. apply str_eqb_eq in E; subst; exact Hy.
  - intros Hx; exists x; split; [exact Hx | apply str_eqb_refl].
Qed.

Lemma pop_snoc (A : Type) (l : list A) (a : A) : pop (l ++ [a]) = Some a.
Proof.
  induction l as [|b l IH]; simpl; [reflexivity|].
  rewrite IH. destruct (l ++ [a]) eqn:E; [|reflexivity].
  destruct l; discriminate E.
Qed.

Lemma split_no_sep (sep : codeunit) (s : jsstring) :
  ~ In sep s -> split sep s = [s].
Proof.
  induction s as [|c s IH]; simpl; intros Hn; [reflexivity|].
  destruct (N.eqb_spec c sep) as [E|E].
  - exfalso; apply Hn; left; exact E.
  - rewrite IH; [reflexivity | intros K; apply Hn; right; exact K].
Qed.

Lemma split_trailing_sep (sep : codeunit) (s : jsstring) :
  exists seg segs, split sep (s ++ [sep]) = (seg :: segs) ++ [[]].
Proof.
  induction s as [|c s [seg [segs IH]]]; simpl.
  - rewrite N.eqb_refl. exists [], []; reflexivity.
  - destruct (c =? sep)%N.
    + exists [], (seg :: segs); rewrite IH; reflexivity.
    + rewrite IH. exists (c :: seg), segs; reflexivity.
Qed.

Lemma infix_firstn (A : Type) (p l : list A) (n : nat) :
  infix p (firstn n l) -> infix p l.
Proof.
  intros [pre [post E]]. exists pre, (post ++ skipn n l).
  rewrite <- (firstn_skipn n l) at 1. rewrite E, <- !app_assoc. reflexivity.
Qed.

End StringFacts.

(** ** Regular expressions: the matcher decides the language *)

Module RegExpFacts.
Import RegExp.

Lemma lang_void_inv (s : jsstring) : lang Void s -> False.
Proof. intros K; inversion K. Qed.

Lemma lang_eps_inv (s : jsstring) : lang Eps s -> s = [].
Proof. intros K; inversion K; reflexivity. Qed.

Lemma lang_chr_inv (p : codeunit -> bool) (s : jsstring) :
  lang (Chr p) s -> exists c, s = [c] /\ p c = true.
Proof. intros K; inversion K; subst; eauto. Qed.

Lemma lang_seq_inv (r1 r2 : regex) (s : jsstring) :
  lang (Seq r1 r2) s ->
  exists s1 s2, s = s1 ++ s2 /\ lang r1 s1 /\ lang r2 s2.
Proof. intros K; inversion K; subst; eauto. Qed.

Lemma lang_alt_inv (r1 r2 : regex) (s : jsstring) :
  lang (Alt r1 r2) s -> lang r1 s \/ lang r2 s.
Proof. intros K; inversion K; subst; auto. Qed.

Lemma nullable_lang (r : regex) : nullable r = true <-> lang r [].
Proof.
  induction r as [| |p|r1 IH1 r2 IH2|r1 IH1 r2 IH2|r IH]; simpl.
  - split; [discriminate | intros K; destruct (lang_void_inv _ K)].
  - split; [intros _; constructor | reflexivity].
  - split; [discriminate|].
    intros K. apply lang_chr_inv in K. destruct K as [c [E _]]; discriminate E.
  - rewrite andb_true_iff, IH1, IH2. split.
    + intros [K1 K2]. exact (L_Seq K1 K2).
    + intros K. apply lang_seq_inv in K. destruct K as [s1 [s2 [E [K1 K2]]]].
      symmetry in E. apply app_eq_nil in E. destruct E; subst. split; assumption.
  - rewrite orb_true_iff, IH1, IH2. split.
    + intros [K|K]; [apply L_AltL | apply L_AltR]; exact K.
    + apply lang_alt_inv.
  - split; [intros _; constructor | reflexivity].
Qed.

Lemma star_cons_inv (r : regex) (c : codeunit) (s : jsstring) :
  lang (Star r) (c :: s) ->
  exists s1 s2, s = s1 ++ s2 /\ lang r (c :: s1) /\ lang (Star r) s2.
Proof.
  intros K. remember (Star r) as r' eqn:Er. remember (c :: s) as s' eqn:Es.
  revert s Es. induction K; try discriminate Er.
  - intros s Es; discriminate Es.
  - inversion Er; subst. intros s Es. destruct s1 as [|x s1]; simpl in Es.
    + apply IHK2; [reflexivity | exact Es].
    + inversion Es; subst. exists s1, s2. repeat split; assumption.
Qed.

Lemma deriv_lang (c : codeunit) (r : regex) (s : jsstring) :
  lang (deriv c r) s <-> lang r (c :: s).
Proof.
  revert s.
  induction r as [| |p|r1 IH1 r2 IH2|r1 IH1 r2 IH2|r IH]; intros s; simpl.
  - split; intros K; destruct (lang_void_inv _ K).
  - split; intros K; [destruct (lang_void_inv _ K)|].
    apply lang_eps_inv in K; discriminate K.
  - split; intros K.
    + destruct (p c) eqn:Ep; [|destruct (lang_void_inv _ K)].
      apply lang_eps_inv in K; subst. constructor; exact Ep.
    + apply lang_chr_inv in K. destruct K as [c' [E Hc]].
      inversion E; subst. rewrite Hc. constructor.
  - assert (Hseq : forall s, lang (Seq (deriv c r1) r2) s -> lang (Seq r1 r2) (c :: s)).
    { intros s0 K. apply lang_seq_inv in K. destruct K as [s1 [s2 [-> [K1 K2]]]].
      rewrite app_comm_cons. apply L_Seq; [apply IH1|]; assumption. }
    assert (Hinv : lang (Seq r1 r2) (c :: s) ->
                   lang (Seq (deriv c r1) r2) s \/
                   (lang r1 [] /\ lang (deriv c r2) s)).
    { intros K. apply lang_seq_inv in K. destruct K as [s1 [s2 [E [K1 K2]]]].
      destruct s1 as [|x s1]; simpl in E.
      - right. subst s2. split; [exact K1 | apply IH2; exact K2].
      - inversion E; subst. left. apply L_Seq; [apply IH1|]; assumption. }
    destruct (nullable r1) eqn:En; split; intros K.
    + apply lang_alt_inv in K. destruct K as [K|K]; [apply Hseq; assumption|].
      change (c :: s) with ([] ++ c :: s). apply L_Seq.
      * apply nullable_lang; exact En.
      * apply IH2; assumption.
    + destruct (Hinv K) as [K'|[_ K']]; [apply L_AltL | apply L_AltR]; exact K'.
    + apply Hseq; exact K.
    + destruct (Hinv K) as [K'|[K' _]]; [exact K'|].
      apply nullable_lang in K'. congruence.
  - split; intros K.
    + apply lang_alt_inv in K. destruct K as [K|K].
      * apply L_AltL, IH1; assumption.
      * apply L_AltR, IH2; assumption.
    + apply lang_alt_inv in K. destruct K as [K|K].
      * apply L_AltL, IH1; assumption.
      * apply L_AltR, IH2; assumption.
  - split; intros K.
    + apply lang_seq_inv in K. destruct K as [s1 [s2 [-> [K1 K2]]]].
      rewrite app_comm_cons. apply L_StarApp; [apply IH|]; assumption.
    + apply star_cons_inv in K. destruct K as [s1 [s2 [-> [K1 K2]]]].
      apply L_Seq; [apply IH|]; assumption.
Qed.

Lemma matchesPrefix_lang (r : regex) (s : jsstring) :
  matchesPrefix r s = true <-> exists m post, s = m ++ post /\ lang r m.
Proof.
  revert r; induction s as [|c s IH]; intros r; simpl.
  - rewrite orb_false_r, nullable_lang. split.
    + intros K; exists [], []; split; [reflexivity | exact K].
    + intros [m [post [E K]]]. symmetry in E. apply app_eq_nil in E.
      destruct E; subst; exact K.
  - rewrite orb_true_iff, nullable_lang, IH. split.
    + intros [K | [m [post [E K]]]].
      * exists [], (c :: s); split; [reflexivity | exact K].
      * exists (c :: m), post; split; [simpl; rewrite E; reflexivity|].
        apply deriv_lang; exact K.
    + intros [m [post [E K]]]. destruct m as [|x m]; simpl in E.
      * left; exact K.
      * inversion E; subst. right. exists m, post; split; [reflexivity|].
        apply deriv_lang; exact K.
Qed.

(** [test] holds exactly when some substring is in the language. *)
Lemma test_lang (r : regex) (s : jsstring) :
  test r s = true <-> exists pre m post, s = pre ++ m ++ post /\ lang r m.
Proof.
  induction s as [|c s IH].
  - change (test r []) with (matchesPrefix r [] || false).
    rewrite orb_false_r, matchesPrefix_lang. split.
    + intros [m [post [E K]]]; exists [], m, post; split; assumption.
    + intros [pre [m [post [E K]]]]. destruct pre; [|discriminate E].
      exists m, post; split; assumption.
  - change (test r (c :: s)) with (matchesPrefix r (c :: s) || test r s).
    rewrite orb_true_iff, matchesPrefix_lang, IH. split.
    + intros [[m [post [E K]]] | [pre [m [post [E K]]]]].
      * exists [], m, post; split; assumption.
      * exists (c :: pre), m, post; split; [simpl; rewrite E; reflexivity | exact K].
    + intros [pre [m [post [E K]]]]. destruct pre as [|x pre]; simpl in E.
      * left; exists m, post; split; assumption.
      * inversion E; subst. right; exists pre, m, post; split; [reflexivity | exact K].
Qed.

Lemma lit_i_lang (p s : jsstring) :
  lang (lit_i p) s <-> sameIgnoringCase s p.
Proof.
  revert s; induction p as [|c p IH]; intros s; simpl.
  - split; intros K.
    + apply lang_eps_inv in K; subst; constructor.
    + inversion K; constructor.
  - split; intros K.
    + apply lang_seq_inv in K. destruct K as [s1 [s2 [-> [K1 K2]]]].
      apply lang_chr_inv in K1. destruct K1 as [u [-> Hu]]. simpl.
      constructor; [apply N.eqb_eq; exact Hu | apply IH; exact K2].
    + inversion K as [|u v s' p' Huv K']; subst.
      change (u :: s') with ([u] ++ s'). apply L_Seq.
      * unfold chr_i. constructor. apply N.eqb_eq; exact Huv.
      * apply IH; exact K'.
Qed.

Lemma star_whitespace_lang (ws : jsstring) :
  Forall (fun c => isWhiteSpace c = true) ws -> lang (Star whitespace) ws.
Proof.
  induction 1 as [|c ws Hc _ IH]; [constructor|].
  change (c :: ws) with ([c] ++ ws). apply L_StarApp; [|exact IH].
  constructor; exact Hc.
Qed.

End RegExpFacts.

(* ================================================================== *)
(** ** The file validator *)

Module ValidatorFacts.
Import FileValidator ValidatorSpec.

Section Validate.
Context {H : Host}.

Lemma sizeReason_message :
  lit "File too large (max " ++
  formatBytes (Config.maxSize (config validator)) ++ lit ")" = sizeReason.
Proof. evaluate. Qed.

Lemma validateFile_errors (file : File) :
  errors (validateFile validator file) =
  List.map snd (List.filter failed (checks file)).
Proof.
  unfold validateFile, push.
  rewrite sizeReason_message.
  cbn [errors config validator constructor Config.maxSize
       Config.scanForMalware Config.validateMagicNumbers].
  unfold checks, failed.
  cbn [List.filter List.map fst snd].
  destruct (100 * 1024 * 1024 <? size file)%N;
    destruct (isAllowedExtension (name file));
    destruct (isAllowedMimeType validator (type file));
    destruct (validateMagicNumbers file);
    destruct (XSSProtection.validateFile file);
    destruct (scanForMalware file); reflexivity.
Qed.

Lemma validateFile_isValid (file : File) :
  isValid (validateFile validator file) =
  (List.length (errors (validateFile validator file)) =? 0)%nat.
Proof. reflexivity. Qed.

Lemma validateFile_file (f : File) : file (validateFile validator f) = f.
Proof. reflexivity. Qed.

(** A failing check puts its reason in the list and makes the result
    invalid. *)
Lemma failing_check_rejects (file : File) (c : bool * jsstring) :
  In c (checks file) -> fst c = false ->
  isValid (validateFile validator file) = false /\
  In (snd c) (errors (validateFile validator file)).
Proof.
  intros Hin Hc.
  assert (Hr : In (snd c) (errors (validateFile validator file))).
  { rewrite validateFile_errors. apply in_map, filter_In.
    split; [exact Hin | unfold failed; rewrite Hc; reflexivity]. }
  split; [|exact Hr].
  rewrite validateFile_isValid.
  destruct (errors (validateFile validator file)); [destruct Hr | reflexivity].
Qed.

Lemma isValid_iff_no_errors (f : File) :
  isValid (validateFile validator f) = true <->
  errors (validateFile validator f) = [].
Proof.
  rewrite validateFile_isValid.
  destruct (errors (validateFile validator f)); simpl;
    split; intros E; try reflexivity; discriminate E.
Qed.

Lemma filter_failed_nil (l : list (bool * jsstring)) :
  List.filter failed l = [] <-> forall c, In c l -> fst c = true.
Proof.
  induction l as [|[b r] l IH]; simpl.
  - split; [intros _ c [] | reflexivity].
  - unfold failed at 1; simpl. destruct b; simpl.
    + rewrite IH. split.
      * intros K c [<-|Hc]; [reflexivity | apply K; exact Hc].
      * intros K c Hc; apply K; right; exact Hc.
    + split; [discriminate|].
      intros K. specialize (K (false, r) (or_introl eq_refl)). discriminate K.
Qed.

(** C1. [validateFile] runs every check on every file: the list it returns
    holds, in check order, the reason of each failing check and nothing
    else (one reason per failing check), and [isValid] is true exactly
    when the list is empty, that is when every check passed. *)
Theorem validateFile_reports_every_failure (f : File) :
  errors (validateFile validator f) =
    List.map snd (List.filter failed (checks f)) /\
  List.length (errors (validateFile validator f)) =
    List.length (List.filter failed (checks f)) /\
  (isValid (validateFile validator f) = true <->
   errors (validateFile validator f) = []) /\
  (isValid (validateFile validator f) = true <->
   forall c, In c (checks f) -> fst c = true).
Proof.
  split; [apply validateFile_errors|].
  split; [rewrite validateFile_errors; apply length_map|].
  split; [apply isValid_iff_no_errors|].
  rewrite isValid_iff_no_errors, validateFile_errors, <- filter_failed_nil.
  destruct (List.filter failed (checks f)); simpl;
    split; intros E; try reflexivity; discriminate E.
Qed.

(** The size reason is not the reason of any other check. *)
Lemma sizeReason_unique (c : bool * jsstring) (f : File) :
  In c (checks f) -> snd c = sizeReason ->
  fst c = negb (100 * 1024 * 1024 <? size f)%N.
Proof.
  unfold checks. intros Hin E.
  repeat (destruct Hin as [<-|Hin]; [try reflexivity; exfalso; simpl in E;
                                     apply str_eqb_eq in E; vm_compute in E;
                                     discriminate E|]).
  destruct Hin.
Qed.

(** C6. A file longer than 100 MiB (100 * 1024 * 1024 bytes) is rejected
    and the size reason is among the reasons; a file of 100 MiB or less
    does not get the size reason. *)
Theorem size_limit_enforced (f : File) :
  ((100 * 1024 * 1024 < size f)%N ->
   isValid (validateFile validator f) = false /\
   In sizeReason (errors (validateFile validator f))) /\
  ((size f <= 100 * 1024 * 1024)%N ->
   ~ In sizeReason (errors (validateFile validator f))).
Proof.
  split.
  - intros Hlt.
    apply (failing_check_rejects f (negb (100 * 1024 * 1024 <? size f)%N, sizeReason)).
    + left; reflexivity.
    + cbn [fst]. apply N.ltb_lt in Hlt. rewrite Hlt. reflexivity.
  - intros Hle Hin. rewrite validateFile_errors in Hin.
    apply in_map_iff in Hin. destruct Hin as [c [Ec Hc]].
    apply filter_In in Hc. destruct Hc as [Hc Hf].
    unfold failed in Hf. rewrite (sizeReason_unique c f Hc Ec) in Hf.
    apply N.ltb_ge in Hle. rewrite Hle in Hf. discriminate Hf.
Qed.

(** C7. A file whose lower-cased extension is not in the allow-list is
    rejected with the extension reason, whatever MIME type it declares. *)
Theorem extension_rejected_whatever_mime (f : File) (mimeType : jsstring) :
  (forall ext, pop (split dot (toLowerCase (name f))) = Some ext ->
               ~ In ext allowedExtensions) ->
  isValid (validateFile validator (withType f mimeType)) = false /\
  In extensionReason (errors (validateFile validator (withType f mimeType))).
Proof.
  intros Hext.
  apply (failing_check_rejects (withType f mimeType)
           (isAllowedExtension (name f), extensionReason)).
  - right; left; reflexivity.
  - simpl. unfold isAllowedExtension.
    destruct (pop (split dot (toLowerCase (name f)))) as [ext|] eqn:E; [|reflexivity].
    destruct (arr_includes allowedExtensions ext) eqn:Ei; [|reflexivity].
    apply arr_includes_In in Ei. destruct (Hext ext eq_refl Ei).
Qed.

(** C10. A sixth check: a file whose lower-cased name ends with one of the
    dangerous extensions is rejected with the reason
    'File contains potentially dangerous content', whatever the other
    checks say. *)
Theorem dangerous_name_rejected (f : File) (ext : jsstring) :
  In ext XSSProtection.dangerousExtensions ->
  endsWith (toLowerCase (name f)) ext = true ->
  isValid (validateFile validator f) = false /\
  In (lit "File contains potentially dangerous content")
     (errors (validateFile validator f)).
Proof.
  intros Hin Hends.
  apply (failing_check_rejects f (XSSProtection.validateFile f, xssReason)).
  - do 4 right; left; reflexivity.
  - simpl. unfold XSSProtection.validateFile.
    apply negb_false_iff, existsb_exists. exists ext; split; assumption.
Qed.

(** *** The content scan *)

Lemma scan_failure_rejects (f : File) :
  scanForMalware f = false ->
  isValid (validateFile validator f) = false /\
  In scanReason (errors (validateFile validator f)).
Proof.
  intros Hs.
  apply (failing_check_rejects f (scanForMalware f, scanReason)).
  - do 5 right; left; reflexivity.
  - exact Hs.
Qed.

Lemma scanForMalware_pdf (f : File) :
  type f = lit "application/pdf" -> scanForMalware f = scanPDF f.
Proof.
  intros E. unfold scanForMalware. rewrite E, str_eqb_refl. reflexivity.
Qed.

(** A declared PDF whose text, as [scanPDF] reads it, has no footer. *)
Lemma pdf_text_without_eof_rejected (f : File) :
  type f = lit "application/pdf" ->
  includes (readAsText (slice f 0 (1024 * 100))) (lit "%%EOF") = false ->
  isValid (validateFile validator f) = false /\
  In scanReason (errors (validateFile validator f)).
Proof.
  intros Ety Hno. apply scan_failure_rejects.
  rewrite (scanForMalware_pdf f Ety). unfold scanPDF.
  rewrite Hno, andb_false_r. reflexivity.
Qed.

Lemma marker_test (kw' kw pre ws post : jsstring) :
  RegExp.sameIgnoringCase kw' kw ->
  Forall (fun c => RegExp.isWhiteSpace c = true) ws ->
  RegExp.test (marker kw) (pre ++ kw' ++ ws ++ lit "/" ++ post) = true.
Proof.
  intros Hkw Hws. apply RegExpFacts.test_lang.
  exists pre, (kw' ++ ws ++ lit "/"), post. split.
  - rewrite <- !app_assoc. reflexivity.
  - unfold marker. apply RegExp.L_Seq; [apply RegExpFacts.lit_i_lang; exact Hkw|].
    apply RegExp.L_Seq; [apply RegExpFacts.star_whitespace_lang; exact Hws|].
    apply RegExpFacts.lit_i_lang. repeat constructor.
Qed.

(** C3 (amended). A file declared as [application/pdf] whose first 100 KiB,
    read as text, contain [/JavaScript], [/JS] or [/AA] in any letter case
    followed by optional white space and a [/], fails the content scan:
    it is rejected with the reason 'File failed security scan'. *)
Theorem pdf_script_marker_rejected (f : File) (pre kw ws post : jsstring) :
  type f = lit "application/pdf" ->
  readAsText (slice f 0 (1024 * 100)) = pre ++ kw ++ ws ++ lit "/" ++ post ->
  RegExp.sameIgnoringCase kw (lit "/JavaScript") \/
  RegExp.sameIgnoringCase kw (lit "/JS") \/
  RegExp.sameIgnoringCase kw (lit "/AA") ->
  Forall (fun c => RegExp.isWhiteSpace c = true) ws ->
  isValid (validateFile validator f) = false /\
  In (lit "File failed security scan") (errors (validateFile validator f)).
Proof.
  intros Ety Etext Hkw Hws. apply scan_failure_rejects.
  rewrite (scanForMalware_pdf f Ety). unfold scanPDF. rewrite Etext.
  destruct Hkw as [Hkw|[Hkw|Hkw]]; rewrite (marker_test _ _ pre ws post Hkw Hws);
    rewrite ?orb_true_r; simpl; apply andb_false_r.
Qed.

End Validate.

(** *** Properties that rest on the platform's case mapping and decoding *)

Section Lawful.
Context {H : Host} {L : HostLawful H}.

Lemma allowedExtensions_shape :
  forallb lowerAsciiDotless allowedExtensions = true.
Proof. evaluate. Qed.

Lemma allowed_entry (e : jsstring) :
  In e allowedExtensions ->
  toLowerCase e = e /\ ~ In dot e.
Proof.
  intros Hin.
  pose proof (proj1 (forallb_forall _ _) allowedExtensions_shape e Hin) as K.
  unfold lowerAsciiDotless in K.
  apply andb_true_iff in K. destruct K as [K Kdot].
  apply andb_true_iff in K. destruct K as [Kascii Klow].
  split.
  - rewrite toLowerCase_ascii.
    + apply str_eqb_eq; exact Klow.
    + apply Forall_forall. intros c Hc.
      apply N.ltb_lt. exact (proj1 (forallb_forall _ _) Kascii c Hc).
  - intros Hd. apply negb_true_iff in Kdot.
    assert (existsb (fun c => (c =? dot)%N) e = true) as K'.
    { apply existsb_exists. exists dot; split; [exact Hd | apply N.eqb_refl]. }
    congruence.
Qed.

Lemma extension_of_dotless (filename : jsstring) :
  ~ In dot filename ->
  pop (split dot (toLowerCase filename)) = Some (toLowerCase filename).
Proof.
  intros Hn. rewrite split_no_sep; [reflexivity|].
  intros K. apply Hn, toLowerCase_dot, K.
Qed.

Lemma extension_of_trailing_dot (stem : jsstring) :
  pop (split dot (toLowerCase (stem ++ [dot]))) = Some [].
Proof.
  destruct (toLowerCase_trailing_dot stem) as [t ->].
  destruct (split_trailing_sep dot t) as [seg [segs ->]].
  apply pop_snoc.
Qed.

(** C9. The extension tested is the last segment of the lower-cased name
    split at ['.']: for a name without ['.'] it is the whole lower-cased
    name, so a file named exactly [pdf], or by any other entry of the
    allow-list, passes the extension check; for a name ending in ['.'] it
    is the empty string and the check fails. *)
Theorem extension_is_last_segment :
  (forall filename, ~ In dot filename ->
     pop (split dot (toLowerCase filename)) = Some (toLowerCase filename) /\
     isAllowedExtension filename =
       arr_includes allowedExtensions (toLowerCase filename)) /\
  (forall e, In e allowedExtensions ->
     ~ In dot e /\ isAllowedExtension e = true) /\
  isAllowedExtension (lit "pdf") = true /\
  (forall stem,
     pop (split dot (toLowerCase (stem ++ [dot]))) = Some [] /\
     isAllowedExtension (stem ++ [dot]) = false).
Proof.
  assert (Hentry : forall e, In e allowedExtensions ->
                             ~ In dot e /\ isAllowedExtension e = true).
  { intros e Hin. destruct (allowed_entry e Hin) as [Elow Hdot].
    split; [exact Hdot|]. unfold isAllowedExtension.
    rewrite (extension_of_dotless e Hdot), Elow.
    apply arr_includes_In; exact Hin. }
  split; [|split; [exact Hentry | split]].
  - intros filename Hn. pose proof (extension_of_dotless filename Hn) as E.
    split; [exact E|]. unfold isAllowedExtension. rewrite E. reflexivity.
  - apply Hentry. left; reflexivity.
  - intros stem. pose proof (extension_of_trailing_dot stem) as E.
    split; [exact E|]. unfold isAllowedExtension. rewrite E. reflexivity.
Qed.

Lemma slice_firstn (f : File) (n : N) :
  slice f 0 n = firstn (N.to_nat n) (bytesOf f).
Proof.
  unfold bytesOf, slice. rewrite firstn_map. f_equal.
  rewrite N.min_id, !Nat.sub_0_r, N2Nat.inj_min.
  change (N.to_nat 0) with 0%nat.
  generalize (N.to_nat n) as k, (N.to_nat (size f)) as m, 0%nat as a.
  induction k as [|k IH]; intros m a; [reflexivity|].
  destruct m as [|m]; simpl; [reflexivity|]. rewrite IH. reflexivity.
Qed.

Lemma bytesToUnits_inj (p q : list byte) :
  bytesToUnits p = bytesToUnits q -> p = q.
Proof.
  revert q; induction p as [|a p IH]; intros [|b q] E;
    try discriminate E; [reflexivity|].
  unfold bytesToUnits in E; simpl in E. inversion E as [[Eab Epq]].
  f_equal; [|apply IH; exact Epq].
  pose proof (Byte.of_to_N a) as Ka. rewrite Eab, Byte.of_to_N in Ka.
  inversion Ka; reflexivity.
Qed.

(** C2 (amended). A file declared as [application/pdf] whose first four
    bytes are 25 50 44 46 and whose content does not contain [%%EOF] is
    rejected with the reason 'File failed security scan'. *)
Theorem pdf_without_eof_rejected (f : File) :
  type f = lit "application/pdf" ->
  firstn 4 (bytesOf f) = [x25; x50; x44; x46] ->
  ~ infix (list_byte_of_string "%%EOF") (bytesOf f) ->
  isValid (validateFile validator f) = false /\
  In (lit "File failed security scan") (errors (validateFile validator f)).
Proof.
  intros Ety Hmagic Hno. apply (pdf_text_without_eof_rejected f Ety).
  destruct (includes (readAsText (slice f 0 (1024 * 100))) (lit "%%EOF")) eqn:Hinc;
    [exfalso | reflexivity].
  apply includes_infix in Hinc.
  apply readAsText_ascii in Hinc.
  - destruct Hinc as [q [Eq Hq]]. apply Hno.
    change (lit "%%EOF") with (bytesToUnits (list_byte_of_string "%%EOF")) in Eq.
    apply bytesToUnits_inj in Eq. subst q.
    rewrite slice_firstn in Hq. exact (infix_firstn _ _ _ _ Hq).
  - rewrite slice_firstn.
    destruct (bytesOf f) as [|b0 bs]; [discriminate Hmagic|].
    simpl in Hmagic. inversion Hmagic; subst b0.
    destruct (N.to_nat (1024 * 100)); reflexivity.
  - repeat constructor.
Qed.

End Lawful.
End ValidatorFacts.

(* ================================================================== *)
(** ** The ASCII host satisfies the platform facts *)

Lemma asciiLower_dot (c : codeunit) : asciiLower c = dot -> c = dot.
Proof.
  unfold asciiLower, dot.
  destruct ((65 <=? c) && (c <=? 90))%N eqn:E; [|auto].
  apply andb_true_iff in E. destruct E as [E1 E2].
  apply N.leb_le in E1. intros K. lia.
Qed.

Lemma asciiHost_lawful : HostLawful asciiHost.
Proof.
  constructor.
  - reflexivity.
  - reflexivity.
  - intros s K. simpl in K. apply in_map_iff in K.
    destruct K as [c [Ec Hc]]. apply asciiLower_dot in Ec. subst c. exact Hc.
  - intros s. exists (List.map asciiLower s). simpl. rewrite map_app. reflexivity.
  - intros bs p _ Hp [pre [post E]]. simpl in E.
    apply map_eq_app in E. destruct E as [bpre [rest [Ebs [_ E]]]].
    apply map_eq_app in E. destruct E as [q [bpost [Erest [Eq _]]]].
    exists q. split.
    + subst p. unfold bytesToUnits. apply map_ext_in. intros b Hb.
      rewrite Forall_forall in Hp.
      specialize (Hp _ (in_map _ _ _ Hb)). unfold isAscii in Hp. simpl in Hp.
      destruct (Byte.to_N b <? 128)%N eqn:Eb; [reflexivity|].
      exfalso. revert Hp. apply N.nlt_ge. discriminate.
    + exists bpre, bpost. rewrite Ebs, Erest. reflexivity.
Qed.

Lemma infix_bytes_includes (q bs : list byte) :
  infix q bs -> includes (bytesToUnits bs) (bytesToUnits q) = true.
Proof.
  intros [pre [post E]]. apply includes_infix.
  exists (bytesToUnits pre), (bytesToUnits post).
  subst bs. unfold bytesToUnits. rewrite !map_app. reflexivity.
Qed.

(* ================================================================== *)
(** ** The validator on concrete files *)

Module ValidatorExamples.
Import FileValidator ValidatorSpec ValidatorFacts Inputs.

(** C2, counterexample: a file that starts with [%PDF], has no [%%EOF] and
    declares [image/png] is accepted; the content scan is not run on it. *)
Lemma spoofed_pdf_is_accepted :
  firstn 4 (bytesOf spoofed) = [x25; x50; x44; x46] /\
  ~ infix (list_byte_of_string "%%EOF") (bytesOf spoofed) /\
  isValid (validateFile validator spoofed) = true /\
  ~ In (lit "File failed security scan") (errors (validateFile validator spoofed)).
Proof.
  split; [reflexivity|]. split; [|split].
  - intros K. apply infix_bytes_includes in K. vm_compute in K. discriminate K.
  - vm_compute. reflexivity.
  - intros K. vm_compute in K. exact K.
Qed.

Lemma pdf_without_eof_rejected_witness :
  isValid (validateFile validator truncated) = false /\
  In (lit "File failed security scan") (errors (validateFile validator truncated)).
Proof.
  apply (@pdf_without_eof_rejected asciiHost asciiHost_lawful truncated).
  - reflexivity.
  - reflexivity.
  - intros K. apply infix_bytes_includes in K. vm_compute in K. discriminate K.
Defined.

(** C3, counterexample: a declared PDF whose text contains [/JS] passes the
    content scan and is accepted. *)
Lemma scripted_pdf_is_accepted :
  type scripted = lit "application/pdf" /\
  infix (lit "/JS") (readAsText (slice scripted 0 (1024 * 100))) /\
  scanPDF scripted = true /\
  isValid (validateFile validator scripted) = true /\
  ~ In (lit "File failed security scan") (errors (validateFile validator scripted)).
Proof.
  split; [reflexivity|]. split; [|split; [|split]].
  - apply includes_infix. vm_compute. reflexivity.
  - vm_compute. reflexivity.
  - vm_compute. reflexivity.
  - intros K. vm_compute in K. exact K.
Qed.

Lemma pdf_script_marker_rejected_witness :
  isValid (validateFile validator flagged) = false /\
  In (lit "File failed security scan") (errors (validateFile validator flagged)).
Proof.
  apply (@pdf_script_marker_rejected asciiHost flagged
           (lit "%PDF-1.4 /S ") (lit "/javascript") (lit " ")
           (lit "JS (app.alert(1)) %%EOF")).
  - reflexivity.
  - vm_compute. reflexivity.
  - left. repeat constructor.
  - repeat constructor.
Defined.

Lemma size_limit_enforced_witness :
  (isValid (validateFile validator oversized) = false /\
   In sizeReason (errors (validateFile validator oversized))) /\
  ~ In sizeReason (errors (validateFile validator atLimit)).
Proof.
  split.
  - apply (proj1 (@size_limit_enforced asciiHost oversized)). reflexivity.
  - apply (proj2 (@size_limit_enforced asciiHost atLimit)). discriminate.
Defined.

Lemma extension_rejected_whatever_mime_witness :
  isValid (validateFile validator (withType textFile (lit "application/pdf"))) = false /\
  In extensionReason
     (errors (validateFile validator (withType textFile (lit "application/pdf")))).
Proof.
  apply (@extension_rejected_whatever_mime asciiHost textFile (lit "application/pdf")).
  intros ext E K. apply arr_includes_In in K.
  vm_compute in E. inversion E; subst ext. vm_compute in K. discriminate K.
Defined.

Lemma dangerous_name_rejected_witness :
  isValid (validateFile validator installer) = false /\
  In (lit "File contains potentially dangerous content")
     (errors (validateFile validator installer)).
Proof.
  apply (@dangerous_name_rejected asciiHost installer (lit ".exe")).
  - left; reflexivity.
  - vm_compute. reflexivity.
Defined.

Lemma extension_is_last_segment_witness :
  isAllowedExtension (lit "pdf") = true /\
  isAllowedExtension (lit "report.") = false.
Proof.
  destruct (@extension_is_last_segment asciiHost asciiHost_lawful)
    as [_ [_ [Hpdf Hdot]]].
  split; [exact Hpdf | exact (proj2 (Hdot (lit "report")))].
Defined.

End ValidatorExamples.

(* ================================================================== *)
(** ** The image-to-PDF converter *)

Module ConverterFacts.
Import Tools ConverterSpec.

Section Pages.
Context {T : Type} {Num : Number T}.
Variable readFileAsDataURL : File -> option jsstring.
Variable loadImage : jsstring -> option HTMLImageElement.

Lemma decodes_placementOf (image : File) :
  decodes readFileAsDataURL loadImage image -> exists pl, placementOf readFileAsDataURL loadImage image = Some pl.
Proof.
  intros [dataUrl [img [E1 E2]]]. unfold placementOf. rewrite E1, E2. eauto.
Qed.

Lemma step_placementOf (i : nat) (image : File) (pdf : jsPDF.t T) :
  step readFileAsDataURL loadImage i image pdf =
  match placementOf readFileAsDataURL loadImage image with
  | Some pl => Some (pdf ++ callsFrom i [pl])
  | None => None
  end.
Proof.
  unfold Tools.step, placementOf.
  destruct (readFileAsDataURL image) as [dataUrl|]; [|reflexivity].
  destruct (loadImage dataUrl) as [img|]; [|reflexivity].
  destruct (fitToA4 (pixels (width img)) (pixels (height img))) as [wd ht].
  simpl. unfold jsPDF.addImage, jsPDF.addPage.
  destruct (0 <? i)%nat; simpl; rewrite <- ?app_assoc; reflexivity.
Qed.

Lemma loop_calls (images : list File) :
  (forall image, In image images -> decodes readFileAsDataURL loadImage image) ->
  forall i pdf,
  exists pls,
    List.map (placementOf readFileAsDataURL loadImage) images = List.map Some pls /\
    loop readFileAsDataURL loadImage i images pdf = Some (pdf ++ callsFrom i pls).
Proof.
  induction images as [|image rest IH]; intros Hdec i pdf.
  - exists []. split; [reflexivity | simpl; rewrite app_nil_r; reflexivity].
  - destruct (decodes_placementOf image (Hdec image (or_introl eq_refl))) as [pl Epl].
    assert (Hrest : forall im, In im rest -> decodes readFileAsDataURL loadImage im)
      by (intros im Him; apply Hdec; right; exact Him).
    destruct (IH Hrest (S i) (pdf ++ callsFrom i [pl])) as [pls [Emap Eloop]].
    exists (pl :: pls). split.
    + simpl. rewrite Epl, Emap. reflexivity.
    + simpl. rewrite step_placementOf, Epl, Eloop. f_equal.
      simpl. rewrite <- !app_assoc. reflexivity.
Qed.

Lemma drawOn_last (pages : list (jsPDF.Page T)) (pg : jsPDF.Page T)
      (pl : jsPDF.Placement T) :
  jsPDF.drawOn (pages ++ [pg]) (List.length pages) pl = pages ++ [pg ++ [pl]].
Proof.
  induction pages as [|p pages IH]; simpl; [reflexivity|].
  rewrite IH. reflexivity.
Qed.

(** After the first image every image opens a page of its own. *)
Lemma render_later (pls : list (jsPDF.Placement T)) :
  forall i pages cur,
    (0 < i)%nat ->
    jsPDF.render (callsFrom i pls) pages cur =
    pages ++ List.map (fun pl => [pl]) pls.
Proof.
  induction pls as [|pl pls IH]; intros i pages cur Hi.
  - simpl. rewrite app_nil_r. reflexivity.
  - simpl. apply Nat.ltb_lt in Hi. rewrite Hi. simpl.
    rewrite drawOn_last. simpl. rewrite IH by lia.
    rewrite <- app_assoc. reflexivity.
Qed.

Lemma output_calls (pls : list (jsPDF.Placement T)) :
  pls <> [] ->
  jsPDF.output (callsFrom 0 pls) = List.map (fun pl => [pl]) pls.
Proof.
  destruct pls as [|pl pls]; [intros K; destruct (K eq_refl)|]. intros _.
  unfold jsPDF.output. simpl. rewrite render_later by lia. reflexivity.
Qed.

Lemma addPageCalls_later (pls : list (jsPDF.Placement T)) :
  forall i, (0 < i)%nat ->
    jsPDF.addPageCalls (callsFrom i pls) = List.length pls.
Proof.
  unfold jsPDF.addPageCalls.
  induction pls as [|pl pls IH]; intros i Hi; [reflexivity|].
  simpl. apply Nat.ltb_lt in Hi. rewrite Hi. simpl. rewrite IH by lia.
  reflexivity.
Qed.

(** C5. For a non-empty batch of [n] images that all decode, the converter
    resolves with a document of exactly [n] pages; page [i] holds exactly
    the [i]-th image of the input, and [addPage] was called once for every
    image except the first. *)
Theorem one_page_per_image (images : list File) :
  images <> [] ->
  (forall image, In image images -> decodes readFileAsDataURL loadImage image) ->
  exists pdf,
    convertImagesToPdf readFileAsDataURL loadImage images = Some pdf /\
    List.length (jsPDF.output pdf) = List.length images /\
    jsPDF.addPageCalls pdf = (List.length images - 1)%nat /\
    forall i image,
      nth_error images i = Some image ->
      exists pl,
        placementOf readFileAsDataURL loadImage image = Some pl /\
        nth_error (jsPDF.output pdf) i = Some [pl].
Proof.
  intros Hne Hdec.
  destruct (loop_calls images Hdec 0%nat (jsPDF.new T)) as [pls [Emap Eloop]].
  assert (Elen : List.length pls = List.length images).
  { rewrite <- (length_map Some pls), <- Emap, length_map. reflexivity. }
  assert (Hpls : pls <> []).
  { intros ->. destruct images; [apply Hne; reflexivity | discriminate Elen]. }
  exists (callsFrom 0 pls). split; [exact Eloop|].
  rewrite (output_calls pls Hpls). split; [|split].
  - rewrite length_map. exact Elen.
  - rewrite <- Elen. destruct pls as [|pl pls]; [destruct (Hpls eq_refl)|].
    simpl. unfold jsPDF.addPageCalls. simpl.
    fold (jsPDF.addPageCalls (callsFrom 1 pls)).
    rewrite addPageCalls_later by lia. lia.
  - intros i image Hi.
    pose proof (map_nth_error (placementOf readFileAsDataURL loadImage) i images Hi) as K.
    rewrite Emap in K.
    rewrite nth_error_map in K.
    destruct (nth_error pls i) as [pl|] eqn:Epl; [|discriminate K].
    simpl in K. inversion K as [Kpl]. exists pl. split; [reflexivity|].
    rewrite nth_error_map, Epl. reflexivity.
Qed.

End Pages.
End ConverterFacts.

(** *** Scaling to the page *)

(** *** Rounding to nearest in binary64 *)

Module RoundingFacts.
Import Reals Lra Psatz Rounding.
Local Open Scope R_scope.

(** A positive number of [d] binary digits lies in [2 ^ (d - 1), 2 ^ d). *)
Lemma digits2_bounds p :
  (2 ^ (Zpos (digits2_pos p) - 1) <= Zpos p < 2 ^ Zpos (digits2_pos p))%Z.
Proof.
  induction p as [p IH|p IH|]; cbn [digits2_pos].
  - rewrite Pos2Z.inj_succ.
    replace (Z.succ (Zpos (digits2_pos p)) - 1)%Z with (Z.succ (Zpos (digits2_pos p) - 1))%Z by lia.
    rewrite !Z.pow_succ_r by lia. lia.
  - rewrite Pos2Z.inj_succ.
    replace (Z.succ (Zpos (digits2_pos p)) - 1)%Z with (Z.succ (Zpos (digits2_pos p) - 1))%Z by lia.
    rewrite !Z.pow_succ_r by lia. lia.
  - simpl. lia.
Qed.

Lemma Zdigits2_unique (m d : Z) :
  (2 ^ (d - 1) <= m < 2 ^ d)%Z -> (0 < d)%Z -> Zdigits2 m = d.
Proof.
  intros H Hd. destruct m as [|p|p].
  - assert (0 < 2 ^ (d - 1))%Z by (apply Z.pow_pos_nonneg; lia). lia.
  - simpl. pose proof (digits2_bounds p) as B.
    set (k := Zpos (digits2_pos p)) in *.
    destruct (Z.lt_trichotomy k d) as [L|[E|G]]; [|exact E|].
    + assert (2 ^ k <= 2 ^ (d - 1))%Z by (apply Z.pow_le_mono_r; lia). lia.
    + assert (2 ^ d <= 2 ^ (k - 1))%Z by (apply Z.pow_le_mono_r; lia). lia.
  - assert (0 < 2 ^ (d - 1))%Z by (apply Z.pow_pos_nonneg; lia). lia.
Qed.

(** An invariant indexed by the number of steps is carried through
    [iter_pos]. *)
Lemma iter_pos_inv {A} (f : A -> A) (P : nat -> A -> Prop) :
  (forall k x, P k x -> P (S k) (f x)) ->
  forall p k x, P k x -> P (k + Pos.to_nat p)%nat (SpecFloat.iter_pos f p x).
Proof.
  intros Hf. induction p as [p IH|p IH|]; intros k x Hx; cbn [SpecFloat.iter_pos].
  - replace (k + Pos.to_nat p~1)%nat with (S k + Pos.to_nat p + Pos.to_nat p)%nat by lia.
    apply IH, IH, Hf, Hx.
  - replace (k + Pos.to_nat p~0)%nat with (k + Pos.to_nat p + Pos.to_nat p)%nat by lia.
    apply IH, IH, Hx.
  - replace (k + Pos.to_nat 1)%nat with (S k) by lia. apply Hf, Hx.
Qed.

Lemma IZR_xO p : IZR (Zpos p~0) = 2 * IZR (Zpos p).
Proof. rewrite Pos2Z.inj_xO, mult_IZR. reflexivity. Qed.

Lemma IZR_xI p : IZR (Zpos p~1) = 2 * IZR (Zpos p) + 1.
Proof. rewrite Pos2Z.inj_xI, plus_IZR, mult_IZR. reflexivity. Qed.

(** One step of the right shift halves the number located. *)
Lemma shr_1_locates (y : R) (mrs : shr_record) :
  (0 <= shr_m mrs)%Z ->
  locates y (shr_m mrs) (loc_of_shr_record mrs) ->
  (0 <= shr_m (shr_1 mrs))%Z /\
  locates (y / 2) (shr_m (shr_1 mrs)) (loc_of_shr_record (shr_1 mrs)).
Proof.
  destruct mrs as [m r s]. cbn [shr_m]. intros Hm H.
  destruct m as [|[p|p|]|p]; [| | | |lia];
    try pose proof (IZR_xO p) as E; try pose proof (IZR_xI p) as E';
    destruct r, s; cbn [shr_1 orb shr_m loc_of_shr_record locates] in *;
    (split; [lia|]); lra.
Qed.
Lemma shr_record_of_loc_m m l : shr_m (shr_record_of_loc m l) = m.
Proof. destruct l as [|[]]; reflexivity. Qed.

Lemma loc_of_shr_record_of_loc m l :
  loc_of_shr_record (shr_record_of_loc m l) = l.
Proof. destruct l as [|[]]; reflexivity. Qed.

Lemma locates_bounds y m l : locates y m l -> IZR m <= y < IZR m + 1.
Proof. destruct l as [|c]; simpl; intros H; lra. Qed.

(** [shr] by [n] places divides the number located by [2 ^ n]. *)
Lemma shr_locates (y : R) (m : Z) (l : location) (e n : Z) :
  (0 <= m)%Z -> (0 <= n)%Z -> locates y m l ->
  snd (shr (shr_record_of_loc m l) e n) = (e + n)%Z /\
  (0 <= shr_m (fst (shr (shr_record_of_loc m l) e n)))%Z /\
  locates (y / 2 ^ Z.to_nat n)
          (shr_m (fst (shr (shr_record_of_loc m l) e n)))
          (loc_of_shr_record (fst (shr (shr_record_of_loc m l) e n))).
Proof.
  intros Hm Hn H. destruct n as [|p|p]; [| |lia]; cbn [shr fst snd].
  - rewrite shr_record_of_loc_m, loc_of_shr_record_of_loc.
    split; [lia|]. split; [exact Hm|].
    simpl. replace (y / 1) with y by field. exact H.
  - split; [reflexivity|].
    assert (I : forall k x,
      (0 <= shr_m x)%Z /\ locates (y / 2 ^ k) (shr_m x) (loc_of_shr_record x) ->
      (0 <= shr_m (shr_1 x))%Z /\
      locates (y / 2 ^ S k) (shr_m (shr_1 x)) (loc_of_shr_record (shr_1 x))).
    { intros k x [a b]. destruct (shr_1_locates _ _ a b) as [a' b'].
      split; [exact a'|].
      replace (y / 2 ^ S k) with (y / 2 ^ k / 2); [exact b'|].
      simpl. field. apply pow_nonzero. lra. }
    pose proof (iter_pos_inv shr_1 _ I p 0%nat (shr_record_of_loc m l)) as J.
    cbv beta in J. rewrite shr_record_of_loc_m, loc_of_shr_record_of_loc in J.
    simpl (2 ^ 0) in J. replace (y / 1) with y in J by field.
    specialize (J (conj Hm H)). simpl (0 + _)%nat in J.
    rewrite Z2Nat.inj_pos. exact J.
Qed.

(** [round_nearest_even] picks an integer at most one half away. *)
Lemma round_nearest_even_locates y m l :
  locates y m l ->
  (m <= round_nearest_even m l <= m + 1)%Z /\
  IZR (round_nearest_even m l) - y <= / 2 /\
  y - IZR (round_nearest_even m l) <= / 2.
Proof.
  intros H. destruct l as [|[]]; cbn [round_nearest_even locates] in *.
  - split; [lia|]. lra.
  - destruct (Z.even m); [split; [lia|lra]|].
    split; [lia|]. rewrite plus_IZR. lra.
  - split; [lia|]. lra.
  - split; [lia|]. rewrite plus_IZR. lra.
Qed.

Lemma powerRZ_2_pos e : 0 < powerRZ 2 e.
Proof. apply powerRZ_lt. lra. Qed.

Lemma powerRZ_2_add a b : powerRZ 2 (a + b) = powerRZ 2 a * powerRZ 2 b.
Proof. apply powerRZ_add. lra. Qed.

Lemma powerRZ_2_nat k : powerRZ 2 (Z.of_nat k) = 2 ^ k.
Proof. symmetry. apply pow_powerRZ. Qed.

Lemma IZR_pow2 k : (0 <= k)%Z -> IZR (2 ^ k) = powerRZ 2 k.
Proof.
  intros Hk. rewrite <- (Z2Nat.id k Hk) at 1.
  rewrite <- (Z2Nat.id k Hk) at 2.
  rewrite powerRZ_2_nat.
  rewrite <- pow_IZR. reflexivity.
Qed.

Lemma fexp_normal e : (-1074 <= e - 53)%Z -> fexp prec emax e = (e - 53)%Z.
Proof. unfold fexp, emin, prec, emax. lia. Qed.

(** The rounding of [SpecFloat]: a number located by [mx], of at least 53
    bits, at exponent [ex], with the result in the normal range, is
    rounded to nearest. *)
Lemma binary_round_aux_correct (y : R) (mx ex : Z) (lx : location) :
  (2 ^ 52 <= mx)%Z ->
  locates y mx lx ->
  (-1074 <= ex + Zdigits2 mx - 53 <= 970)%Z ->
  rounds_to (y * powerRZ 2 ex) (binary_round_aux prec emax false mx ex lx).
Proof.
  intros Hmx Hloc He.
  destruct mx as [|p|p]; try lia.
  pose proof (digits2_bounds p) as B. cbn [Zdigits2] in He.
  set (d := Zpos (digits2_pos p)) in *.
  assert (Hd : (53 <= d)%Z).
  { destruct (Z.le_gt_cases 53 d) as [L|G]; [exact L|].
    assert (2 ^ d <= 2 ^ 52)%Z by (apply Z.pow_le_mono_r; lia). lia. }
  unfold binary_round_aux.
  change (shr_fexp prec emax (Z.pos p) ex lx)
    with (shr (shr_record_of_loc (Zpos p) lx) ex (fexp prec emax (d + ex) - ex)).
  rewrite fexp_normal by lia.
  replace (d + ex - 53 - ex)%Z with (d - 53)%Z by lia.
  destruct (shr_locates y (Zpos p) lx ex (d - 53) ltac:(lia) ltac:(lia) Hloc)
    as [He' [Hm' Hl']].
  destruct (shr (shr_record_of_loc (Zpos p) lx) ex (d - 53)) as [mrs' e'].
  cbn [fst snd] in *. subst e'.
  set (k := Z.to_nat (d - 53)) in *.
  set (m' := shr_m mrs') in *. set (l' := loc_of_shr_record mrs') in *.
  set (y' := y / 2 ^ k) in *.
  assert (K : 0 < 2 ^ k) by (apply pow_lt; lra).
  assert (Ey : y = y' * 2 ^ k) by (unfold y'; field; lra).
  pose proof (locates_bounds _ _ _ Hloc) as By.
  pose proof (locates_bounds _ _ _ Hl') as By'.
  assert (E1 : IZR (2 ^ (d - 1)) = IZR (2 ^ 52) * 2 ^ k).
  { replace (d - 1)%Z with (52 + Z.of_nat k)%Z by (unfold k; lia).
    rewrite Z.pow_add_r by lia. rewrite mult_IZR.
    rewrite (IZR_pow2 (Z.of_nat k)) by lia. rewrite powerRZ_2_nat. reflexivity. }
  assert (E2 : IZR (2 ^ d) = IZR (2 ^ 53) * 2 ^ k).
  { replace d with (53 + Z.of_nat k)%Z at 1 by (unfold k; lia).
    rewrite Z.pow_add_r by lia. rewrite mult_IZR.
    rewrite (IZR_pow2 (Z.of_nat k)) by lia. rewrite powerRZ_2_nat. reflexivity. }
  assert (L1 : IZR (2 ^ (d - 1)) <= IZR (Zpos p)) by (apply IZR_le; lia).
  assert (L2 : IZR (Zpos p) + 1 <= IZR (2 ^ d)).
  { rewrite <- plus_IZR. apply IZR_le. lia. }
  assert (Y1 : IZR (2 ^ 52) <= y').
  { apply Rmult_le_reg_r with (2 ^ k); [exact K|]. lra. }
  assert (Y2 : y' < IZR (2 ^ 53)).
  { apply Rmult_lt_reg_r with (2 ^ k); [exact K|]. lra. }
  assert (M1 : (2 ^ 52 <= m')%Z).
  { assert (IZR (2 ^ 52 - 1) < IZR m') by (rewrite minus_IZR; lra).
    apply lt_IZR in H. lia. }
  assert (M2 : (m' < 2 ^ 53)%Z).
  { apply lt_IZR. lra. }
  destruct (round_nearest_even_locates _ _ _ Hl') as [N1 [N2 N3]].
  set (n0 := round_nearest_even m' l') in *.
  assert (PE : powerRZ 2 (ex + (d - 53)) = powerRZ 2 ex * 2 ^ k).
  { rewrite powerRZ_2_add. f_equal.
    replace (d - 53)%Z with (Z.of_nat k) by (unfold k; lia).
    apply powerRZ_2_nat. }
  pose proof (powerRZ_2_pos ex) as Pex.
  pose proof (powerRZ_2_pos (ex + (d - 53))) as Pe'.
  assert (V : y * powerRZ 2 ex = y' * powerRZ 2 (ex + (d - 53))).
  { rewrite PE, Ey. ring. }
  rewrite V. clear V.
  set (e' := (ex + (d - 53))%Z) in *.
  assert (R : IZR (2 ^ 52) * powerRZ 2 e' <= y' * powerRZ 2 e' < IZR (2 ^ 53) * powerRZ 2 e' /\
              IZR n0 * powerRZ 2 e' - y' * powerRZ 2 e' <= powerRZ 2 e' / 2 /\
              y' * powerRZ 2 e' - IZR n0 * powerRZ 2 e' <= powerRZ 2 e' / 2).
  { split; [split|split]; nra. }
  destruct (Z.eq_dec n0 (2 ^ 53)) as [Eq|Ne].
  - rewrite Eq. unfold shr_fexp.
    replace (Zdigits2 (2 ^ 53)) with 54%Z by reflexivity.
    rewrite fexp_normal by lia.
    replace (54 + e' - 53 - e')%Z with 1%Z by lia.
    cbn [shr_record_of_loc shr SpecFloat.iter_pos].
    change (shr_m (shr_1 {| shr_m := 2 ^ 53; shr_r := false; shr_s := false |}))
      with (2 ^ 52)%Z.
    change (2 ^ 52)%Z with (Zpos (2 ^ 52)%positive). cbv iota beta.
    replace (e' + 1 <=? emax - prec)%Z with true
      by (symmetry; apply Z.leb_le; unfold emax, prec; lia).
    split.
    + exists (2 ^ 52)%positive, (e' + 1)%Z. split; [reflexivity|]. split; [|lia].
      change (Zpos (2 ^ 52)%positive) with (2 ^ 52)%Z. lia.
    + exists n0, e'. split; [|rewrite Eq in *; exact R].
      cbn [SF2R]. rewrite powerRZ_2_add. rewrite Eq.
      change (powerRZ 2 1) with (2 * 1).
      change (Zpos (2 ^ 52)%positive) with (2 ^ 52)%Z.
      replace (IZR (2 ^ 53)) with (IZR (2 ^ 52) * 2).
      * ring.
      * rewrite <- mult_IZR. reflexivity.
  - assert (N : (2 ^ 52 <= n0 < 2 ^ 53)%Z) by lia.
    unfold shr_fexp.
    rewrite (Zdigits2_unique n0 53) by (simpl; lia).
    rewrite fexp_normal by lia.
    replace (53 + e' - 53 - e')%Z with 0%Z by lia.
    cbn [shr_record_of_loc shr shr_m].
    destruct n0 as [|q|q]; try lia.
    replace (e' <=? emax - prec)%Z with true
      by (symmetry; apply Z.leb_le; unfold emax, prec; lia).
    split.
    + exists q, e'. split; [reflexivity|]. split; lia.
    + exists (Zpos q), e'. split; [reflexivity|exact R].
Qed.

(** The product of two positive normal numbers, in the normal range, is
    the exact product rounded to nearest. *)
Lemma SFmul_correct (x y : spec_float) :
  pnormal x -> pnormal y ->
  (-1126 <= SFexp x + SFexp y <= 917)%Z ->
  rounds_to (SF2R x * SF2R y) (SFmul prec emax x y).
Proof.
  intros (m1 & e1 & -> & Hm1 & He1) (m2 & e2 & -> & Hm2 & He2) He.
  cbn [SFexp] in He. cbn [SFmul xorb SF2R].
  replace (IZR (Zpos m1) * powerRZ 2 e1 * (IZR (Zpos m2) * powerRZ 2 e2))
    with (IZR (Zpos (m1 * m2)) * powerRZ 2 (e1 + e2))
    by (rewrite powerRZ_2_add, Pos2Z.inj_mul, mult_IZR; ring).
  assert (HM : (2 ^ 104 <= Zpos (m1 * m2) < 2 ^ 106)%Z).
  { rewrite Pos2Z.inj_mul.
    change (2 ^ 104)%Z with (2 ^ 52 * 2 ^ 52)%Z.
    change (2 ^ 106)%Z with (2 ^ 53 * 2 ^ 53)%Z.
    split.
    - apply Z.mul_le_mono_nonneg; lia.
    - apply Z.mul_lt_mono_nonneg; lia. }
  apply binary_round_aux_correct.
  - lia.
  - reflexivity.
  - cbn [Zdigits2]. pose proof (digits2_bounds (m1 * m2)) as B.
    set (d := Zpos (digits2_pos (m1 * m2))) in *.
    assert (105 <= d)%Z.
    { destruct (Z.le_gt_cases 105 d) as [L|G]; [exact L|].
      assert (2 ^ d <= 2 ^ 104)%Z by (apply Z.pow_le_mono_r; lia). lia. }
    assert (d <= 106)%Z.
    { destruct (Z.le_gt_cases d 106) as [L|G]; [exact L|].
      assert (2 ^ 106 <= 2 ^ (d - 1))%Z by (apply Z.pow_le_mono_r; lia). lia. }
    lia.
Qed.

Lemma Rdiv_lt_iff a b c : 0 < b -> (a / b < c <-> a < c * b).
Proof.
  intros Hb. split; intros H.
  - replace a with (a / b * b) by (field; lra). apply Rmult_lt_compat_r; assumption.
  - apply Rmult_lt_reg_r with b; [exact Hb|].
    replace (a / b * b) with a by (field; lra). exact H.
Qed.

Lemma Rdiv_gt_iff a b c : 0 < b -> (c < a / b <-> c * b < a).
Proof.
  intros Hb. split; intros H.
  - replace a with (a / b * b) by (field; lra). apply Rmult_lt_compat_r; assumption.
  - apply Rmult_lt_reg_r with b; [exact Hb|].
    replace (a / b * b) with a by (field; lra). exact H.
Qed.

(** The location computed from the remainder of a division locates the
    exact quotient. *)
Lemma new_location_locates (m' m2 q r : Z) :
  (0 < m2)%Z -> (0 <= r < m2)%Z -> m' = (m2 * q + r)%Z ->
  locates (IZR m' / IZR m2) q (new_location m2 r).
Proof.
  intros H2 Hr ->.
  assert (P2 : 0 < IZR m2) by (apply IZR_lt; lia).
  assert (E : IZR (m2 * q + r) / IZR m2 = IZR q + IZR r / IZR m2).
  { rewrite plus_IZR, mult_IZR. field. lra. }
  rewrite E. clear E.
  assert (R0 : 0 <= IZR r) by (apply IZR_le; lia).
  assert (R1 : IZR r < IZR m2) by (apply IZR_lt; lia).
  assert (F1 : IZR r / IZR m2 < 1) by (apply Rdiv_lt_iff; lra).
  unfold new_location, new_location_even, new_location_odd.
  destruct (Z.eq_dec r 0) as [->|Hr0].
  - assert (X : locates (IZR q + 0 / IZR m2) q loc_Exact).
    { simpl. field. lra. }
    destruct (Z.even m2); exact X.
  - apply Z.eqb_neq in Hr0 as Hr0'.
    assert (R2 : 0 < IZR r) by (apply IZR_lt; lia).
    assert (F0 : 0 < IZR r / IZR m2) by (apply Rdiv_gt_iff; lra).
    destruct (Z.even m2) eqn:Ev.
    + rewrite Hr0'. cbn [locates]. split; [lra|].
      destruct (Z.compare_spec (2 * r)%Z m2) as [C|C|C].
      * assert (IZR r / IZR m2 = / 2).
        { rewrite <- C, mult_IZR. field. lra. }
        lra.
      * apply IZR_lt in C. rewrite mult_IZR in C.
        assert (IZR r / IZR m2 < / 2) by (apply Rdiv_lt_iff; lra). lra.
      * apply IZR_lt in C. rewrite mult_IZR in C.
        assert (/ 2 < IZR r / IZR m2) by (apply Rdiv_gt_iff; lra). lra.
    + rewrite Hr0'. cbn [locates]. split; [lra|].
      assert (Odd : (2 * r <> m2)%Z).
      { intros C. rewrite <- C in Ev. rewrite Z.even_mul in Ev. discriminate. }
      destruct (Z.compare_spec (2 * r + 1)%Z m2) as [C|C|C].
      * assert (C' : (2 * r < m2)%Z) by lia.
        apply IZR_lt in C'. rewrite mult_IZR in C'.
        assert (IZR r / IZR m2 < / 2) by (apply Rdiv_lt_iff; lra). lra.
      * assert (C' : (2 * r < m2)%Z) by lia.
        apply IZR_lt in C'. rewrite mult_IZR in C'.
        assert (IZR r / IZR m2 < / 2) by (apply Rdiv_lt_iff; lra). lra.
      * assert (C' : (m2 < 2 * r)%Z) by lia.
        apply IZR_lt in C'. rewrite mult_IZR in C'.
        assert (/ 2 < IZR r / IZR m2) by (apply Rdiv_gt_iff; lra). lra.
Qed.

(** The quotient of two positive normal numbers, in the normal range, is
    the exact quotient rounded to nearest. *)
Lemma SFdiv_correct (x y : spec_float) :
  pnormal x -> pnormal y ->
  (-1021 <= SFexp x - SFexp y <= 1022)%Z ->
  rounds_to (SF2R x / SF2R y) (SFdiv prec emax x y).
Proof.
  intros (m1 & e1 & -> & Hm1 & He1) (m2 & e2 & -> & Hm2 & He2) He.
  cbn [SFexp] in He. cbn [SFdiv xorb SF2R].
  unfold SFdiv_core_binary.
  rewrite (Zdigits2_unique (Zpos m1) 53) by (simpl; lia).
  rewrite (Zdigits2_unique (Zpos m2) 53) by (simpl; lia).
  replace (53 + e1 - (53 + e2))%Z with (e1 - e2)%Z by lia.
  rewrite fexp_normal by lia.
  replace (Z.min (e1 - e2 - 53) (e1 - e2)) with (e1 - e2 - 53)%Z by lia.
  replace (e1 - e2 - (e1 - e2 - 53))%Z with 53%Z by lia.
  cbv iota beta.
  rewrite Z.shiftl_mul_pow2 by lia.
  pose proof (Z_div_mod (Zpos m1 * 2 ^ 53) (Zpos m2) ltac:(lia)) as D.
  destruct (Z.div_eucl (Zpos m1 * 2 ^ 53) (Zpos m2)) as [q r].
  destruct D as [D1 D2].
  assert (Hq : (2 ^ 52 <= q)%Z).
  { assert (2 ^ 52 * 2 ^ 53 <= Zpos m1 * 2 ^ 53)%Z by lia.
    assert (Zpos m2 * (q + 1) > 2 ^ 53 * 2 ^ 52)%Z by lia.
    assert (q + 1 > 2 ^ 52)%Z by nia. lia. }
  assert (Hq2 : (q < 2 ^ 54)%Z).
  { assert (Zpos m1 * 2 ^ 53 < 2 ^ 53 * 2 ^ 53)%Z by lia.
    assert (Zpos m2 * q < 2 ^ 52 * 2 ^ 54)%Z by lia.
    nia. }
  replace (IZR (Zpos m1) * powerRZ 2 e1 / (IZR (Zpos m2) * powerRZ 2 e2))
    with (IZR (Zpos m1 * 2 ^ 53) / IZR (Zpos m2) * powerRZ 2 (e1 - e2 - 53)).
  - apply binary_round_aux_correct.
    + exact Hq.
    + apply new_location_locates; lia.
    + destruct q as [|pq|pq]; try lia. cbn [Zdigits2].
      pose proof (digits2_bounds pq) as B.
      set (d := Zpos (digits2_pos pq)) in *.
      assert (53 <= d)%Z.
      { destruct (Z.le_gt_cases 53 d) as [L|G]; [exact L|].
        assert (2 ^ d <= 2 ^ 52)%Z by (apply Z.pow_le_mono_r; lia). lia. }
      assert (d <= 54)%Z.
      { destruct (Z.le_gt_cases d 54) as [L|G]; [exact L|].
        assert (2 ^ 54 <= 2 ^ (d - 1))%Z by (apply Z.pow_le_mono_r; lia). lia. }
      lia.
  - replace (e1 - e2 - 53)%Z with (e1 + (- e2 + - (53)))%Z by lia.
    rewrite !powerRZ_2_add. rewrite mult_IZR.
    rewrite (IZR_pow2 53) by lia.
    rewrite !powerRZ_neg'.
    pose proof (powerRZ_2_pos e2). pose proof (powerRZ_2_pos 53).
    assert (0 < IZR (Zpos m2)) by (apply IZR_lt; lia).
    field. repeat split; lra.
Qed.
Lemma powerRZ_2_mono a b : (a <= b)%Z -> powerRZ 2 a <= powerRZ 2 b.
Proof.
  intros H. replace b with (a + Z.of_nat (Z.to_nat (b - a)))%Z by lia.
  rewrite powerRZ_2_add, powerRZ_2_nat.
  pose proof (powerRZ_2_pos a).
  assert (1 <= 2 ^ Z.to_nat (b - a)) by (apply pow_R1_Rle; lra).
  nra.
Qed.

Lemma powerRZ_2_succ a : powerRZ 2 (a + 1) = 2 * powerRZ 2 a.
Proof. rewrite powerRZ_2_add. simpl. ring. Qed.

Lemma IZR_2_53 : IZR (2 ^ 53) = 2 * IZR (2 ^ 52).
Proof. rewrite <- mult_IZR. reflexivity. Qed.

Lemma IZR_2_52_pos : 0 < IZR (2 ^ 52).
Proof. apply IZR_lt. reflexivity. Qed.

Lemma pnormal_bounds f :
  pnormal f ->
  IZR (2 ^ 52) * powerRZ 2 (SFexp f) <= SF2R f < IZR (2 ^ 53) * powerRZ 2 (SFexp f).
Proof.
  intros (m & e & -> & Hm & He). cbn [SFexp SF2R].
  pose proof (powerRZ_2_pos e).
  assert (IZR (2 ^ 52) <= IZR (Zpos m)) by (apply IZR_le; lia).
  assert (IZR (Zpos m) < IZR (2 ^ 53)) by (apply IZR_lt; lia).
  split; nra.
Qed.

Lemma pnormal_pos f : pnormal f -> 0 < SF2R f.
Proof.
  intros H. pose proof (pnormal_bounds f H).
  pose proof (powerRZ_2_pos (SFexp f)). pose proof IZR_2_52_pos. nra.
Qed.

Lemma SF2R_lt_exp x y :
  pnormal x -> pnormal y -> (SFexp x < SFexp y)%Z -> SF2R x < SF2R y.
Proof.
  intros Hx Hy H.
  pose proof (pnormal_bounds x Hx). pose proof (pnormal_bounds y Hy).
  pose proof (powerRZ_2_mono (SFexp x + 1) (SFexp y) ltac:(lia)) as M.
  rewrite powerRZ_2_succ in M.
  pose proof IZR_2_53. pose proof IZR_2_52_pos.
  pose proof (powerRZ_2_pos (SFexp x)).
  nra.
Qed.

(** On positive normal numbers the comparison of [SpecFloat] is the
    comparison of the values. *)
Lemma SFcompare_pnormal x y :
  pnormal x -> pnormal y ->
  match SFcompare x y with
  | Some Lt => SF2R x < SF2R y
  | Some Eq => x = y
  | Some Gt => SF2R y < SF2R x
  | None => False
  end.
Proof.
  intros Hx Hy.
  pose proof (SF2R_lt_exp x y Hx Hy) as L.
  pose proof (SF2R_lt_exp y x Hy Hx) as G.
  destruct Hx as (m1 & e1 & -> & Hm1 & He1).
  destruct Hy as (m2 & e2 & -> & Hm2 & He2).
  cbn [SFcompare SFexp] in *.
  destruct (Z.compare_spec e1 e2) as [E|E|E].
  - subst e2. change (Pos.compare_cont Eq m1 m2) with (Pos.compare m1 m2).
    pose proof (powerRZ_2_pos e1).
    destruct (Pos.compare_spec m1 m2) as [C|C|C].
    + subst. reflexivity.
    + cbn [SF2R]. assert (IZR (Zpos m1) < IZR (Zpos m2)) by (apply IZR_lt; lia). nra.
    + cbn [SF2R]. assert (IZR (Zpos m2) < IZR (Zpos m1)) by (apply IZR_lt; lia). nra.
  - apply L. exact E.
  - apply G. exact E.
Qed.

Lemma SFleb_of_le x y :
  pnormal x -> pnormal y -> SF2R x <= SF2R y -> SFleb x y = true.
Proof.
  intros Hx Hy H. pose proof (SFcompare_pnormal x y Hx Hy) as C.
  unfold SFleb. destruct (SFcompare x y) as [[]|]; try reflexivity; [lra|contradiction].
Qed.

Lemma SFltb_le x y :
  pnormal x -> pnormal y ->
  if SFltb x y then SF2R x < SF2R y else SF2R y <= SF2R x.
Proof.
  intros Hx Hy. pose proof (SFcompare_pnormal x y Hx Hy) as C.
  unfold SFltb. destruct (SFcompare x y) as [[]|]; try lra; try contradiction.
  subst. lra.
Qed.

(** Rounding to nearest does not cross a representable number: a bound
    that is itself a positive normal number is kept, from above ... *)
Lemma rounds_to_le (v : R) (z f : spec_float) :
  rounds_to v z -> pnormal f -> v <= SF2R f -> SF2R z <= SF2R f.
Proof.
  intros (Hz & n & e & -> & [B1 B2] & U1 & U2) Hf H.
  pose proof (pnormal_bounds f Hf) as [F1 F2].
  destruct Hf as (mf & ef & -> & Hmf & Hef). cbn [SFexp SF2R] in *.
  pose proof (powerRZ_2_pos e) as Pe. pose proof (powerRZ_2_pos ef) as Pf.
  pose proof IZR_2_53 as T. pose proof IZR_2_52_pos as T0.
  destruct (Z.lt_trichotomy ef e) as [L|[E|G]].
  - pose proof (powerRZ_2_mono (ef + 1) e ltac:(lia)) as M.
    rewrite powerRZ_2_succ in M. nra.
  - subst ef.
    assert (IZR (n - 1) < IZR (Zpos mf)) by (rewrite minus_IZR; nra).
    apply lt_IZR in H0.
    assert (IZR n <= IZR (Zpos mf)) by (apply IZR_le; lia). nra.
  - pose proof (powerRZ_2_mono (e + 1) ef ltac:(lia)) as M.
    rewrite powerRZ_2_succ in M.
    assert (IZR n < IZR (2 ^ 53 + 1)) by (rewrite plus_IZR; nra).
    apply lt_IZR in H0.
    assert (IZR n <= IZR (2 ^ 53)) by (apply IZR_le; lia). nra.
Qed.

(** ... and from below. *)
Lemma rounds_to_ge (v : R) (z f : spec_float) :
  rounds_to v z -> pnormal f -> SF2R f <= v -> SF2R f <= SF2R z.
Proof.
  intros (Hz & n & e & -> & [B1 B2] & U1 & U2) Hf H.
  pose proof (pnormal_bounds f Hf) as [F1 F2].
  destruct Hf as (mf & ef & -> & Hmf & Hef). cbn [SFexp SF2R] in *.
  pose proof (powerRZ_2_pos e) as Pe. pose proof (powerRZ_2_pos ef) as Pf.
  pose proof IZR_2_53 as T. pose proof IZR_2_52_pos as T0.
  destruct (Z.lt_trichotomy ef e) as [L|[E|G]].
  - pose proof (powerRZ_2_mono (ef + 1) e ltac:(lia)) as M.
    rewrite powerRZ_2_succ in M.
    assert (IZR (2 ^ 52 - 1) < IZR n) by (rewrite minus_IZR; nra).
    apply lt_IZR in H0.
    assert (IZR (2 ^ 52) <= IZR n) by (apply IZR_le; lia). nra.
  - subst ef.
    assert (IZR (Zpos mf) < IZR (n + 1)) by (rewrite plus_IZR; nra).
    apply lt_IZR in H0.
    assert (IZR (Zpos mf) <= IZR n) by (apply IZR_le; lia). nra.
  - pose proof (powerRZ_2_mono (e + 1) ef ltac:(lia)) as M.
    rewrite powerRZ_2_succ in M. nra.
Qed.

(** A representable number is rounded to itself. *)
Lemma rounds_to_exact (z f : spec_float) :
  rounds_to (SF2R f) z -> pnormal f -> SF2R z = SF2R f.
Proof.
  intros H Hf. apply Rle_antisym.
  - apply (rounds_to_le _ _ _ H Hf). lra.
  - apply (rounds_to_ge _ _ _ H Hf). lra.
Qed.

(** The relative error of rounding to nearest is at most [2 ^ -53]. *)
Lemma rounds_to_error (v : R) (z : spec_float) :
  rounds_to v z ->
  0 < v /\ SF2R z - v <= v / IZR (2 ^ 53) /\ v - SF2R z <= v / IZR (2 ^ 53).
Proof.
  intros (Hz & n & e & -> & [B1 B2] & U1 & U2).
  pose proof (powerRZ_2_pos e) as Pe.
  pose proof IZR_2_53 as T. pose proof IZR_2_52_pos as T0.
  assert (E : powerRZ 2 e / 2 = IZR (2 ^ 52) * powerRZ 2 e / IZR (2 ^ 53)).
  { rewrite T. field. lra. }
  assert (D : IZR (2 ^ 52) * powerRZ 2 e / IZR (2 ^ 53) <= v / IZR (2 ^ 53)).
  { apply Rmult_le_compat_r; [|exact B1].
    apply Rlt_le, Rinv_0_lt_compat. lra. }
  split; [nra|]. split; lra.
Qed.

Lemma pnormal_pow2 (k : Z) :
  (-1022 <= k <= 1023)%Z ->
  pnormal (S754_finite false (2 ^ 52) (k - 52)) /\
  SF2R (S754_finite false (2 ^ 52) (k - 52)) = powerRZ 2 k.
Proof.
  intros Hk. split.
  - exists (2 ^ 52)%positive, (k - 52)%Z. split; [reflexivity|].
    change (Zpos (2 ^ 52)) with (2 ^ 52)%Z. lia.
  - cbn [SF2R]. change (Zpos (2 ^ 52)) with (2 ^ 52)%Z.
    rewrite (IZR_pow2 52) by lia. rewrite <- powerRZ_2_add. f_equal. lia.
Qed.

Lemma SFexp_ge (f : spec_float) (k : Z) :
  pnormal f -> powerRZ 2 k <= SF2R f -> (k - 52 <= SFexp f)%Z.
Proof.
  intros Hf H. pose proof (pnormal_bounds f Hf) as [_ B].
  rewrite (IZR_pow2 53) in B by lia. rewrite <- powerRZ_2_add in B.
  destruct (Z.le_gt_cases (k - 52) (SFexp f)) as [L|G]; [exact L|].
  pose proof (powerRZ_2_mono (53 + SFexp f) k ltac:(lia)). lra.
Qed.

Lemma SFexp_le (f : spec_float) (k : Z) :
  pnormal f -> SF2R f <= powerRZ 2 k -> (SFexp f <= k - 52)%Z.
Proof.
  intros Hf H. pose proof (pnormal_bounds f Hf) as [B _].
  rewrite (IZR_pow2 52) in B by lia. rewrite <- powerRZ_2_add in B.
  destruct (Z.le_gt_cases (SFexp f) (k - 52)) as [L|G]; [exact L|].
  pose proof (powerRZ_2_mono (k + 1) (52 + SFexp f) ltac:(lia)) as M.
  rewrite powerRZ_2_succ in M. pose proof (powerRZ_2_pos k). lra.
Qed.

(** The exponent of the result, from a range of the exact value. *)
Lemma rounds_to_range (v : R) (z : spec_float) (a b : Z) :
  rounds_to v z ->
  (-1022 <= a)%Z -> (b <= 1023)%Z -> (a <= b)%Z ->
  powerRZ 2 a <= v <= powerRZ 2 b ->
  pnormal z /\ (a - 52 <= SFexp z <= b - 52)%Z.
Proof.
  intros H Ha Hb Hab [V1 V2].
  assert (Hz : pnormal z) by (destruct H as [Hz _]; exact Hz).
  split; [exact Hz|].
  destruct (pnormal_pow2 a ltac:(lia)) as [Na Va].
  destruct (pnormal_pow2 b ltac:(lia)) as [Nb Vb].
  split.
  - apply SFexp_ge; [exact Hz|]. rewrite <- Va.
    apply (rounds_to_ge _ _ _ H Na). rewrite Va. exact V1.
  - apply SFexp_le; [exact Hz|]. rewrite <- Vb.
    apply (rounds_to_le _ _ _ H Nb). rewrite Vb. exact V2.
Qed.

End RoundingFacts.

(** *** The primitive operations on positive normal numbers *)

Module Binary64Facts.
Import Reals Lra Psatz Rounding RoundingFacts.
Local Open Scope R_scope.

(** The primitive operations, through their specification. *)
Lemma mul_rounds (x y : float) :
  normal x -> normal y ->
  (-1126 <= SFexp (Prim2SF x) + SFexp (Prim2SF y) <= 917)%Z ->
  rounds_to (valueOf x * valueOf y) (Prim2SF (PrimFloat.mul x y)).
Proof.
  intros Hx Hy He. rewrite FloatAxioms.mul_spec. apply SFmul_correct; assumption.
Qed.

Lemma div_rounds (x y : float) :
  normal x -> normal y ->
  (-1021 <= SFexp (Prim2SF x) - SFexp (Prim2SF y) <= 1022)%Z ->
  rounds_to (valueOf x / valueOf y) (Prim2SF (PrimFloat.div x y)).
Proof.
  intros Hx Hy He. rewrite FloatAxioms.div_spec. apply SFdiv_correct; assumption.
Qed.

Lemma leb_of_le (x y : float) :
  normal x -> normal y -> valueOf x <= valueOf y -> PrimFloat.leb x y = true.
Proof.
  intros Hx Hy H. rewrite FloatAxioms.leb_spec. apply SFleb_of_le; assumption.
Qed.

Lemma is_nan_normal (x : float) : normal x -> PrimFloat.is_nan x = false.
Proof.
  intros (m & e & E & _). unfold PrimFloat.is_nan.
  rewrite FloatAxioms.eqb_spec, E. unfold SFeqb. cbn [SFcompare].
  rewrite Z.compare_refl.
  change (Pos.compare_cont Eq m m) with (Pos.compare m m).
  rewrite Pos.compare_refl. reflexivity.
Qed.

(** [Math.min] of two positive normal numbers is one of them, and at most
    both. *)
Lemma Math_min_normal (a b : float) :
  normal a -> normal b ->
  (Binary64.Math_min a b = a \/ Binary64.Math_min a b = b) /\
  valueOf (Binary64.Math_min a b) <= valueOf a /\
  valueOf (Binary64.Math_min a b) <= valueOf b.
Proof.
  intros Ha Hb. unfold Binary64.Math_min.
  rewrite (is_nan_normal a Ha), (is_nan_normal b Hb). cbn [orb].
  pose proof (SFltb_le _ _ Ha Hb) as L1. pose proof (SFltb_le _ _ Hb Ha) as L2.
  rewrite <- !FloatAxioms.ltb_spec in L1, L2. unfold valueOf.
  destruct (PrimFloat.ltb a b).
  - split; [left; reflexivity|]. lra.
  - destruct (PrimFloat.ltb b a).
    + split; [right; reflexivity|]. lra.
    + destruct (PrimFloat.is_zero a && PrimFloat.get_sign b)%bool.
      * split; [right; reflexivity|]. lra.
      * split; [left; reflexivity|]. lra.
Qed.

Lemma iter_xO (p k : positive) :
  Zpos (Pos.iter xO p k) = (Zpos p * 2 ^ Zpos k)%Z.
Proof.
  induction k as [|k IH] using Pos.peano_ind.
  - simpl. lia.
  - rewrite Pos.iter_succ, Pos2Z.inj_xO, IH, Pos2Z.inj_succ, Z.pow_succ_r by lia.
    lia.
Qed.

Lemma shl_align_spec (p : positive) (ex ex' : Z) :
  (ex' <= ex)%Z ->
  snd (shl_align p ex ex') = ex' /\
  Zpos (fst (shl_align p ex ex')) = (Zpos p * 2 ^ (ex - ex'))%Z.
Proof.
  intros H. unfold shl_align.
  destruct (ex' - ex)%Z as [|k|k] eqn:E; cbn [fst snd].
  - split; [lia|]. replace (ex - ex')%Z with 0%Z by lia. simpl. lia.
  - lia.
  - split; [reflexivity|]. rewrite iter_xO. f_equal. f_equal. lia.
Qed.

(** An integer below [2 ^ 53] is converted without error. *)
Lemma ofZ_exact (p : positive) :
  (Zpos p < 2 ^ 53)%Z ->
  normal (Binary64.ofZ (Zpos p)) /\
  valueOf (Binary64.ofZ (Zpos p)) = IZR (Zpos p).
Proof.
  intros Hp. unfold normal, valueOf, Binary64.ofZ.
  rewrite FloatAxioms.of_uint63_spec, Uint63.of_Z_spec.
  rewrite Z.mod_small by (change Uint63.wB with (2 ^ 63)%Z; lia).
  cbn [binary_normalize]. unfold binary_round.
  pose proof (digits2_bounds p) as B.
  set (d := Zpos (digits2_pos p)) in *.
  assert (Hd : (1 <= d <= 53)%Z).
  { split; [unfold d; lia|].
    destruct (Z.le_gt_cases d 53) as [L|G]; [exact L|].
    assert (2 ^ 53 <= 2 ^ (d - 1))%Z by (apply Z.pow_le_mono_r; lia). lia. }
  rewrite fexp_normal by lia.
  destruct (shl_align_spec p 0 (d + 0 - 53) ltac:(lia)) as [S1 S2].
  destruct (shl_align p 0 (d + 0 - 53)) as [mz ez]. cbn [fst snd] in *. subst ez.
  replace (0 - (d + 0 - 53))%Z with (53 - d)%Z in S2 by lia.
  assert (Hmz : (2 ^ 52 <= Zpos mz < 2 ^ 53)%Z).
  { rewrite S2.
    replace (2 ^ 52)%Z with (2 ^ (d - 1) * 2 ^ (53 - d))%Z
      by (rewrite <- Z.pow_add_r by lia; f_equal; lia).
    replace (2 ^ 53)%Z with (2 ^ d * 2 ^ (53 - d))%Z
      by (rewrite <- Z.pow_add_r by lia; f_equal; lia).
    assert (0 < 2 ^ (53 - d))%Z by (apply Z.pow_pos_nonneg; lia).
    split; nia. }
  assert (V : IZR (Zpos mz) * powerRZ 2 (d + 0 - 53) = IZR (Zpos p)).
  { rewrite S2, mult_IZR, (IZR_pow2 (53 - d)) by lia.
    rewrite Rmult_assoc, <- powerRZ_2_add.
    replace (53 - d + (d + 0 - 53))%Z with 0%Z by lia. simpl. ring. }
  assert (Hf : pnormal (S754_finite false mz (d + 0 - 53))).
  { exists mz, (d + 0 - 53)%Z. split; [reflexivity|]. split; lia. }
  assert (Hr : rounds_to (SF2R (S754_finite false mz (d + 0 - 53)))
                 (binary_round_aux prec emax false (Zpos mz) (d + 0 - 53) loc_Exact)).
  { cbn [SF2R]. apply binary_round_aux_correct.
    - lia.
    - reflexivity.
    - rewrite (Zdigits2_unique (Zpos mz) 53) by (simpl; lia). lia. }
  split.
  - destruct Hr as [Hz _]. exact Hz.
  - rewrite (rounds_to_exact _ _ Hr Hf). exact V.
Qed.

(** The denominator of an integral value. *)
Lemma one_normal :
  Prim2SF (Binary64.ofZ 1) = S754_finite false (2 ^ 52) (-52).
Proof. vm_compute. reflexivity. Qed.

(** A pixel count below [2 ^ 53] is represented exactly. *)
Lemma pixels_exact (n : N) :
  (0 < n < 2 ^ 53)%N ->
  normal (Tools.pixels (T:=float) n) /\
  valueOf (Tools.pixels (T:=float) n) = IZR (Z.of_N n) /\
  (-52 <= SFexp (Prim2SF (Tools.pixels (T:=float) n)) <= 0)%Z.
Proof.
  intros Hn. destruct n as [|p]; [lia|].
  assert (Hp : (Zpos p < 2 ^ 53)%Z) by lia.
  destruct (ofZ_exact p Hp) as [Np Vp].
  change (Tools.pixels (T:=float) (Npos p))
    with (PrimFloat.div (Binary64.ofZ (Zpos p)) (Binary64.ofZ 1)).
  change (Z.of_N (Npos p)) with (Zpos p).
  assert (N1 : normal (Binary64.ofZ 1)).
  { unfold normal. rewrite one_normal. exists (2 ^ 52)%positive, (-52)%Z.
    split; [reflexivity|]. split; [|lia].
    change (Zpos (2 ^ 52)) with (2 ^ 52)%Z. lia. }
  assert (V1 : valueOf (Binary64.ofZ 1) = 1).
  { unfold valueOf. rewrite one_normal. cbn [SF2R].
    change (Zpos (2 ^ 52)) with (2 ^ 52)%Z.
    rewrite (IZR_pow2 52) by lia. rewrite <- powerRZ_2_add. reflexivity. }
  assert (P1 : 1 <= IZR (Zpos p)) by (apply IZR_le; lia).
  assert (P2 : IZR (Zpos p) <= powerRZ 2 53).
  { rewrite <- (IZR_pow2 53) by lia. apply IZR_le. lia. }
  assert (Ep : (-52 <= SFexp (Prim2SF (Binary64.ofZ (Zpos p))) <= 1)%Z).
  { split.
    - apply (SFexp_ge _ 0 Np). fold (valueOf (Binary64.ofZ (Zpos p))).
      rewrite Vp. simpl. exact P1.
    - apply (SFexp_le _ 53 Np). fold (valueOf (Binary64.ofZ (Zpos p))).
      rewrite Vp. exact P2. }
  assert (Hr : rounds_to (valueOf (Binary64.ofZ (Zpos p)) / valueOf (Binary64.ofZ 1))
                 (Prim2SF (PrimFloat.div (Binary64.ofZ (Zpos p)) (Binary64.ofZ 1)))).
  { apply div_rounds; [exact Np|exact N1|].
    rewrite one_normal. cbn [SFexp]. lia. }
  rewrite V1 in Hr. replace (valueOf (Binary64.ofZ (Zpos p)) / 1)
    with (SF2R (Prim2SF (Binary64.ofZ (Zpos p)))) in Hr by (unfold valueOf; field).
  pose proof (rounds_to_exact _ _ Hr Np) as Ex.
  assert (Nq : normal (PrimFloat.div (Binary64.ofZ (Zpos p)) (Binary64.ofZ 1))).
  { destruct Hr as [Hz _]. exact Hz. }
  split; [exact Nq|]. split.
  - unfold valueOf at 1. rewrite Ex. exact Vp.
  - split.
    + apply (SFexp_ge _ 0 Nq). rewrite Ex. fold (valueOf (Binary64.ofZ (Zpos p))).
      rewrite Vp. simpl. exact P1.
    + assert (Hlt : IZR (Zpos p) <= IZR (2 ^ 53 - 1)) by (apply IZR_le; lia).
      pose proof (pnormal_bounds _ Nq) as [B1 _].
      rewrite Ex in B1. fold (valueOf (Binary64.ofZ (Zpos p))) in B1. rewrite Vp in B1.
      set (e := SFexp (Prim2SF (PrimFloat.div (Binary64.ofZ (Zpos p)) (Binary64.ofZ 1)))) in *.
      destruct (Z.le_gt_cases e 0) as [L|G]; [exact L|].
      pose proof (powerRZ_2_mono 1 e ltac:(lia)) as M.
      simpl (powerRZ 2 1) in M.
      rewrite minus_IZR in Hlt. rewrite IZR_2_53 in Hlt.
      pose proof IZR_2_52_pos. nra.
Qed.

Lemma normal_compare (a b : float) :
  normal a -> normal b ->
  match SFcompare (Prim2SF a) (Prim2SF b) with
  | Some Lt => valueOf a < valueOf b
  | Some Eq => a = b
  | Some Gt => valueOf b < valueOf a
  | None => False
  end.
Proof.
  intros Ha Hb. pose proof (SFcompare_pnormal _ _ Ha Hb) as C.
  destruct (SFcompare (Prim2SF a) (Prim2SF b)) as [[]|]; try exact C.
  apply FloatAxioms.Prim2SF_inj. exact C.
Qed.

Lemma Math_min_same (a : float) : normal a -> Binary64.Math_min a a = a.
Proof.
  intros Ha. destruct (Math_min_normal a a Ha Ha) as [[E|E] _]; exact E.
Qed.

(** [Math.min] returns the argument that compares below or equal. *)
Lemma Math_min_left (a b : float) :
  normal a -> normal b -> PrimFloat.leb a b = true -> Binary64.Math_min a b = a.
Proof.
  intros Ha Hb H. rewrite FloatAxioms.leb_spec in H. unfold SFleb in H.
  pose proof (normal_compare a b Ha Hb) as C.
  destruct (SFcompare (Prim2SF a) (Prim2SF b)) as [[]|] eqn:E; try discriminate.
  - subst b. apply Math_min_same. exact Ha.
  - unfold Binary64.Math_min.
    rewrite (is_nan_normal a Ha), (is_nan_normal b Hb). cbn [orb].
    rewrite FloatAxioms.ltb_spec. unfold SFltb. rewrite E. reflexivity.
Qed.

Lemma Math_min_right (a b : float) :
  normal a -> normal b -> PrimFloat.leb b a = true -> Binary64.Math_min a b = b.
Proof.
  intros Ha Hb H. rewrite FloatAxioms.leb_spec in H. unfold SFleb in H.
  pose proof (normal_compare b a Hb Ha) as C.
  destruct (SFcompare (Prim2SF b) (Prim2SF a)) as [[]|] eqn:E; try discriminate.
  - subst b. apply Math_min_same. exact Ha.
  - unfold Binary64.Math_min.
    rewrite (is_nan_normal a Ha), (is_nan_normal b Hb). cbn [orb].
    pose proof (SFltb_le _ _ Ha Hb) as L. rewrite <- FloatAxioms.ltb_spec in L.
    destruct (PrimFloat.ltb a b); [unfold valueOf in C; lra|].
    rewrite FloatAxioms.ltb_spec. unfold SFltb. rewrite E. reflexivity.
Qed.

Lemma leb_total (a b : float) :
  normal a -> normal b ->
  PrimFloat.leb a b = true \/ PrimFloat.leb b a = true.
Proof.
  intros Ha Hb. destruct (Rle_or_lt (valueOf a) (valueOf b)) as [L|G].
  - left. apply leb_of_le; assumption.
  - right. apply leb_of_le; try assumption. lra.
Qed.

End Binary64Facts.

(** *** The scaled sides and the page *)

Module ScalingFacts.
Import Tools Reals Lra Psatz Rounding RoundingFacts Binary64Facts.
Local Open Scope R_scope.

(** The value of a positive normal number, from a range of its exponent. *)
Lemma normal_value_range (W : float) (lo hi : Z) :
  normal W -> (lo <= SFexp (Prim2SF W) <= hi)%Z ->
  powerRZ 2 (52 + lo) <= valueOf W < powerRZ 2 (53 + hi).
Proof.
  intros HW [E1 E2]. pose proof (pnormal_bounds _ HW) as [B1 B2].
  rewrite (IZR_pow2 52) in B1 by lia. rewrite (IZR_pow2 53) in B2 by lia.
  rewrite <- powerRZ_2_add in B1, B2. unfold valueOf.
  pose proof (powerRZ_2_mono (52 + lo) (52 + SFexp (Prim2SF W)) ltac:(lia)).
  pose proof (powerRZ_2_mono (53 + SFexp (Prim2SF W)) (53 + hi) ltac:(lia)).
  lra.
Qed.

(** A page side [S], with mantissa [m] at exponent [-43], lies in
    [2 ^ 9, 2 ^ 10). *)
Lemma side_normal (S : float) (m : positive) :
  Prim2SF S = S754_finite false m (-43) ->
  (2 ^ 52 <= Zpos m < 2 ^ 53)%Z ->
  normal S /\ powerRZ 2 9 <= valueOf S < powerRZ 2 10.
Proof.
  intros HS Hm.
  assert (N : normal S).
  { unfold normal. rewrite HS. exists m, (-43)%Z.
    split; [reflexivity|]. split; [exact Hm|lia]. }
  split; [exact N|].
  apply (normal_value_range S (-43) (-43) N).
  rewrite HS. cbn [SFexp]. lia.
Qed.

(** A pixel count [W] below [2 ^ 53] is at least one. *)
Lemma pixel_value (W : float) :
  normal W -> (-52 <= SFexp (Prim2SF W) <= 0)%Z ->
  1 <= valueOf W < powerRZ 2 53.
Proof. intros HW EW. exact (normal_value_range W (-52) 0 HW EW). Qed.

(** The quotient [S / W] is the exact quotient rounded to nearest, and a
    positive normal number. *)
Lemma quotient_rounds (S W : float) (m : positive) :
  Prim2SF S = S754_finite false m (-43) ->
  (2 ^ 52 <= Zpos m < 2 ^ 53)%Z ->
  normal W -> (-52 <= SFexp (Prim2SF W) <= 0)%Z ->
  rounds_to (valueOf S / valueOf W) (Prim2SF (PrimFloat.div S W)).
Proof.
  intros HS Hm HW EW. destruct (side_normal S m HS Hm) as [NS _].
  apply div_rounds; [exact NS|exact HW|].
  rewrite HS. cbn [SFexp]. lia.
Qed.

Lemma quotient_normal (S W : float) (m : positive) :
  Prim2SF S = S754_finite false m (-43) ->
  (2 ^ 52 <= Zpos m < 2 ^ 53)%Z ->
  normal W -> (-52 <= SFexp (Prim2SF W) <= 0)%Z ->
  normal (PrimFloat.div S W) /\
  (-96 <= SFexp (Prim2SF (PrimFloat.div S W)) <= -42)%Z.
Proof.
  intros HS Hm HW EW.
  apply (rounds_to_range _ _ (-44) 10 (quotient_rounds S W m HS Hm HW EW)); try lia.
  destruct (side_normal S m HS Hm) as [_ [S1 S2]].
  destruct (pixel_value W HW EW) as [W1 W2].
  assert (E : powerRZ 2 9 = powerRZ 2 (-44) * powerRZ 2 53).
  { rewrite <- powerRZ_2_add. reflexivity. }
  pose proof (powerRZ_2_pos (-44)). pose proof (powerRZ_2_pos 9).
  set (q := valueOf S / valueOf W).
  assert (Q : q * valueOf W = valueOf S) by (unfold q; field; lra).
  assert (Q0 : 0 < q) by (unfold q; apply Rdiv_gt_iff; lra).
  split; nra.
Qed.

(** The product of the pixel count and the scale factor is the exact
    product rounded to nearest. *)
Lemma scaled_rounds (W s : float) :
  normal W -> (-52 <= SFexp (Prim2SF W) <= 0)%Z ->
  normal s -> (-96 <= SFexp (Prim2SF s) <= -42)%Z ->
  rounds_to (valueOf W * valueOf s) (Prim2SF (PrimFloat.mul W s)).
Proof. intros HW EW Hs Es. apply mul_rounds; [exact HW|exact Hs|lia]. Qed.

(** The product rounds to at most the successor of the page side as soon
    as the factor is at most the rounded quotient. *)
Lemma scaled_le_next_up (S W s : float) (m : positive) :
  Prim2SF S = S754_finite false m (-43) ->
  Prim2SF (next_up S) = S754_finite false (m + 1) (-43) ->
  (2 ^ 52 <= Zpos m)%Z -> (Zpos m + 1 < 2 ^ 53)%Z ->
  normal W -> (-52 <= SFexp (Prim2SF W) <= 0)%Z ->
  normal s -> (-96 <= SFexp (Prim2SF s) <= -42)%Z ->
  valueOf s <= valueOf (PrimFloat.div S W) ->
  PrimFloat.leb (PrimFloat.mul W s) (next_up S) = true.
Proof.
  intros HS HU Hm0 Hm1 HW EW Hs Es Hle.
  assert (Hm : (2 ^ 52 <= Zpos m < 2 ^ 53)%Z) by lia.
  assert (NU : normal (next_up S)).
  { unfold normal. rewrite HU. exists (m + 1)%positive, (-43)%Z.
    split; [reflexivity|]. split; lia. }
  pose proof (scaled_rounds W s HW EW Hs Es) as Hr.
  apply leb_of_le; [destruct Hr as [Hz _]; exact Hz|exact NU|].
  apply (rounds_to_le _ _ _ Hr NU).
  destruct (rounds_to_error _ _ (quotient_rounds S W m HS Hm HW EW)) as [Q0 [Q1 _]].
  fold (valueOf (PrimFloat.div S W)) in Q1.
  destruct (pixel_value W HW EW) as [W1 W2].
  set (q := valueOf S / valueOf W) in *.
  assert (Q : q * valueOf W = valueOf S) by (unfold q; field; lra).
  assert (VU : SF2R (Prim2SF (next_up S)) = valueOf S + powerRZ 2 (-43)).
  { rewrite HU. unfold valueOf. rewrite HS. cbn [SF2R].
    rewrite Pos2Z.inj_add, plus_IZR. ring. }
  rewrite VU.
  destruct (side_normal S m HS Hm) as [_ [_ S2]].
  assert (E : powerRZ 2 10 = IZR (2 ^ 53) * powerRZ 2 (-43)).
  { rewrite (IZR_pow2 53) by lia. rewrite <- powerRZ_2_add. reflexivity. }
  pose proof (powerRZ_2_pos (-43)) as T.
  pose proof IZR_2_52_pos as T0. pose proof IZR_2_53 as T1.
  assert (D : valueOf S / IZR (2 ^ 53) <= powerRZ 2 (-43)).
  { apply Rlt_le, Rdiv_lt_iff; lra. }
  assert (Qd : q / IZR (2 ^ 53) * valueOf W = valueOf S / IZR (2 ^ 53)).
  { rewrite <- Q. field. lra. }
  pose proof (pnormal_pos _ Hs) as Ps. fold (valueOf s) in Ps.
  nra.
Qed.

(** Multiplying the rounded quotient back gives at least the predecessor
    of the page side. *)
Lemma scaled_ge_next_down (S W : float) (m : positive) :
  Prim2SF S = S754_finite false m (-43) ->
  Prim2SF (next_down S) = S754_finite false (m - 1) (-43) ->
  (2 ^ 52 < Zpos m < 2 ^ 53)%Z ->
  normal W -> (-52 <= SFexp (Prim2SF W) <= 0)%Z ->
  PrimFloat.leb (next_down S) (PrimFloat.mul W (PrimFloat.div S W)) = true.
Proof.
  intros HS HD Hm1 HW EW.
  assert (Hm : (2 ^ 52 <= Zpos m < 2 ^ 53)%Z) by lia.
  assert (ND : normal (next_down S)).
  { unfold normal. rewrite HD. exists (m - 1)%positive, (-43)%Z.
    split; [reflexivity|]. split; lia. }
  destruct (quotient_normal S W m HS Hm HW EW) as [Hs Es].
  pose proof (scaled_rounds W _ HW EW Hs Es) as Hr.
  apply leb_of_le; [exact ND|destruct Hr as [Hz _]; exact Hz|].
  apply (rounds_to_ge _ _ _ Hr ND).
  destruct (rounds_to_error _ _ (quotient_rounds S W m HS Hm HW EW)) as [Q0 [_ Q1]].
  fold (valueOf (PrimFloat.div S W)) in Q1.
  destruct (pixel_value W HW EW) as [W1 W2].
  set (q := valueOf S / valueOf W) in *.
  assert (Q : q * valueOf W = valueOf S) by (unfold q; field; lra).
  assert (VD : SF2R (Prim2SF (next_down S)) = valueOf S - powerRZ 2 (-43)).
  { rewrite HD. unfold valueOf. rewrite HS. cbn [SF2R].
    rewrite Pos2Z.inj_sub by lia. rewrite minus_IZR. ring. }
  rewrite VD.
  destruct (side_normal S m HS Hm) as [_ [_ S2]].
  assert (E : powerRZ 2 10 = IZR (2 ^ 53) * powerRZ 2 (-43)).
  { rewrite (IZR_pow2 53) by lia. rewrite <- powerRZ_2_add. reflexivity. }
  pose proof (powerRZ_2_pos (-43)) as T.
  pose proof IZR_2_52_pos as T0. pose proof IZR_2_53 as T1.
  assert (D : valueOf S / IZR (2 ^ 53) <= powerRZ 2 (-43)).
  { apply Rlt_le, Rdiv_lt_iff; lra. }
  assert (Qd : q / IZR (2 ^ 53) * valueOf W = valueOf S / IZR (2 ^ 53)).
  { rewrite <- Q. field. lra. }
  nra.
Qed.


(** Two quantities known up to the relative error [u] have a quotient
    known up to the relative error [4 * u]. *)
Lemma ratio_error (c d X Y u : R) :
  0 < c -> 0 < d -> 0 <= u <= / 8 ->
  c - c * u <= X <= c + c * u ->
  d - d * u <= Y <= d + d * u ->
  Rabs (X / Y - c / d) <= c / d * (4 * u).
Proof.
  intros Hc Hd [Hu0 Hu1] [X1 X2] [Y1 Y2].
  set (r := c / d).
  assert (Hr : 0 < r) by (unfold r; apply Rdiv_gt_iff; lra).
  assert (Ec : c = r * d) by (unfold r; field; lra).
  assert (HY : 0 < Y) by nra.
  assert (K : 0 < r * d) by (apply Rmult_lt_0_compat; assumption).
  assert (X1' : r * d * (1 - u) <= X) by (rewrite <- Ec; lra).
  assert (X2' : X <= r * d * (1 + u)) by (rewrite <- Ec; lra).
  assert (U : X <= (r + r * (4 * u)) * Y).
  { assert (A1 : 1 + u <= (1 + 4 * u) * (1 - u)) by nra.
    assert (A2 : r * d * (1 + u) <= r * d * ((1 + 4 * u) * (1 - u)))
      by (apply Rmult_le_compat_l; lra).
    assert (A3 : r * (1 + 4 * u) * (d - d * u) <= r * (1 + 4 * u) * Y).
    { apply Rmult_le_compat_l; [|lra].
      apply Rmult_le_pos; lra. }
    lra. }
  assert (L : (r - r * (4 * u)) * Y <= X).
  { assert (A1 : (1 - 4 * u) * (1 + u) <= 1 - u) by nra.
    assert (A2 : r * d * ((1 - 4 * u) * (1 + u)) <= r * d * (1 - u))
      by (apply Rmult_le_compat_l; lra).
    assert (A3 : r * (1 - 4 * u) * Y <= r * (1 - 4 * u) * (d + d * u)).
    { apply Rmult_le_compat_l; [|lra].
      apply Rmult_le_pos; lra. }
    lra. }
  assert (E : X / Y - r = (X - r * Y) / Y) by (field; lra).
  rewrite E. apply Rabs_le. split.
  - apply Rmult_le_reg_r with Y; [exact HY|].
    replace ((X - r * Y) / Y * Y) with (X - r * Y) by (field; lra). nra.
  - apply Rmult_le_reg_r with Y; [exact HY|].
    replace ((X - r * Y) / Y * Y) with (X - r * Y) by (field; lra). nra.
Qed.

(** The page sides of the source in binary64, with the numbers next above
    and next below them. *)
Lemma A4_WIDTH_binary64 :
  Prim2SF (A4_WIDTH (T:=float)) = S754_finite false 5236107467934400 (-43) /\
  Prim2SF (next_up (A4_WIDTH (T:=float))) = S754_finite false (5236107467934400 + 1) (-43) /\
  Prim2SF (next_down (A4_WIDTH (T:=float))) = S754_finite false (5236107467934400 - 1) (-43).
Proof. repeat split; vm_compute; reflexivity. Qed.

Lemma A4_HEIGHT_binary64 :
  Prim2SF (A4_HEIGHT (T:=float)) = S754_finite false 7405351990364366 (-43) /\
  Prim2SF (next_up (A4_HEIGHT (T:=float))) = S754_finite false (7405351990364366 + 1) (-43) /\
  Prim2SF (next_down (A4_HEIGHT (T:=float))) = S754_finite false (7405351990364366 - 1) (-43).
Proof. repeat split; vm_compute; reflexivity. Qed.

(** C4 (amended). For an image of positive pixel width [w] and height
    [h], both below [2 ^ 53] so that binary64 holds them exactly, the
    converter scales both sides by the one factor
    [s = min(A4_WIDTH / w, A4_HEIGHT / h)], computed in binary64; the
    scaled width [w * s] is at most the binary64 number next above the
    page width, the scaled height [h * s] is at most the binary64 number
    next above the page height, and the ratio of the scaled width to the
    scaled height differs from [w / h] by a relative error of at most
    [2 ^ -51]. *)
Theorem fit_within_page_binary64 (w h : N) :
  (0 < w < 2 ^ 53)%N -> (0 < h < 2 ^ 53)%N ->
  let W := pixels (T:=float) w in
  let Ht := pixels (T:=float) h in
  let s := min (div A4_WIDTH W) (div A4_HEIGHT Ht) in
  fitToA4 W Ht = (mul W s, mul Ht s) /\
  PrimFloat.leb (mul W s) (next_up A4_WIDTH) = true /\
  PrimFloat.leb (mul Ht s) (next_up A4_HEIGHT) = true /\
  valueOf W = IZR (Z.of_N w) /\
  valueOf Ht = IZR (Z.of_N h) /\
  Rabs (valueOf (mul W s) / valueOf (mul Ht s) - valueOf W / valueOf Ht)
    <= valueOf W / valueOf Ht / IZR (2 ^ 51).
Proof.
  intros Hw Hh W Ht s.
  destruct (pixels_exact w Hw) as [NW [VW EW]].
  destruct (pixels_exact h Hh) as [NH [VH EH]].
  fold W in NW, VW, EW. fold Ht in NH, VH, EH.
  destruct A4_WIDTH_binary64 as [PW [PWu _]].
  destruct A4_HEIGHT_binary64 as [PH [PHu _]].
  assert (MW : (2 ^ 52 <= Zpos 5236107467934400 < 2 ^ 53)%Z) by (simpl; lia).
  assert (MH : (2 ^ 52 <= Zpos 7405351990364366 < 2 ^ 53)%Z) by (simpl; lia).
  destruct (quotient_normal _ _ _ PW MW NW EW) as [Na Ea].
  destruct (quotient_normal _ _ _ PH MH NH EH) as [Nb Eb].
  set (a := PrimFloat.div A4_WIDTH W) in *.
  set (b := PrimFloat.div A4_HEIGHT Ht) in *.
  change s with (Binary64.Math_min a b).
  change s with (Binary64.Math_min a b) in *. clear s.
  destruct (Math_min_normal a b Na Nb) as [Hs [La Lb]].
  set (s := Binary64.Math_min a b) in *.
  assert (Ns : normal s /\ (-96 <= SFexp (Prim2SF s) <= -42)%Z).
  { destruct Hs as [->| ->]; split; assumption. }
  destruct Ns as [Ns Es].
  split; [reflexivity|].
  split; [|split].
  - apply (scaled_le_next_up _ W s _ PW PWu); try assumption; simpl; lia.
  - apply (scaled_le_next_up _ Ht s _ PH PHu); try assumption; simpl; lia.
  - split; [exact VW|]. split; [exact VH|].
    destruct (rounds_to_error _ _ (scaled_rounds W s NW EW Ns Es)) as [X0 [X1 X2]].
    destruct (rounds_to_error _ _ (scaled_rounds Ht s NH EH Ns Es)) as [Y0 [Y1 Y2]].
    change (mul W s) with (PrimFloat.mul W s).
    change (mul Ht s) with (PrimFloat.mul Ht s).
    fold (valueOf (PrimFloat.mul W s)) in X1, X2.
    fold (valueOf (PrimFloat.mul Ht s)) in Y1, Y2.
    pose proof (pnormal_pos _ Ns) as Ps. fold (valueOf s) in Ps.
    pose proof (pnormal_pos _ NW) as PWp. fold (valueOf W) in PWp.
    pose proof (pnormal_pos _ NH) as PHp. fold (valueOf Ht) in PHp.
    replace (valueOf W / valueOf Ht)
      with (valueOf W * valueOf s / (valueOf Ht * valueOf s)) by (field; lra).
    assert (E51 : / IZR (2 ^ 51) = 4 * / IZR (2 ^ 53)).
    { replace (IZR (2 ^ 53)) with (4 * IZR (2 ^ 51)) by (rewrite <- mult_IZR; reflexivity).
      assert (0 < IZR (2 ^ 51)) by (apply IZR_lt; reflexivity).
      field. lra. }
    unfold Rdiv at 3. rewrite E51.
    assert (U : 0 <= / IZR (2 ^ 53) <= / 8).
    { pose proof IZR_2_52_pos. pose proof IZR_2_53.
      split.
      - apply Rlt_le, Rinv_0_lt_compat. lra.
      - apply Rinv_le_contravar; [lra|].
        replace 8 with (IZR 8) by reflexivity. apply IZR_le. simpl. lia. }
    apply ratio_error; try assumption; unfold Rdiv in *; lra.
Qed.

Lemma fit_within_page_binary64_witness :
  let W := pixels (T:=float) 285 in
  let Ht := pixels (T:=float) 285 in
  let s := min (div A4_WIDTH W) (div A4_HEIGHT Ht) in
  fitToA4 W Ht = (mul W s, mul Ht s) /\
  PrimFloat.leb (mul W s) (next_up A4_WIDTH) = true /\
  PrimFloat.leb (mul Ht s) (next_up A4_HEIGHT) = true /\
  valueOf W = IZR (Z.of_N 285) /\
  valueOf Ht = IZR (Z.of_N 285) /\
  Rabs (valueOf (mul W s) / valueOf (mul Ht s) - valueOf W / valueOf Ht)
    <= valueOf W / valueOf Ht / IZR (2 ^ 51).
Proof.
  apply (fit_within_page_binary64 285 285); split; reflexivity.
Defined.

Local Close Scope R_scope.

(** The constants of the source in binary64. *)
Lemma binary64_constants :
  Binary64.literal 2.83465 = 0x1.6ad5cfaacd9e8p+1%float /\
  A4_WIDTH (T:=float) = 0x1.29a3645a1cacp+9%float /\
  A4_HEIGHT (T:=float) = 0x1.a4f20ded288cep+9%float.
Proof. repeat split; evaluate. Qed.

(** C4, counterexample: in binary64, which is what the converter computes
    in, a 285 x 285 image is given a width above the page width, and a
    16 x 23 image a height above the page height (by one unit in the last
    place). *)
Lemma scaled_size_exceeds_page_in_binary64 :
  PrimFloat.leb (fst (fitToA4 (T:=float) (pixels 285) (pixels 285)))
                A4_WIDTH = false /\
  PrimFloat.ltb A4_WIDTH
                (fst (fitToA4 (T:=float) (pixels 285) (pixels 285))) = true /\
  PrimFloat.leb (snd (fitToA4 (T:=float) (pixels 16) (pixels 23)))
                A4_HEIGHT = false /\
  PrimFloat.ltb A4_HEIGHT
                (snd (fitToA4 (T:=float) (pixels 16) (pixels 23))) = true.
Proof. repeat split; evaluate. Qed.

(** The 1000 x 2000 image of the specification fits in binary64 too. *)
Lemma example_1000x2000_binary64 :
  fitToA4 (T:=float) (pixels 1000) (pixels 2000) =
    (0x1.a4f20ded288cep+8%float, 0x1.a4f20ded288cep+9%float) /\
  PrimFloat.leb (fst (fitToA4 (T:=float) (pixels 1000) (pixels 2000)))
                A4_WIDTH = true /\
  PrimFloat.leb (snd (fitToA4 (T:=float) (pixels 1000) (pixels 2000)))
                A4_HEIGHT = true.
Proof. repeat split; evaluate. Qed.

End ScalingFacts.

(** *** The converter on concrete batches *)

Module ConverterExamples.
Import Tools ConverterSpec ConverterFacts Inputs.

Lemma one_page_per_image_witness :
  exists pdf : jsPDF.t float,
    convertImagesToPdf readByName decode1000x2000 three = Some pdf /\
    List.length (jsPDF.output pdf) = List.length three /\
    jsPDF.addPageCalls pdf = (List.length three - 1)%nat /\
    forall i image,
      nth_error three i = Some image ->
      exists pl,
        placementOf readByName decode1000x2000 image = Some pl /\
        nth_error (jsPDF.output pdf) i = Some [pl].
Proof.
  apply (one_page_per_image (T:=float) readByName decode1000x2000 three).
  - discriminate.
  - intros image _. unfold decodes, readByName, decode1000x2000. eauto.
Defined.

(** One image gives one page, three images give three pages in input
    order. *)
Lemma single_and_three_images :
  option_map (fun pdf => List.length (jsPDF.output pdf))
    (convertImagesToPdf (T:=float) readByName decode1000x2000
       [mkFile "a.jpg" "image/jpeg" []]) = Some 1%nat /\
  option_map
    (fun pdf => List.map (List.map (@jsPDF.imageData float)) (jsPDF.output pdf))
    (convertImagesToPdf (T:=float) readByName decode1000x2000 three) =
  Some [[lit "data:a.jpg"]; [lit "data:b.jpg"]; [lit "data:c.jpg"]].
Proof. split; evaluate. Qed.

End ConverterExamples.

(* ================================================================== *)
(** ** The memory monitor *)

Module MemoryMonitorFacts.
Import MemoryMonitor.

Local Open Scope float_scope.

Lemma threshold_value :
  memoryLimit constructor * criticalThreshold constructor = 471859200 /\
  Binary64.literal 0.9 * 500 * 1024 * 1024 = 471859200.
Proof. split; evaluate. Qed.

(** The literal [0.9] and the limit [500 * 1024 * 1024] in binary64. *)
Lemma monitor_constants :
  criticalThreshold constructor = 0x1.ccccccccccccdp-1 /\
  memoryLimit constructor = 524288000.
Proof. split; evaluate. Qed.

(** The binary64 threshold is the exact value of 90% of 500 MiB. *)
Lemma threshold_exact : (0.9 * (500 * 1024 * 1024) == 471859200)%Q.
Proof. reflexivity. Qed.

(** C8. [isMemoryCritical] is true exactly when there is a heap sample and
    the sampled [usedJSHeapSize] is strictly above
    0.9 * 500 * 1024 * 1024 = 471859200 bytes. *)
Theorem isMemoryCritical_iff_above_threshold (performance_memory : option MemoryInfo) :
  Binary64.literal 0.9 * 500 * 1024 * 1024 = 471859200 /\
  (isMemoryCritical constructor performance_memory = true <->
   exists memory,
     performance_memory = Some memory /\
     (Binary64.literal 0.9 * 500 * 1024 * 1024 <? usedJSHeapSize memory) = true).
Proof.
  destruct threshold_value as [E1 E2]. split; [exact E2|].
  rewrite E2. unfold isMemoryCritical.
  destruct performance_memory as [memory|].
  - rewrite E1. split.
    + intros K. exists memory. split; [reflexivity | exact K].
    + intros [m [Em K]]. inversion Em; subst. exact K.
  - split; [discriminate | intros [m [Em _]]; discriminate Em].
Qed.

Lemma isMemoryCritical_samples :
  isMemoryCritical constructor (Some {| usedJSHeapSize := 471859201 |}) = true /\
  isMemoryCritical constructor (Some {| usedJSHeapSize := 471859200 |}) = false /\
  isMemoryCritical constructor None = false.
Proof. repeat split; evaluate. Qed.

End MemoryMonitorFacts.

(* ================================================================== *)
(** ** More on the validator: signatures, redundancy, acceptance *)

Module SignatureFacts.
Import FileValidator ValidatorSpec ValidatorFacts SignatureSpec.

Lemma endsWith_suffix (s p : jsstring) :
  endsWith s p = true <-> exists t, s = t ++ p.
Proof.
  unfold endsWith. split.
  - destruct (List.length p <=? List.length s)%nat eqn:E; [|discriminate].
    intros K. apply str_eqb_eq in K.
    exists (firstn (List.length s - List.length p) s).
    rewrite <- K at 2. symmetry. apply firstn_skipn.
  - intros [t ->]. rewrite length_app.
    replace (List.length p <=? List.length t + List.length p)%nat with true
      by (symmetry; apply Nat.leb_le; lia).
    replace (List.length t + List.length p - List.length p)%nat
      with (List.length t + 0)%nat by lia.
    rewrite skipn_app, Nat.add_0_r, skipn_all, Nat.sub_diag. simpl.
    apply str_eqb_refl.
Qed.

(** Splitting at a separator splits the list of segments. *)
Lemma split_app_sep (sep : codeunit) (t u : jsstring) :
  exists seg segs,
    split sep t = segs ++ [seg] /\
    split sep (t ++ sep :: u) = segs ++ seg :: split sep u.
Proof.
  induction t as [|c t [seg [segs [E1 E2]]]]; simpl.
  - rewrite N.eqb_refl. exists [], []. split; reflexivity.
  - destruct (c =? sep)%N.
    + exists seg, ([] :: segs). rewrite E1, E2. split; reflexivity.
    + rewrite E1, E2. destruct segs as [|s0 segs]; simpl.
      * exists (c :: seg), []. split; reflexivity.
      * exists seg, ((c :: s0) :: segs). split; reflexivity.
Qed.

Lemma pop_last_segment (sep : codeunit) (t u : jsstring) :
  ~ In sep u -> pop (split sep (t ++ sep :: u)) = Some u.
Proof.
  intros Hu. destruct (split_app_sep sep t u) as [seg [segs [_ E]]].
  rewrite E, (split_no_sep sep u Hu).
  change (segs ++ [seg; u]) with (segs ++ [seg] ++ [u]).
  rewrite app_assoc. apply pop_snoc.
Qed.

Lemma hexU_digits (b : byte) :
  exists hi lo,
    hexU b = [hi; lo] /\
    Byte.to_N b = (16 * unhexDigit hi + unhexDigit lo)%N.
Proof. destruct b; eexists; eexists; split; reflexivity. Qed.

Lemma hexU_inj (a b : byte) : hexU a = hexU b -> a = b.
Proof.
  intros E.
  destruct (hexU_digits a) as [h1 [l1 [E1 V1]]].
  destruct (hexU_digits b) as [h2 [l2 [E2 V2]]].
  rewrite E1, E2 in E. inversion E; subst.
  pose proof (Byte.of_to_N a) as Ka. rewrite V1, <- V2, Byte.of_to_N in Ka.
  inversion Ka; reflexivity.
Qed.

Lemma hexOf_ascii (b : byte) : Forall isAscii (padStart (toString16 b) 2 48%N).
Proof. destruct b; repeat constructor. Qed.

Lemma startsWith_hex (arr sig : list byte) :
  startsWith (hexAll arr) (hexAll sig) = true <-> exists rest, arr = sig ++ rest.
Proof.
  revert arr; induction sig as [|b sig IH]; intros arr.
  - split; [intros _; exists arr; reflexivity|].
    intros _. unfold hexAll; simpl. destruct (List.concat (List.map hexU arr)); reflexivity.
  - destruct arr as [|a arr].
    + split; [|intros [rest E]; discriminate E].
      unfold hexAll; simpl. destruct (hexU_digits b) as [h [l [-> _]]]. simpl. discriminate.
    + unfold hexAll; simpl.
      destruct (hexU_digits a) as [h1 [l1 [E1 _]]].
      destruct (hexU_digits b) as [h2 [l2 [E2 _]]].
      rewrite E1, E2. simpl.
      fold (hexAll arr) (hexAll sig).
      rewrite !andb_true_iff, !N.eqb_eq, IH. split.
      * intros [-> [-> [rest ->]]]. rewrite <- E2 in E1. apply hexU_inj in E1. subst.
        exists rest; reflexivity.
      * intros [rest E]. inversion E; subst. rewrite E1 in E2. inversion E2; subst.
        repeat split. exists rest; reflexivity.
Qed.

Lemma magicNumbers_hex : magicNumbers = List.map hexAll signatures.
Proof. evaluate. Qed.

Lemma bytesOf_length (f : File) : List.length (bytesOf f) = N.to_nat (size f).
Proof.
  unfold bytesOf, slice. rewrite length_map, length_seq, N.min_id.
  change (N.to_nat 0) with 0%nat. lia.
Qed.

Lemma header_bytes (f : File) : firstn 4 (slice f 0 8) = firstn 4 (bytesOf f).
Proof.
  rewrite slice_firstn, firstn_firstn. reflexivity.
Qed.

Section Lawful.
Context {H : Host} {L : HostLawful H}.

Lemma header_hex (f : File) :
  toUpperCase
    (join (List.map (fun b => padStart (toString16 b) 2 48%N)
                    (firstn 4 (slice f 0 8)))) =
  hexAll (firstn 4 (bytesOf f)).
Proof.
  rewrite header_bytes. generalize (firstn 4 (bytesOf f)) as arr. intros arr.
  rewrite toUpperCase_ascii.
  - unfold join, hexAll, hexU. rewrite concat_map, map_map. reflexivity.
  - unfold join. apply Forall_concat. apply Forall_map.
    apply Forall_forall. intros b _. apply hexOf_ascii.
Qed.

Lemma magic_check_by_signature (f : File) :
  validateMagicNumbers f = true <->
  exists sig rest, In sig signatures /\ firstn 4 (bytesOf f) = sig ++ rest.
Proof.
  unfold validateMagicNumbers. rewrite header_hex, magicNumbers_hex, existsb_exists.
  split.
  - intros [magic [Hin Hs]]. apply in_map_iff in Hin. destruct Hin as [sig [<- Hsig]].
    apply startsWith_hex in Hs. destruct Hs as [rest E]. exists sig, rest. split; assumption.
  - intros [sig [rest [Hsig E]]]. exists (hexAll sig). split.
    + apply in_map; exact Hsig.
    + apply startsWith_hex. exists rest; exact E.
Qed.

(** X1. The signature check looks at the first four bytes and at nothing
    else: it passes exactly when they begin with 25 50 44 46, FF D8 FF,
    89 50 4E 47, 3C 73 76 67, D0 CF 11 E0 or 50 4B 03 04. *)
Theorem signature_decides_magic_check (f : File) :
  validateMagicNumbers f = true <->
  exists sig rest, In sig signatures /\ firstn 4 (bytesOf f) = sig ++ rest.
Proof. apply magic_check_by_signature. Qed.

Lemma signatures_long :
  forallb (fun sig => (3 <=? List.length sig)%nat) signatures = true.
Proof. evaluate. Qed.

(** X2. A file of fewer than three bytes, the empty file included, is
    rejected with 'File signature mismatch', whatever its name and type. *)
Theorem short_file_rejected (f : File) :
  (size f < 3)%N ->
  isValid (validateFile validator f) = false /\
  In (lit "File signature mismatch") (errors (validateFile validator f)).
Proof.
  intros Hsz.
  apply (failing_check_rejects f (validateMagicNumbers f, signatureReason)).
  - do 3 right; left; reflexivity.
  - cbn [fst]. destruct (validateMagicNumbers f) eqn:E; [exfalso | reflexivity].
    apply magic_check_by_signature in E. destruct E as [sig [rest [Hsig E]]].
    pose proof (proj1 (forallb_forall _ _) signatures_long sig Hsig) as K.
    apply Nat.leb_le in K.
    assert (Hlen : (List.length (firstn 4 (bytesOf f)) <= N.to_nat (size f))%nat).
    { rewrite length_firstn, bytesOf_length. lia. }
    rewrite E, length_app in Hlen. lia.
Qed.

(** X3. The extension 'tiff' and the type 'image/tiff' are allowed, but
    no TIFF signature is in the table: a file that starts with
    49 49 2A 00 or 4D 4D 00 2A is rejected with 'File signature
    mismatch'. *)
Theorem tiff_never_accepted (f : File) :
  (exists rest, firstn 4 (bytesOf f) = x49 :: x49 :: x2a :: x00 :: rest) \/
  (exists rest, firstn 4 (bytesOf f) = x4d :: x4d :: x00 :: x2a :: rest) ->
  isValid (validateFile validator f) = false /\
  In (lit "File signature mismatch") (errors (validateFile validator f)).
Proof.
  intros Htiff.
  apply (failing_check_rejects f (validateMagicNumbers f, signatureReason)).
  - do 3 right; left; reflexivity.
  - cbn [fst]. destruct (validateMagicNumbers f) eqn:E; [exfalso | reflexivity].
    apply magic_check_by_signature in E. destruct E as [sig [rest [Hsig E]]].
    unfold signatures in Hsig.
    destruct Htiff as [[r E']|[r E']]; rewrite E' in E;
      repeat (destruct Hsig as [<-|Hsig]; [discriminate E|]); destruct Hsig.
Qed.
End Lawful.

End SignatureFacts.

(* ================================================================== *)
(** ** More on the validator: which reasons go together, what passes *)

Module AcceptanceFacts.
Import FileValidator ValidatorSpec ValidatorFacts SignatureSpec SignatureFacts.

Section AnyHost.
Context {H : Host}.

Lemma in_errors_iff (f : File) (r : jsstring) :
  In r (errors (validateFile validator f)) <->
  exists c, In c (checks f) /\ fst c = false /\ snd c = r.
Proof.
  rewrite validateFile_errors, in_map_iff. split.
  - intros [c [E Hc]]. apply filter_In in Hc. destruct Hc as [Hc Hf].
    exists c. repeat split; try assumption.
    unfold failed in Hf. apply negb_true_iff in Hf. exact Hf.
  - intros [c [Hc [Hf E]]]. exists c. split; [exact E|].
    apply filter_In. split; [exact Hc|]. unfold failed. rewrite Hf. reflexivity.
Qed.

(** Each reason belongs to one check. *)
Ltac other_reason E :=
  exfalso; cbn [snd] in E; apply str_eqb_eq in E; vm_compute in E; discriminate E.

Lemma xssReason_unique (c : bool * jsstring) (f : File) :
  In c (checks f) -> snd c = xssReason -> fst c = XSSProtection.validateFile f.
Proof.
  unfold checks. intros Hin E.
  repeat (destruct Hin as [<-|Hin]; [try reflexivity; other_reason E|]).
  destruct Hin.
Qed.

Lemma scanReason_unique (c : bool * jsstring) (f : File) :
  In c (checks f) -> snd c = scanReason -> fst c = scanForMalware f.
Proof.
  unfold checks. intros Hin E.
  repeat (destruct Hin as [<-|Hin]; [try reflexivity; other_reason E|]).
  destruct Hin.
Qed.

Lemma dangerousExtensions_shape :
  forallb dottedUnlisted XSSProtection.dangerousExtensions = true.
Proof. evaluate. Qed.

Lemma dangerous_ending (s ext : jsstring) :
  In ext XSSProtection.dangerousExtensions ->
  endsWith s ext = true ->
  exists stem, pop (split dot s) = Some stem /\ ~ In stem allowedExtensions.
Proof.
  intros Hin Hends.
  pose proof (proj1 (forallb_forall _ _) dangerousExtensions_shape ext Hin) as K.
  destruct ext as [|c stem]; [discriminate K|]. unfold dottedUnlisted in K.
  apply andb_true_iff in K. destruct K as [K Hun].
  apply andb_true_iff in K. destruct K as [Hc Hd].
  apply N.eqb_eq in Hc. subst c.
  apply endsWith_suffix in Hends. destruct Hends as [t ->].
  exists stem. split.
  - apply pop_last_segment. intros Hdot. apply negb_true_iff in Hd.
    assert (existsb (fun u => (u =? dot)%N) stem = true) as K'
      by (apply existsb_exists; exists dot; split; [exact Hdot | apply N.eqb_refl]).
    congruence.
  - intros Hal. apply arr_includes_In in Hal. apply negb_true_iff in Hun. congruence.
Qed.

(** X4. The name check of [XSSProtection] never rejects alone: a file
    that gets 'File contains potentially dangerous content' also gets
    'File type not allowed', because a name that ends with a dangerous
    extension has that extension as its last segment. *)
Theorem dangerous_reason_implies_extension_reason (f : File) :
  In (lit "File contains potentially dangerous content")
     (errors (validateFile validator f)) ->
  isAllowedExtension (name f) = false /\
  In (lit "File type not allowed") (errors (validateFile validator f)).
Proof.
  intros Hx. apply in_errors_iff in Hx. destruct Hx as [c [Hc [Hf E]]].
  rewrite (xssReason_unique c f Hc E) in Hf.
  unfold XSSProtection.validateFile in Hf.
  apply negb_false_iff, existsb_exists in Hf. destruct Hf as [ext [Hin Hends]].
  destruct (dangerous_ending _ ext Hin Hends) as [stem [Epop Hun]].
  assert (Hext : isAllowedExtension (name f) = false).
  { unfold isAllowedExtension. rewrite Epop.
    destruct (arr_includes allowedExtensions stem) eqn:Ei; [|reflexivity].
    apply arr_includes_In in Ei. destruct (Hun Ei). }
  split; [exact Hext|].
  apply (failing_check_rejects f (isAllowedExtension (name f), extensionReason)).
  - right; left; reflexivity.
  - exact Hext.
Qed.

(** X5. The content scan looks at declared PDFs only: a file whose
    declared type is not 'application/pdf' never gets the reason
    'File failed security scan', whatever its bytes are. *)
Theorem other_types_never_fail_scan (f : File) :
  type f <> lit "application/pdf" ->
  ~ In (lit "File failed security scan") (errors (validateFile validator f)).
Proof.
  intros Hty Hin. apply in_errors_iff in Hin. destruct Hin as [c [Hc [Hf E]]].
  rewrite (scanReason_unique c f Hc E) in Hf.
  unfold scanForMalware in Hf.
  apply str_eqb_neq in Hty. rewrite Hty in Hf. discriminate Hf.
Qed.

End AnyHost.
End AcceptanceFacts.

Module ScanWindowFacts.
Import FileValidator ValidatorSpec ValidatorFacts SignatureSpec SignatureFacts
       AcceptanceFacts.

Lemma slice_head (f : File) (n : N) :
  slice f 0 n = [] \/ exists rest, slice f 0 n = byteAt f 0 :: rest.
Proof.
  unfold slice. change (N.to_nat 0) with 0%nat.
  destruct (N.to_nat (N.min n (size f)) - 0)%nat as [|k]; [left; reflexivity|].
  right. simpl. eauto.
Qed.

Lemma slice_elements (f : File) (n : N) (b : byte) :
  In b (slice f 0 n) -> exists i, (i < n)%N /\ (i < size f)%N /\ b = byteAt f i.
Proof.
  unfold slice. intros Hin. apply in_map_iff in Hin. destruct Hin as [i [E Hi]].
  apply in_seq in Hi. exists (N.of_nat i). split; [|split; [|symmetry; exact E]]; lia.
Qed.

Lemma infix_In (A : Type) (p l : list A) (a : A) :
  infix p l -> In a p -> In a l.
Proof.
  intros [pre [post ->]] Ha. apply in_or_app. right. apply in_or_app. left. exact Ha.
Qed.

Lemma allowed_types_split :
  List.concat (Config.values (Config.allowedTypes (config validator))) =
  Config.pdf (Config.allowedTypes (config validator)) ++ unscannedTypes.
Proof. evaluate. Qed.

Section Lawful.
Context {H : Host} {L : HostLawful H}.

Lemma text_pattern_in_bytes (bs pat : list byte) :
  hasUtf16BOM bs = false ->
  Forall isAscii (bytesToUnits pat) ->
  includes (readAsText bs) (bytesToUnits pat) = true ->
  infix pat bs.
Proof.
  intros Hbom Hascii Hinc. apply includes_infix in Hinc.
  destruct (readAsText_ascii bs Hbom Hascii Hinc) as [q [Eq Hq]].
  apply bytesToUnits_inj in Eq. subst q. exact Hq.
Qed.

(** X6. The scan reads the first 100 KiB and nothing else: a declared PDF
    (not starting with a UTF-16 byte-order mark) whose first 100 KiB do
    not contain [%PDF], or do not contain [%%EOF], is rejected with
    'File failed security scan', also when the missing part comes later
    in the file. *)
Theorem scan_sees_first_100KiB_only (f : File) :
  type f = lit "application/pdf" ->
  hasUtf16BOM (slice f 0 (1024 * 100)) = false ->
  ~ infix (list_byte_of_string "%PDF") (slice f 0 (1024 * 100)) \/
  ~ infix (list_byte_of_string "%%EOF") (slice f 0 (1024 * 100)) ->
  isValid (validateFile validator f) = false /\
  In (lit "File failed security scan") (errors (validateFile validator f)).
Proof.
  intros Ety Hbom Hmiss. apply scan_failure_rejects.
  rewrite (scanForMalware_pdf f Ety). unfold scanPDF.
  destruct Hmiss as [Hno|Hno].
  - destruct (includes (readAsText (slice f 0 (1024 * 100))) (lit "%PDF")) eqn:E;
      [exfalso | reflexivity].
    apply Hno. apply (text_pattern_in_bytes _ (list_byte_of_string "%PDF") Hbom);
      [repeat constructor | exact E].
  - destruct (includes (readAsText (slice f 0 (1024 * 100))) (lit "%%EOF")) eqn:E;
      [exfalso | rewrite andb_false_r; reflexivity].
    apply Hno. apply (text_pattern_in_bytes _ (list_byte_of_string "%%EOF") Hbom);
      [repeat constructor | exact E].
Qed.

(** X7. Name, declared type and content are checked each on its own and
    never against each other: a file of at most 100 MiB with an ASCII
    name whose last segment is, in any letter case, an allowed extension,
    with any allowed declared type other than PDF, and starting with any
    of the six signatures, is accepted. *)
Theorem independent_checks_accept (f : File) (stem e : jsstring)
        (sig rest : list byte) :
  (size f <= 100 * 1024 * 1024)%N ->
  name f = stem ++ dot :: e ->
  Forall isAscii (name f) ->
  In (List.map asciiLower e) allowedExtensions ->
  In (type f) unscannedTypes ->
  In sig signatures ->
  firstn 4 (bytesOf f) = sig ++ rest ->
  isValid (validateFile validator f) = true /\
  errors (validateFile validator f) = [].
Proof.
  intros Hsz Ename Hascii Hext Hty Hsig Ebytes.
  assert (Elow : toLowerCase (name f) =
                 List.map asciiLower stem ++ dot :: List.map asciiLower e).
  { rewrite (toLowerCase_ascii Hascii), Ename, map_app. reflexivity. }
  destruct (allowed_entry _ Hext) as [_ Hdot].
  assert (Epop : pop (split dot (toLowerCase (name f))) = Some (List.map asciiLower e)).
  { rewrite Elow. apply pop_last_segment. exact Hdot. }
  assert (Hall : forall c, In c (checks f) -> fst c = true).
  { unfold checks. intros c Hc.
    repeat (destruct Hc as [<-|Hc]); cbn [fst]; try (destruct Hc).
    - apply N.ltb_ge in Hsz. rewrite Hsz. reflexivity.
    - unfold isAllowedExtension. rewrite Epop. apply arr_includes_In. exact Hext.
    - unfold isAllowedMimeType. apply arr_includes_In.
      rewrite allowed_types_split. apply in_or_app. right. exact Hty.
    - apply magic_check_by_signature. exists sig, rest. split; assumption.
    - unfold XSSProtection.validateFile. apply negb_true_iff.
      destruct (existsb _ _) eqn:Ex; [exfalso | reflexivity].
      apply existsb_exists in Ex. destruct Ex as [ext [Hin Hends]].
      destruct (dangerous_ending _ ext Hin Hends) as [st [Est Hun]].
      rewrite Epop in Est. inversion Est; subst st. exact (Hun Hext).
    - unfold scanForMalware.
      destruct (str_eqb (type f) (lit "application/pdf")) eqn:Epdf; [exfalso | reflexivity].
      apply str_eqb_eq in Epdf. rewrite Epdf in Hty.
      apply arr_includes_In in Hty. vm_compute in Hty. discriminate Hty. }
  assert (Eerr : errors (validateFile validator f) = []).
  { rewrite validateFile_errors. apply filter_failed_nil in Hall. rewrite Hall. reflexivity. }
  split; [apply isValid_iff_no_errors|]; exact Eerr.
Qed.

End Lawful.
End ScanWindowFacts.

(** *** The further properties of the validator on concrete files *)

Module ValidatorExamples2.
Import FileValidator ValidatorSpec ValidatorFacts SignatureSpec SignatureFacts
       AcceptanceFacts ScanWindowFacts Inputs.

Lemma signature_decides_magic_check_witness :
  validateMagicNumbers pngImage = true /\
  validateMagicNumbers tiffImage = false.
Proof.
  split.
  - apply (proj2 (@signature_decides_magic_check asciiHost asciiHost_lawful pngImage)).
    exists [x89; x50; x4e; x47], []. split; [|reflexivity].
    do 2 right; left; reflexivity.
  - destruct (validateMagicNumbers tiffImage) eqn:E; [exfalso | reflexivity].
    apply (proj1 (@signature_decides_magic_check asciiHost asciiHost_lawful tiffImage)) in E.
    destruct E as [sig [rest [Hsig E]]]. vm_compute in E. unfold signatures in Hsig.
    repeat (destruct Hsig as [<-|Hsig]; [discriminate E|]). destruct Hsig.
Defined.

Lemma short_file_rejected_witness :
  isValid (validateFile validator emptyFile) = false /\
  In (lit "File signature mismatch") (errors (validateFile validator emptyFile)).
Proof.
  apply (@short_file_rejected asciiHost asciiHost_lawful emptyFile). reflexivity.
Defined.

Lemma tiff_never_accepted_witness :
  isValid (validateFile validator tiffImage) = false /\
  In (lit "File signature mismatch") (errors (validateFile validator tiffImage)).
Proof.
  apply (@tiff_never_accepted asciiHost asciiHost_lawful tiffImage).
  left. exists []. reflexivity.
Defined.

Lemma dangerous_reason_implies_extension_reason_witness :
  isAllowedExtension (name installer) = false /\
  In (lit "File type not allowed") (errors (validateFile validator installer)).
Proof.
  apply (@dangerous_reason_implies_extension_reason asciiHost installer).
  vm_compute. do 2 right. left. reflexivity.
Defined.

Lemma other_types_never_fail_scan_witness :
  ~ In (lit "File failed security scan") (errors (validateFile validator spoofed)).
Proof.
  apply (@other_types_never_fail_scan asciiHost spoofed).
  apply str_eqb_neq. reflexivity.
Defined.

Lemma scan_sees_first_100KiB_only_witness :
  List.map (byteAt longPdf) [204795; 204796; 204797; 204798; 204799]%N =
    list_byte_of_string "%%EOF" /\
  isValid (validateFile validator longPdf) = false /\
  In (lit "File failed security scan") (errors (validateFile validator longPdf)).
Proof.
  split; [reflexivity|].
  apply (@scan_sees_first_100KiB_only asciiHost asciiHost_lawful longPdf).
  - reflexivity.
  - destruct (slice_head longPdf (1024 * 100)) as [E|[rest E]]; rewrite E; reflexivity.
  - right. intros K.
    assert (Hin : In x45 (slice longPdf 0 (1024 * 100))).
    { apply (infix_In _ _ _ _ K). simpl. auto. }
    apply slice_elements in Hin. destruct Hin as [i [Hi [_ Eb]]].
    unfold longPdf, byteAt in Eb.
    destruct (i <? 4)%N eqn:E4.
    + apply N.ltb_lt in E4.
      destruct (N.to_nat i) as [|[|[|[|n]]]] eqn:En; try discriminate Eb. lia.
    + replace (204795 <=? i)%N with false in Eb by (symmetry; apply N.leb_gt; lia).
      discriminate Eb.
Defined.

Lemma independent_checks_accept_witness :
  isValid (validateFile validator mismatched) = true /\
  errors (validateFile validator mismatched) = [].
Proof.
  apply (@independent_checks_accept asciiHost asciiHost_lawful mismatched
           (lit "Photo") (lit "PNG") [x50; x4b; x03; x04] []).
  - discriminate.
  - reflexivity.
  - repeat constructor.
  - vm_compute. do 3 right. left. reflexivity.
  - vm_compute. do 5 right. left. reflexivity.
  - do 5 right. left. reflexivity.
  - reflexivity.
Defined.

End ValidatorExamples2.

(* ================================================================== *)
(** ** More on the converter: empty batches, failures, tight fit *)

Module ConverterMoreFacts.
Import Tools ConverterSpec ConverterFacts.

Section Pages.
Context {T : Type} {Num : Number T}.
Variable readFileAsDataURL : File -> option jsstring.
Variable loadImage : jsstring -> option HTMLImageElement.

Lemma placementOf_None (image : File) :
  placementOf readFileAsDataURL loadImage image = None <->
  ~ decodes readFileAsDataURL loadImage image.
Proof.
  unfold placementOf, decodes. split.
  - intros E [dataUrl [img [E1 E2]]]. rewrite E1, E2 in E. discriminate E.
  - intros Hn. destruct (readFileAsDataURL image) as [dataUrl|]; [|reflexivity].
    destruct (loadImage dataUrl) as [img|] eqn:E2; [|reflexivity].
    exfalso. apply Hn. exists dataUrl, img. split; [reflexivity | exact E2].
Qed.

Lemma loop_None (images : list File) :
  forall i pdf,
    loop readFileAsDataURL loadImage i images pdf = None <->
    exists image, In image images /\
                  placementOf readFileAsDataURL loadImage image = None.
Proof.
  induction images as [|image rest IH]; intros i pdf; simpl.
  - split; [discriminate | intros [im [[] _]]].
  - rewrite step_placementOf.
    destruct (placementOf readFileAsDataURL loadImage image) as [pl|] eqn:Epl.
    + rewrite IH. split.
      * intros [im [Him E]]. exists im. split; [right; exact Him | exact E].
      * intros [im [[<-|Him] E]]; [congruence|]. exists im. split; assumption.
    + split; [|reflexivity]. intros _. exists image. split; [left; reflexivity | exact Epl].
Qed.

(** X9. The batch is all or nothing: the converter rejects, with no
    document at all, exactly when some image of the batch cannot be read
    or decoded, wherever in the batch it is. *)
Theorem one_failure_aborts_the_batch (images : list File) :
  convertImagesToPdf readFileAsDataURL loadImage images = None <->
  exists image, In image images /\ ~ decodes readFileAsDataURL loadImage image.
Proof.
  unfold convertImagesToPdf. rewrite loop_None. split.
  - intros [im [Him E]]. exists im. split; [exact Him | apply placementOf_None; exact E].
  - intros [im [Him E]]. exists im. split; [exact Him | apply placementOf_None; exact E].
Qed.

Lemma batch_pages (images : list File) :
  (forall image, In image images -> decodes readFileAsDataURL loadImage image) ->
  exists pdf,
    convertImagesToPdf readFileAsDataURL loadImage images = Some pdf /\
    List.length (jsPDF.output pdf) = Nat.max 1 (List.length images) /\
    jsPDF.addPageCalls pdf = (List.length images - 1)%nat /\
    (images = [] -> jsPDF.output pdf = [[]]).
Proof.
  intros Hdec.
  destruct (loop_calls readFileAsDataURL loadImage images Hdec 0%nat (jsPDF.new T))
    as [pls [Emap Eloop]].
  assert (Elen : List.length pls = List.length images).
  { rewrite <- (length_map Some pls), <- Emap, length_map. reflexivity. }
  exists (callsFrom 0 pls). split; [exact Eloop|].
  destruct pls as [|pl pls].
  - destruct images; [|discriminate Elen]. repeat split.
  - rewrite (output_calls (pl :: pls)) by discriminate.
    rewrite length_map, <- Elen. split; [simpl; lia|]. split.
    + simpl. unfold jsPDF.addPageCalls. simpl.
      fold (jsPDF.addPageCalls (callsFrom 1 pls)).
      rewrite addPageCalls_later by lia. lia.
    + intros ->. discriminate Elen.
Qed.

(** X8. Whatever the size of the batch, the empty one included, a batch
    whose images all decode gives a document of [max(1, n)] pages with
    [n - 1] calls of [addPage]; for the empty batch the document is the
    single blank page a new jsPDF starts with. *)
Theorem page_count_of_any_batch (images : list File) :
  (forall image, In image images -> decodes readFileAsDataURL loadImage image) ->
  exists pdf,
    convertImagesToPdf readFileAsDataURL loadImage images = Some pdf /\
    List.length (jsPDF.output pdf) = Nat.max 1 (List.length images) /\
    jsPDF.addPageCalls pdf = (List.length images - 1)%nat /\
    (images = [] -> jsPDF.output pdf = [[]]).
Proof. apply batch_pages. Qed.

(** X11. The process button never converts an empty selection and never
    offers an empty document: the download is shown exactly when the tool
    is 'image-to-pdf', at least one file is selected and every file
    decodes, and the document then has one page per selected file. *)
Theorem download_only_for_converted_images (selectedTool : option jsstring)
        (selectedFiles : list File) (pdf : jsPDF.t T) (filename : jsstring) :
  Main.onProcessClick readFileAsDataURL loadImage selectedTool selectedFiles =
    Main.Download pdf filename <->
  selectedTool = Some (lit "image-to-pdf") /\
  selectedFiles <> [] /\
  (forall image, In image selectedFiles ->
                 decodes readFileAsDataURL loadImage image) /\
  convertImagesToPdf readFileAsDataURL loadImage selectedFiles = Some pdf /\
  List.length (jsPDF.output pdf) = List.length selectedFiles /\
  filename = lit "converted.pdf".
Proof.
  unfold Main.onProcessClick. split.
  - destruct selectedTool as [[|c tool]|]; cbn [Main.falsy];
      try (intros K; discriminate K).
    destruct selectedFiles as [|file files]; cbn [List.length Nat.eqb];
      [intros K; discriminate K|].
    destruct (str_eqb (c :: tool) (lit "image-to-pdf")) eqn:Et;
      [|intros K; discriminate K].
    apply str_eqb_eq in Et.
    destruct (convertImagesToPdf readFileAsDataURL loadImage (file :: files))
      as [pdf'|] eqn:Ec; [|intros K; discriminate K].
    intros K. inversion K; subst pdf' filename.
    assert (Hdec : forall image, In image (file :: files) ->
                                 decodes readFileAsDataURL loadImage image).
    { intros image Him.
      destruct (placementOf readFileAsDataURL loadImage image) as [pl|] eqn:Epl.
      - unfold placementOf in Epl. unfold decodes.
        destruct (readFileAsDataURL image) as [dataUrl|]; [|discriminate Epl].
        destruct (loadImage dataUrl) as [img|] eqn:E2; [|discriminate Epl].
        exists dataUrl, img. split; [reflexivity | exact E2].
      - assert (Kn : convertImagesToPdf readFileAsDataURL loadImage (file :: files) = None).
        { apply loop_None. exists image. split; assumption. }
        congruence. }
    rewrite Et. repeat split; try discriminate; try assumption.
    destruct (batch_pages (file :: files) Hdec) as [pdf' [Ec' [Hlen _]]].
    rewrite Ec in Ec'. inversion Ec'; subst pdf'. rewrite Hlen. simpl. lia.
  - intros [-> [Hne [_ [Ec [_ ->]]]]].
    destruct selectedFiles as [|file files]; [destruct (Hne eq_refl)|].
    cbn [Main.falsy List.length Nat.eqb]. rewrite str_eqb_refl, Ec. reflexivity.
Qed.

End Pages.

Import Reals Lra Psatz Rounding RoundingFacts Binary64Facts ScalingFacts.
Local Open Scope R_scope.

(** X10. In binary64 the fit is tight up to one unit in the last place:
    for an image of positive size (pixel counts below [2 ^ 53]), when the
    quotient [A4_WIDTH / w] is the smaller of the two the scaled width
    lies between the binary64 numbers next below and next above the page
    width, and when [A4_HEIGHT / h] is the smaller the scaled height lies
    between the numbers next below and next above the page height; one of
    the two is the case, so an image smaller than the page is enlarged
    until one side fills the page. *)
Theorem fit_fills_one_side_binary64 (w h : N) :
  (0 < w < 2 ^ 53)%N -> (0 < h < 2 ^ 53)%N ->
  let W := pixels (T:=float) w in
  let Ht := pixels (T:=float) h in
  let a := div A4_WIDTH W in
  let b := div A4_HEIGHT Ht in
  (PrimFloat.leb a b = true \/ PrimFloat.leb b a = true) /\
  (PrimFloat.leb a b = true ->
     PrimFloat.leb (next_down A4_WIDTH) (fst (fitToA4 W Ht)) = true /\
     PrimFloat.leb (fst (fitToA4 W Ht)) (next_up A4_WIDTH) = true) /\
  (PrimFloat.leb b a = true ->
     PrimFloat.leb (next_down A4_HEIGHT) (snd (fitToA4 W Ht)) = true /\
     PrimFloat.leb (snd (fitToA4 W Ht)) (next_up A4_HEIGHT) = true).
Proof.
  intros Hw Hh W Ht a b.
  destruct (pixels_exact w Hw) as [NW [VW EW]].
  destruct (pixels_exact h Hh) as [NH [VH EH]].
  fold W in NW, VW, EW. fold Ht in NH, VH, EH.
  destruct A4_WIDTH_binary64 as [PW [PWu PWd]].
  destruct A4_HEIGHT_binary64 as [PH [PHu PHd]].
  assert (MW : (2 ^ 52 <= Zpos 5236107467934400 < 2 ^ 53)%Z) by (simpl; lia).
  assert (MH : (2 ^ 52 <= Zpos 7405351990364366 < 2 ^ 53)%Z) by (simpl; lia).
  destruct (quotient_normal _ _ _ PW MW NW EW) as [Na Ea].
  destruct (quotient_normal _ _ _ PH MH NH EH) as [Nb Eb].
  fold a in Na, Ea. fold b in Nb, Eb.
  split; [exact (leb_total a b Na Nb)|].
  change (fitToA4 W Ht)
    with (PrimFloat.mul W (Binary64.Math_min a b),
          PrimFloat.mul Ht (Binary64.Math_min a b)).
  cbn [fst snd].
  split; intros H.
  - rewrite (Math_min_left a b Na Nb H). split.
    + apply (scaled_ge_next_down _ W _ PW PWd); try assumption; simpl; lia.
    + apply (scaled_le_next_up _ W a _ PW PWu); try assumption; try (simpl; lia).
      apply Rle_refl.
  - rewrite (Math_min_right a b Na Nb H). split.
    + apply (scaled_ge_next_down _ Ht _ PH PHd); try assumption; simpl; lia.
    + apply (scaled_le_next_up _ Ht b _ PH PHu); try assumption; try (simpl; lia).
      apply Rle_refl.
Qed.

End ConverterMoreFacts.

(* ================================================================== *)
(** ** The monitoring interval and the drop zone *)

Module MonitoringFacts.
Import Monitoring.

Section Timers.
Variable fresh : list positive -> positive.
Hypothesis fresh_unused : forall running, ~ In (fresh running) running.

Lemma start_then_stop (this : interval) (running : list positive) :
  stopMonitoring (fst (startMonitoring fresh this running))
                 (snd (startMonitoring fresh this running)) = (None, running).
Proof.
  unfold startMonitoring, setInterval, stopMonitoring, clearInterval. simpl.
  destruct (Pos.eq_dec (fresh running) (fresh running)) as [_|K];
    [|destruct (K eq_refl)].
  rewrite notin_remove; [reflexivity | apply fresh_unused].
Qed.

Lemma startTimes_running (k : nat) :
  forall this running,
    List.length (snd (startTimes fresh k this running)) = (List.length running + k)%nat.
Proof.
  induction k as [|k IH]; intros this running; simpl; [lia|].
  rewrite IH. simpl. lia.
Qed.

(** X12. [stopMonitoring] cancels the interval of the latest
    [startMonitoring] and no other: after [k + 1] starts and one stop the
    [k] earlier intervals are still running, the monitor holds no handle
    any more, and further stops change nothing. *)
Theorem stop_cancels_latest_interval_only (k : nat) (this : interval)
        (running : list positive) :
  let before := startTimes fresh k this running in
  let started := startMonitoring fresh (fst before) (snd before) in
  let stopped := stopMonitoring (fst started) (snd started) in
  fst stopped = None /\
  snd stopped = snd before /\
  List.length (snd stopped) = (List.length running + k)%nat /\
  stopMonitoring (fst stopped) (snd stopped) = stopped.
Proof.
  intros before started stopped.
  assert (E : stopped = (None, snd before)).
  { unfold stopped, started. apply start_then_stop. }
  rewrite E. simpl. repeat split.
  unfold before. apply startTimes_running.
Qed.

End Timers.

Lemma fold_max_ge (running : list positive) (h : positive) :
  In h running -> (h <= List.fold_right Pos.max 1 running)%positive.
Proof.
  induction running as [|a running IH]; simpl; [intros []|].
  intros [->|Hin]; [apply Pos.le_max_l|].
  apply Pos.le_trans with (List.fold_right Pos.max 1%positive running);
    [apply IH; exact Hin | apply Pos.le_max_r].
Qed.

Lemma nextHandle_unused (running : list positive) :
  ~ In (nextHandle running) running.
Proof.
  intros Hin. apply fold_max_ge in Hin. unfold nextHandle in Hin. lia.
Qed.

Lemma stop_cancels_latest_interval_only_witness :
  let before := startTimes nextHandle 1 constructor [] in
  let started := startMonitoring nextHandle (fst before) (snd before) in
  let stopped := stopMonitoring (fst started) (snd started) in
  fst stopped = None /\
  snd stopped = snd before /\
  List.length (snd stopped) = (List.length (@nil positive) + 1)%nat /\
  stopMonitoring (fst stopped) (snd stopped) = stopped.
Proof.
  apply (stop_cancels_latest_interval_only nextHandle nextHandle_unused 1 constructor []).
Defined.

End MonitoringFacts.

Module DropZoneFacts.
Import EnhancedDropZone.

Section Handlers.
Variables Result Error : Type.
Variable processFile : File -> Result + Error.
Variable message : Error -> jsstring.

Lemma processFiles_calls (files : list File) (f : File) :
  In (ProcessFile Result Error f) (processFiles processFile message files) <->
  exists rest, files = f :: rest.
Proof.
  unfold processFiles. destruct files as [|file rest].
  - split; [intros [] | intros [r E]; discriminate E].
  - split.
    + intros [E|Hin].
      * inversion E; subst. exists rest; reflexivity.
      * exfalso. unfold handleSuccess, handleError in Hin.
        destruct (processFile file); simpl in Hin;
          repeat (destruct Hin as [K|Hin]; [discriminate K|]); destruct Hin.
    + intros [r E]. inversion E; subst. left; reflexivity.
Qed.

Lemma processFiles_once (files : list File) :
  (List.length (List.filter (@isProcessFile Result Error)
                  (processFiles processFile message files)) <= 1)%nat.
Proof.
  unfold processFiles. destruct files as [|file rest]; simpl; [lia|].
  unfold handleSuccess, handleError. destruct (processFile file); simpl; lia.
Qed.

(** X13. Admission control sits on the drop only: a drop hands a file to
    the processor exactly when memory is not critical and the drop is not
    empty, and then the first file alone (the others are ignored); under
    critical memory it hands over none and downloads nothing.  A selection
    through the file input hands over its first file whatever the memory
    is. *)
Theorem drop_processes_first_file_unless_critical
        (memoryMonitor : MemoryMonitor.t)
        (performance_memory : option MemoryMonitor.MemoryInfo)
        (files : list File) (f : File) :
  (In (ProcessFile Result Error f)
      (handleDrop processFile message memoryMonitor performance_memory files) <->
   MemoryMonitor.isMemoryCritical memoryMonitor performance_memory = false /\
   exists rest, files = f :: rest) /\
  (List.length (List.filter (@isProcessFile Result Error)
     (handleDrop processFile message memoryMonitor performance_memory files)) <= 1)%nat /\
  (MemoryMonitor.isMemoryCritical memoryMonitor performance_memory = true ->
   List.filter (@isDownload Result Error)
     (handleDrop processFile message memoryMonitor performance_memory files) = []) /\
  (In (ProcessFile Result Error f) (handleFileSelect processFile message files) <->
   exists rest, files = f :: rest).
Proof.
  unfold handleDrop, handleFileSelect.
  destruct (MemoryMonitor.isMemoryCritical memoryMonitor performance_memory).
  - split; [|split; [|split]].
    + split.
      * intros Hin. simpl in Hin.
        repeat (destruct Hin as [K|Hin]; [discriminate K|]). destruct Hin.
      * intros [K _]; discriminate K.
    + simpl. lia.
    + reflexivity.
    + apply processFiles_calls.
  - split; [|split; [|split]].
    + rewrite <- processFiles_calls. split.
      * intros Hin. split; [reflexivity|]. simpl in Hin.
        repeat (destruct Hin as [K|Hin]; [discriminate K|]). exact Hin.
      * intros [_ Hin]. simpl. do 3 right. exact Hin.
    + simpl. apply processFiles_once.
    + intros K; discriminate K.
    + apply processFiles_calls.
Qed.

End Handlers.
End DropZoneFacts.

(* ================================================================== *)
(** ** The backtracking matcher and [scanContent] *)

Module BacktrackFacts.
Import Backtrack.

Lemma ends_cat (a b : pattern) (p q : position) :
  In q (ends (Cat a b) p) <-> exists m, In m (ends a p) /\ In q (ends b m).
Proof. simpl. apply in_flat_map. Qed.

Lemma manyFrom_reach (a : pattern) (p q : position) :
  reach a p q ->
  forall fuel, (List.length (rest p) <= fuel)%nat ->
               In q (manyFrom (ends a) fuel p).
Proof.
  induction 1 as [p|p m q Hm Hs _ IH]; intros fuel Hfuel.
  - destruct fuel; simpl; [left; reflexivity|].
    apply in_or_app. right. left. reflexivity.
  - pose proof Hs as Hlt. unfold shorter in Hlt. apply Nat.ltb_lt in Hlt.
    destruct fuel as [|fuel]; [lia|]. simpl.
    apply in_or_app. left. apply in_flat_map. exists m. split; [exact Hm|].
    rewrite Hs. apply IH. lia.
Qed.

Lemma ends_many (a : pattern) (p q : position) :
  reach a p q -> In q (ends (Many a) p).
Proof. intros Hr. simpl. apply (manyFrom_reach a p q Hr). lia. Qed.

Lemma reach_trans (a : pattern) (p m q : position) :
  reach a p m -> reach a m q -> reach a p q.
Proof.
  induction 1 as [p|p m0 m Hm Hs _ IH]; intros Hq; [exact Hq|].
  apply (@reach_step a p m0 q Hm Hs). apply IH. exact Hq.
Qed.

Lemma ends_char (set : codeunit -> bool) (prev : option codeunit)
      (c : codeunit) (s : jsstring) :
  set c = true -> In (Some c, s) (ends (Char set) (prev, c :: s)).
Proof. intros Hc. simpl. rewrite Hc. left. reflexivity. Qed.

(** A run of code units of a set is consumed by the repetition of the
    set. *)
Lemma reach_run (set : codeunit -> bool) (cs s : jsstring) :
  Forall (fun c => set c = true) cs ->
  forall prev, reach (Char set) (prev, cs ++ s) (lastOr prev cs, s).
Proof.
  induction 1 as [|c cs Hc _ IH]; intros prev; [apply (@reach_refl (Char set))|].
  apply (@reach_step (Char set) (prev, (c :: cs) ++ s) (Some c, cs ++ s)).
  - apply ends_char. exact Hc.
  - unfold shorter, rest. simpl. apply Nat.ltb_lt. lia.
  - apply IH.
Qed.

Lemma ends_lit_i (l m s : jsstring) :
  RegExp.sameIgnoringCase m l ->
  forall prev, In (lastOr prev m, s) (ends (lit_i l) (prev, m ++ s)).
Proof.
  intros Hml. induction Hml as [|u c m l Huc _ IH]; intros prev.
  - left. reflexivity.
  - cbn [lit_i]. apply ends_cat. exists (Some u, m ++ s). split.
    + apply ends_char. apply N.eqb_eq. exact Huc.
    + apply IH.
Qed.

Lemma ends_notAhead (a : pattern) (p : position) :
  ends a p = [] -> ends (NotAhead a) p = [p].
Proof. intros E. simpl. rewrite E. reflexivity. Qed.

Lemma matchesAt_In (r : pattern) (p q : position) :
  In q (ends r p) -> matchesAt r p = true.
Proof. unfold matchesAt. destruct (ends r p); [intros [] | reflexivity]. Qed.

Lemma testFrom_found (r : pattern) (pre s : jsstring) (q : position) :
  forall prev,
    In q (ends r (lastOr prev pre, s)) -> testFrom r prev (pre ++ s) = true.
Proof.
  induction pre as [|c pre IH]; intros prev Hq.
  - simpl in Hq. simpl. destruct s; simpl;
      rewrite (matchesAt_In r _ q Hq); reflexivity.
  - simpl. rewrite (IH (Some c) Hq). apply orb_true_r.
Qed.

Lemma test_found (r : pattern) (pre s : jsstring) (q : position) :
  In q (ends r (lastOr None pre, s)) -> test r (pre ++ s) = true.
Proof. apply testFrom_found. Qed.

(** A literal under the [i] flag is found wherever it occurs. *)
Lemma test_lit_i (l pre m post : jsstring) :
  RegExp.sameIgnoringCase m l -> test (lit_i l) (pre ++ m ++ post) = true.
Proof.
  intros Hml. apply (test_found _ pre (m ++ post) (lastOr (lastOr None pre) m, post)).
  apply ends_lit_i. exact Hml.
Qed.

End BacktrackFacts.

Module ScanContentFacts.
Import Backtrack BacktrackFacts ScanContent ScanContentSpec.

Lemma scanContent_text (content : jsstring) (pattern : Backtrack.pattern) :
  In pattern xssPatterns ->
  test pattern content = true ->
  scanContent content (lit "text") = false.
Proof.
  intros Hin Ht. unfold scanContent. rewrite str_eqb_refl.
  apply negb_false_iff, existsb_exists. exists pattern. split; assumption.
Qed.

Lemma literalTriggers_patterns (trigger : jsstring) :
  In trigger literalTriggers -> In (lit_i trigger) xssPatterns.
Proof.
  unfold literalTriggers, xssPatterns. simpl.
  intros [<-|[<-|[<-|[<-|[<-|[]]]]]]; auto 8.
Qed.

(** X14. [scanContent] scans content of type 'text' only, and in such
    content it flags 'javascript:', 'eval(', 'document.', 'window.' and
    'alert(' wherever they occur and in whatever letter case. *)
Theorem literal_triggers_flagged :
  (forall content type,
     type <> lit "text" -> scanContent content type = true) /\
  (forall pre m post trigger,
     In trigger literalTriggers ->
     RegExp.sameIgnoringCase m trigger ->
     scanContent (pre ++ m ++ post) (lit "text") = false).
Proof.
  split.
  - intros content type Hty. unfold scanContent.
    apply str_eqb_neq in Hty. rewrite Hty. reflexivity.
  - intros pre m post trigger Hin Hm.
    apply (scanContent_text _ (lit_i trigger)).
    + apply literalTriggers_patterns. exact Hin.
    + apply test_lit_i. exact Hm.
Qed.

(** X15. An [on] followed by one or more word characters, optional white
    space and [=] is flagged wherever it occurs, also in the middle of a
    word, as in 'conversion = 2'. *)
Theorem handler_attribute_flagged (pre on_ word ws post : jsstring) (w : codeunit) :
  RegExp.sameIgnoringCase on_ (lit "on") ->
  isWordChar w = true ->
  Forall (fun c => isWordChar c = true) word ->
  Forall (fun c => RegExp.isWhiteSpace c = true) ws ->
  scanContent (pre ++ on_ ++ (w :: word) ++ ws ++ lit "=" ++ post) (lit "text") = false.
Proof.
  intros Hon Hw Hword Hws.
  apply (scanContent_text _ handlerAttribute); [unfold xssPatterns; simpl; auto|].
  eapply (test_found handlerAttribute pre).
  unfold handlerAttribute.
  apply ends_cat. eexists. split; [apply ends_lit_i; exact Hon|].
  apply ends_cat. exists (lastOr (Some w) word, ws ++ lit "=" ++ post). split.
  - unfold Some1. apply ends_cat. exists (Some w, word ++ ws ++ lit "=" ++ post). split.
    + apply ends_char. exact Hw.
    + apply ends_many. apply reach_run. exact Hword.
  - apply ends_cat. exists (lastOr (lastOr (Some w) word) ws, lit "=" ++ post). split.
    + apply ends_many. apply reach_run. exact Hws.
    + apply (ends_lit_i (lit "=") (lit "=") post). repeat constructor.
Qed.

Lemma canonical_lessThan (c : codeunit) :
  RegExp.canonicalize c = RegExp.canonicalize lessThan -> c = lessThan.
Proof.
  unfold RegExp.canonicalize, asciiUpper, lessThan. simpl.
  destruct ((97 <=? c) && (c <=? 122))%N eqn:E; [|auto].
  apply andb_true_iff in E. destruct E as [E1 _]. apply N.leb_le in E1.
  intros K. lia.
Qed.

Lemma close_starts_lessThan (cl : jsstring) :
  RegExp.sameIgnoringCase cl (lit "</script>") ->
  exists cl', cl = lessThan :: cl'.
Proof.
  intros Hcl. change (lit "</script>") with (lessThan :: lit "/script>") in Hcl.
  inversion Hcl as [|u c cl' l' Huc _]; subst.
  apply canonical_lessThan in Huc. subst u. exists cl'. reflexivity.
Qed.

Lemma hasClose_nonempty : ~ hasClose [].
Proof.
  intros [x [cl [post [E Hcl]]]].
  destruct (close_starts_lessThan cl Hcl) as [cl' ->].
  destruct x; discriminate E.
Qed.

Lemma hasClose_tail (c : codeunit) (w : jsstring) :
  c <> lessThan -> hasClose (c :: w) -> hasClose w.
Proof.
  intros Hc [x [cl [post [E Hcl]]]].
  destruct x as [|c0 x]; simpl in E.
  - destruct (close_starts_lessThan cl Hcl) as [cl' ->].
    inversion E; subst. destruct (Hc eq_refl).
  - inversion E; subst. exists x, cl, post. split; [reflexivity | exact Hcl].
Qed.

(** The run without [<] up to the next [<]. *)
Lemma next_lessThan (w : jsstring) :
  hasClose w ->
  exists run w',
    w = run ++ lessThan :: w' /\
    Forall (fun c => negb (c =? lessThan)%N = true) run /\
    hasClose (lessThan :: w').
Proof.
  induction w as [|c w IH]; intros Hw; [destruct (hasClose_nonempty Hw)|].
  destruct (N.eqb_spec c lessThan) as [->|Hc].
  - exists [], w. repeat split; [constructor | exact Hw].
  - destruct (IH (hasClose_tail c w Hc Hw)) as [run [w' [-> [Hrun Hw']]]].
    exists (c :: run), w'. repeat split; [|exact Hw'].
    constructor; [|exact Hrun]. apply negb_true_iff, N.eqb_neq. exact Hc.
Qed.

(** From a [<] that has a closing tag somewhere after it, the groups can
    be repeated up to the first closing tag. *)
Lemma tail_at_lessThan (n : nat) :
  forall w prev,
    (List.length w < n)%nat ->
    hasClose (lessThan :: w) ->
    tailMatches (prev, lessThan :: w).
Proof.
  induction n as [|n IH]; intros w prev Hlen Hw; [lia|].
  destruct (ends closing (prev, lessThan :: w)) as [|q qs] eqn:Eclose.
  - assert (Hw1 : hasClose w).
    { destruct Hw as [x [cl [post [E Hcl]]]].
      destruct x as [|c0 x]; simpl in E.
      - exfalso. pose proof (ends_lit_i (lit "</script>") cl post Hcl prev) as K.
        rewrite <- E in K. fold closing in K. rewrite Eclose in K. destruct K.
      - inversion E; subst. exists x, cl, post. split; [reflexivity | exact Hcl]. }
    destruct (next_lessThan w Hw1) as [run [w' [Ew [Hrun Hw']]]].
    assert (Hlen' : (List.length w' < n)%nat).
    { rewrite Ew, length_app in Hlen. simpl in Hlen. lia. }
    destruct (IH w' (lastOr (Some lessThan) run) Hlen' Hw') as [m [q [Hreach Hq]]].
    exists m, q. split; [|exact Hq].
    apply (@reach_step group (prev, lessThan :: w)
             (lastOr (Some lessThan) run, lessThan :: w') m); [| |exact Hreach].
    + unfold group. apply ends_cat. exists (prev, lessThan :: w). split.
      * rewrite (ends_notAhead closing _ Eclose). left. reflexivity.
      * apply ends_cat. exists (Some lessThan, w). split.
        -- apply ends_char. apply N.eqb_refl.
        -- rewrite Ew. apply ends_many. apply reach_run. exact Hrun.
    + unfold shorter, rest. simpl. apply Nat.ltb_lt.
      rewrite Ew, length_app. simpl. lia.
  - exists (prev, lessThan :: w), q. split; [apply (@reach_refl group)|].
    rewrite Eclose. left. reflexivity.
Qed.

Lemma open_ends_in_word (open_ : jsstring) (prev : option codeunit) :
  RegExp.sameIgnoringCase open_ (lit "<script") ->
  exists t, lastOr prev open_ = Some t /\ isWordChar t = true.
Proof.
  intros Ho. change (lit "<script") with (lit "<scrip" ++ [116%N]) in Ho.
  apply Forall2_app_inv_r in Ho. destruct Ho as [o [l [_ [Hl ->]]]].
  inversion Hl as [|t c l' l0 Ht Hnil]; subst. inversion Hnil; subst.
  exists t. split.
  - unfold lastOr. rewrite fold_left_app. reflexivity.
  - unfold RegExp.canonicalize, asciiUpper in Ht. simpl in Ht.
    destruct ((97 <=? t) && (t <=? 122))%N eqn:E.
    + assert (t = 116%N) by lia. subst t. reflexivity.
    + subst t. reflexivity.
Qed.

(** X16. A script element is flagged: '<script', not followed by a word
    character, with '</script>' anywhere after it, in whatever letter
    case and wherever in the text. *)
Theorem script_element_flagged (pre open_ mid close post : jsstring) :
  RegExp.sameIgnoringCase open_ (lit "<script") ->
  RegExp.sameIgnoringCase close (lit "</script>") ->
  match mid with
  | c :: _ => isWordChar c = false
  | [] => True
  end ->
  scanContent (pre ++ open_ ++ mid ++ close ++ post) (lit "text") = false.
Proof.
  intros Hopen Hclose Hmid.
  apply (scanContent_text _ scriptElement); [left; reflexivity|].
  assert (Hw : hasClose (mid ++ close ++ post)).
  { exists mid, close, post. split; [reflexivity | exact Hclose]. }
  destruct (next_lessThan _ Hw) as [run [w' [Ew [Hrun Hw']]]].
  destruct (open_ends_in_word open_ (lastOr None pre) Hopen) as [t [Et Htw]].
  destruct (tail_at_lessThan (S (List.length w')) w' (lastOr (Some t) run)
              (Nat.lt_succ_diag_r _) Hw') as [m [q [Hreach Hq]]].
  apply (test_found scriptElement pre (open_ ++ mid ++ close ++ post) q).
  unfold scriptElement.
  apply ends_cat. exists (Some t, mid ++ close ++ post). split.
  { rewrite <- Et. apply ends_lit_i. exact Hopen. }
  apply ends_cat. exists (Some t, mid ++ close ++ post). split.
  { simpl. unfold wordBefore, wordAfter, before, rest. simpl. rewrite Htw.
    replace (match mid ++ close ++ post with
             | [] => false
             | c :: _ => isWordChar c
             end) with false; [left; reflexivity|].
    destruct mid as [|c mid]; simpl; [|symmetry; exact Hmid].
    destruct (close_starts_lessThan close Hclose) as [cl' ->]. reflexivity. }
  apply ends_cat. exists (lastOr (Some t) run, lessThan :: w'). split.
  { rewrite Ew. apply ends_many. apply reach_run. exact Hrun. }
  apply ends_cat. exists m. split; [|exact Hq].
  apply ends_many. exact Hreach.
Qed.

Lemma ends_lit_i_inv (l : jsstring) :
  forall p q,
    In q (ends (lit_i l) p) ->
    exists m, rest p = m ++ rest q /\ RegExp.sameIgnoringCase m l.
Proof.
  induction l as [|c l IH]; intros p q Hq.
  - destruct Hq as [<-|[]]. exists []. split; [reflexivity | constructor].
  - cbn [lit_i] in Hq. apply ends_cat in Hq. destruct Hq as [mid [Hmid Hq]].
    unfold chr_i in Hmid. simpl in Hmid.
    destruct (rest p) as [|u s] eqn:Ep; [destruct Hmid|].
    destruct (RegExp.canonicalize u =? RegExp.canonicalize c)%N eqn:Eu;
      [|destruct Hmid].
    destruct Hmid as [<-|[]].
    destruct (IH _ _ Hq) as [m [Em Hm]]. simpl in Em.
    exists (u :: m). split; [simpl; rewrite Em; reflexivity|].
    constructor; [apply N.eqb_eq; exact Eu | exact Hm].
Qed.

Lemma matchesAt_inv (r : pattern) (p : position) :
  matchesAt r p = true -> exists q, In q (ends r p).
Proof.
  unfold matchesAt. destruct (ends r p) as [|q qs]; [discriminate|].
  intros _. exists q. left. reflexivity.
Qed.

Lemma testFrom_inv (r : pattern) (s : jsstring) :
  forall prev,
    testFrom r prev s = true ->
    exists pre s' q, s = pre ++ s' /\ In q (ends r (lastOr prev pre, s')).
Proof.
  induction s as [|c s IH]; intros prev Ht.
  - change (testFrom r prev []) with (matchesAt r (prev, []) || false) in Ht.
    rewrite orb_false_r in Ht. apply matchesAt_inv in Ht. destruct Ht as [q Hq].
    exists [], [], q. split; [reflexivity | exact Hq].
  - change (testFrom r prev (c :: s))
      with (matchesAt r (prev, c :: s) || testFrom r (Some c) s) in Ht.
    apply orb_true_iff in Ht. destruct Ht as [Ht|Ht].
    + apply matchesAt_inv in Ht. destruct Ht as [q Hq].
      exists [], (c :: s), q. split; [reflexivity | exact Hq].
    + destruct (IH (Some c) Ht) as [pre [s' [q [-> Hq]]]].
      exists (c :: pre), s', q. split; [reflexivity | exact Hq].
Qed.

Lemma begins_with_literal (l : jsstring) (b : pattern) (content : jsstring) :
  test (Cat (lit_i l) b) content = true -> containsIgnoringCase content l.
Proof.
  intros Ht. apply testFrom_inv in Ht. destruct Ht as [pre [s' [q [-> Hq]]]].
  apply ends_cat in Hq. destruct Hq as [mid [Hmid _]].
  apply ends_lit_i_inv in Hmid. destruct Hmid as [m [Em Hm]]. simpl in Em.
  exists pre, m, (rest mid). split; [rewrite Em; reflexivity | exact Hm].
Qed.

Lemma is_literal (l content : jsstring) :
  test (lit_i l) content = true -> containsIgnoringCase content l.
Proof.
  intros Ht. apply testFrom_inv in Ht. destruct Ht as [pre [s' [q [-> Hq]]]].
  apply ends_lit_i_inv in Hq. destruct Hq as [m [Em Hm]]. simpl in Em.
  exists pre, m, (rest q). split; [rewrite Em; reflexivity | exact Hm].
Qed.

(** X17. Nothing else is flagged: text that [scanContent] rejects
    contains, in some letter case, '<script', 'javascript:', 'on',
    'eval(', 'document.', 'window.' or 'alert('. *)
Theorem flagged_text_has_a_marker (content : jsstring) :
  scanContent content (lit "text") = false ->
  exists marker, In marker markers /\ containsIgnoringCase content marker.
Proof.
  unfold scanContent. rewrite str_eqb_refl. intros Hf.
  apply negb_false_iff, existsb_exists in Hf. destruct Hf as [pattern [Hin Ht]].
  unfold xssPatterns in Hin. unfold markers. simpl List.map.
  destruct Hin as [<-|[<-|[<-|[<-|[<-|[<-|[<-|[]]]]]]]].
  - exists (lit "<script"). split; [simpl; auto 8|].
    apply (begins_with_literal _ _ _ Ht).
  - exists (lit "javascript:"). split; [simpl; auto 8 | apply is_literal; exact Ht].
  - exists (lit "on"). split; [simpl; auto 8|].
    apply (begins_with_literal _ _ _ Ht).
  - exists (lit "eval("). split; [simpl; auto 8 | apply is_literal; exact Ht].
  - exists (lit "document."). split; [simpl; auto 8 | apply is_literal; exact Ht].
  - exists (lit "window."). split; [simpl; auto 8 | apply is_literal; exact Ht].
  - exists (lit "alert("). split; [simpl; auto 8 | apply is_literal; exact Ht].
Qed.

End ScanContentFacts.

(** *** The further properties on concrete inputs *)

Module MoreExamples.
Import Tools ConverterSpec ConverterMoreFacts Inputs.
Import Backtrack ScanContent ScanContentSpec ScanContentFacts.

Lemma page_count_of_any_batch_witness :
  exists pdf : jsPDF.t float,
    convertImagesToPdf readByName decode1000x2000 [] = Some pdf /\
    List.length (jsPDF.output pdf) = Nat.max 1 (List.length (@nil File)) /\
    jsPDF.addPageCalls pdf = (List.length (@nil File) - 1)%nat /\
    (@nil File = [] -> jsPDF.output pdf = [[]]).
Proof.
  apply (page_count_of_any_batch (T:=float) readByName decode1000x2000 []).
  intros image [].
Defined.

Lemma fit_fills_one_side_binary64_witness :
  let W := pixels (T:=float) 16 in
  let Ht := pixels (T:=float) 23 in
  let a := div A4_WIDTH W in
  let b := div A4_HEIGHT Ht in
  (PrimFloat.leb a b = true \/ PrimFloat.leb b a = true) /\
  (PrimFloat.leb a b = true ->
     PrimFloat.leb (next_down A4_WIDTH) (fst (fitToA4 W Ht)) = true /\
     PrimFloat.leb (fst (fitToA4 W Ht)) (next_up A4_WIDTH) = true) /\
  (PrimFloat.leb b a = true ->
     PrimFloat.leb (next_down A4_HEIGHT) (snd (fitToA4 W Ht)) = true /\
     PrimFloat.leb (snd (fitToA4 W Ht)) (next_up A4_HEIGHT) = true).
Proof.
  apply (fit_fills_one_side_binary64 16 23); split; reflexivity.
Defined.

Lemma literal_triggers_flagged_witness :
  scanContent (lit "<script>alert(1)</script>") (lit "html") = true /\
  scanContent (lit "Open the WINDOW. Then wait") (lit "text") = false.
Proof.
  split.
  - apply (proj1 literal_triggers_flagged). apply str_eqb_neq. reflexivity.
  - apply (proj2 literal_triggers_flagged (lit "Open the ") (lit "WINDOW.")
             (lit " Then wait") (lit "window.")).
    + simpl. auto 8.
    + repeat constructor.
Defined.

Lemma handler_attribute_flagged_witness :
  scanContent (lit "The conversion = 2") (lit "text") = false.
Proof.
  apply (handler_attribute_flagged (lit "The c") (lit "on") (lit "ersion")
           (lit " ") (lit " 2") 118%N).
  - repeat constructor.
  - reflexivity.
  - repeat constructor.
  - repeat constructor.
Defined.

Lemma script_element_flagged_witness :
  scanContent (lit "a <SCRIPT src=x><b></Script> c") (lit "text") = false.
Proof.
  apply (script_element_flagged (lit "a ") (lit "<SCRIPT") (lit " src=x><b>")
           (lit "</Script>") (lit " c")).
  - repeat constructor.
  - repeat constructor.
  - reflexivity.
Defined.

Lemma flagged_text_has_a_marker_witness :
  exists marker,
    In marker markers /\
    containsIgnoringCase (lit "medieval(") marker.
Proof.
  apply (flagged_text_has_a_marker (lit "medieval(")). vm_compute. reflexivity.
Defined.

End MoreExamples.
